(** * Heart transplant matcher: the matching and ranking engine

    A shallow embedding of [src/HeartTransplantMatcher.jsx] -- predicted heart
    mass, the ratio classifiers, the blood-type chart, the match builder and
    the sort comparator of [handleCalculateMatches] -- and the properties the
    specification states about them.

    JavaScript numbers are IEEE 754 binary64 values: they are modelled by
    Rocq's primitive floats, whose operations are specified by [SpecFloat].
    A decimal literal denotes the nearest binary64 value in both languages.
    [Math.pow] and [parseFloat] belong to the host; the engine is
    parameterised by them. *)

From Stdlib Require Import ZArith Floats Bool List String Ascii Lia.
From Stdlib Require Import Permutation Sorted.
Import ListNotations.
Set Warnings "-inexact-float".

Open Scope string_scope.
Open Scope list_scope.
Open Scope float_scope.

(** ** JavaScript values and completions *)

(** The primitive values a spreadsheet cell or a form field can hold.  A
    property that is missing from a row object reads as [VUndefined].  (A
    cell holding an object -- a date, rich text -- behaves in this code like
    [VBoolean true]: it is truthy, it has no [toLowerCase], and its property
    key names nothing.) *)
Inductive value : Type :=
| VUndefined
| VNull
| VBoolean (b : bool)
| VNumber (n : float)
| VString (s : string).

(** ToBoolean, as used by [!x]. *)
Definition truthy (v : value) : bool :=
  match v with
  | VUndefined | VNull => false
  | VBoolean b => b
  | VNumber n => negb (is_nan n || is_zero n)
  | VString s => negb (String.eqb s "")
  end.

(** The [===] operator. *)
Definition strict_equal (a b : value) : bool :=
  match a, b with
  | VUndefined, VUndefined | VNull, VNull => true
  | VBoolean x, VBoolean y => Bool.eqb x y
  | VNumber x, VNumber y => (x =? y)%float
  | VString x, VString y => String.eqb x y
  | _, _ => false
  end.

Inductive error : Type := TypeError.

(** A call either returns or throws. *)
Inductive completion (A : Type) : Type :=
| Normal (a : A)
| Throw (e : error).
Arguments Normal {A} a.
Arguments Throw {A} e.

Definition bind {A B : Type} (c : completion A) (k : A -> completion B)
  : completion B :=
  match c with
  | Normal a => k a
  | Throw e => Throw e
  end.

Notation "x <- c ;; k" := (bind c (fun x => k))
  (at level 61, c at next level, right associativity).

(** [Array.prototype.map] with a callback that may throw: the first throw
    ends the traversal. *)
Fixpoint mapM {A B : Type} (f : A -> completion B) (l : list A)
  : completion (list B) :=
  match l with
  | [] => Normal []
  | x :: l' => y <- f x ;; ys <- mapM f l' ;; Normal (y :: ys)
  end.

(** [String.prototype.toLowerCase].  Text is held by its bytes, and the
    letters A-Z are lowered.  On ASCII text ([ascii_text]) this is the
    method itself.  Characters outside ASCII are left as they are, where the
    method would lower them too.  A text that has one still compares as the
    program's does with ['female'] and with every column name the code asks
    for: it differs from them here, and its lowering differs from them in
    the program, because the only character outside ASCII whose lowering is
    an ASCII letter is the Kelvin sign, lowered to ['k'], a letter none of
    these names has. *)
Definition lower_ascii (c : ascii) : ascii :=
  let n := nat_of_ascii c in
  if (65 <=? n)%nat && (n <=? 90)%nat then ascii_of_nat (n + 32) else c.

Fixpoint lower (s : string) : string :=
  match s with
  | EmptyString => EmptyString
  | String c s' => String (lower_ascii c) (lower s')
  end.

(** Text of ASCII characters only. *)
Fixpoint ascii_text (s : string) : bool :=
  match s with
  | EmptyString => true
  | String c s' => (nat_of_ascii c <? 128)%nat && ascii_text s'
  end.

(** [v.toLowerCase()]: only a string has the method; on [undefined] and
    [null] the member access throws, on a number or a boolean the member is
    [undefined] and the call throws. *)
Definition toLowerCase (v : value) : completion string :=
  match v with
  | VString s => Normal (lower s)
  | _ => Throw TypeError
  end.

(** ** Classifier *)

Inductive MatchCategory : Type :=
| CatU3 | CatU2 | CatU1 | CatR | CatO1 | CatO2 | CatO3.

Definition category_label (c : MatchCategory) : string :=
  match c with
  | CatU3 => "U3 - Severely Undersized"
  | CatU2 => "U2 - Moderately Undersized"
  | CatU1 => "U1 - Mildly Undersized"
  | CatR => "R - Well-Matched"
  | CatO1 => "O1 - Mildly Oversized"
  | CatO2 => "O2 - Moderately Oversized"
  | CatO3 => "O3 - Severely Oversized"
  end.

Definition determineMatchCategory (phmRatio : float) : MatchCategory :=
  if phmRatio <? 0.863 then CatU3
  else if phmRatio <? 0.929 then CatU2
  else if phmRatio <? 0.983 then CatU1
  else if phmRatio <? 1.039 then CatR
  else if phmRatio <? 1.111 then CatO1
  else if phmRatio <? 1.221 then CatO2
  else CatO3.

Inductive RiskLevel : Type := HighRisk | Acceptable.

Definition risk_label (r : RiskLevel) : string :=
  match r with
  | HighRisk => "High Risk"
  | Acceptable => "Acceptable"
  end.

Definition risk_eqb (a b : RiskLevel) : bool :=
  match a, b with
  | HighRisk, HighRisk | Acceptable, Acceptable => true
  | _, _ => false
  end.

Definition determineRiskLevel (phmRatio : float) : RiskLevel :=
  if phmRatio <? 0.86 then HighRisk else Acceptable.

Definition calculatePHMRatio (donorPHM recipientPHM : float) : float :=
  donorPHM / recipientPHM.

(** ** Blood-type compatibility *)

Definition bloodTypes : list string :=
  ["A+"; "A-"; "B+"; "B-"; "AB+"; "AB-"; "O+"; "O-"].

(** The chart: recipient type, then the donor types it can receive from. *)
Definition bloodTypeCompatibility : list (string * list string) :=
  [ ("A+",  ["A+"; "A-"; "O+"; "O-"]);
    ("A-",  ["A-"; "O-"]);
    ("B+",  ["B+"; "B-"; "O+"; "O-"]);
    ("B-",  ["B-"; "O-"]);
    ("AB+", ["A+"; "A-"; "B+"; "B-"; "AB+"; "AB-"; "O+"; "O-"]);
    ("AB-", ["A-"; "B-"; "AB-"; "O-"]);
    ("O+",  ["O+"; "O-"]);
    ("O-",  ["O-"]) ].

(** The chart is an object literal, so a property read that finds no own
    key continues in [Object.prototype].  These are its members; each is a
    function or an object, none is nullish and none has an [includes]. *)
Definition Object_prototype : list string :=
  [ "constructor"; "hasOwnProperty"; "isPrototypeOf"; "propertyIsEnumerable";
    "toString"; "toLocaleString"; "valueOf"; "__proto__";
    "__defineGetter__"; "__defineSetter__";
    "__lookupGetter__"; "__lookupSetter__" ].

Inductive property : Type :=
| OwnArray (donors : list string)
| Inherited
| Missing.

Fixpoint own_property (obj : list (string * list string)) (key : string)
  : option (list string) :=
  match obj with
  | [] => None
  | (k, v) :: obj' => if String.eqb k key then Some v else own_property obj' key
  end.

(** ToPropertyKey.  The decimal rendering of a number is not produced: it
    starts with a digit, a sign, ['I'] or ['N'] and so names no own key of
    the chart and no member of [Object.prototype]. *)
Definition property_key (v : value) : option string :=
  match v with
  | VString s => Some s
  | VBoolean true => Some "true"
  | VBoolean false => Some "false"
  | VUndefined => Some "undefined"
  | VNull => Some "null"
  | VNumber _ => None
  end.

(** [obj[key]] on the chart. *)
Definition get (obj : list (string * list string)) (key : value) : property :=
  match property_key key with
  | None => Missing
  | Some k =>
      match own_property obj k with
      | Some v => OwnArray v
      | None =>
          if existsb (String.eqb k) Object_prototype then Inherited else Missing
      end
  end.

(** [Array.prototype.includes] on an array of strings. *)
Definition includes (l : list string) (v : value) : bool :=
  existsb (fun t => strict_equal (VString t) v) l.

(** [bloodTypeCompatibility[recipientBloodType]?.includes(donorBloodType) || false]:
    the optional chain stops on a missing property only; on an inherited
    member the [includes] read gives [undefined] and the call throws. *)
Definition isBloodTypeCompatible (donorBloodType recipientBloodType : value)
  : completion bool :=
  if negb (truthy donorBloodType) || negb (truthy recipientBloodType)
  then Normal false
  else
    match get bloodTypeCompatibility recipientBloodType with
    | Missing => Normal false
    | OwnArray donors => Normal (includes donors donorBloodType || false)
    | Inherited => Throw TypeError
    end.

(** ** Records *)

Module Recipient.
(** A row of the uploaded sheet; every field holds the cell's value. *)
Record t : Type := mk {
  id : value;
  name : value;
  gender : value;
  age : value;
  height : value;
  weight : value;
  bloodType : value
}.
End Recipient.

Module Donor.
(** The donor form; every field holds the text of its input. *)
Record t : Type := mk {
  name : string;
  gender : string;
  age : string;
  height : string;
  weight : string;
  bloodType : string
}.
End Donor.

(** A row of the result table: the recipient's own fields and what the run
    adds to them. *)
Record MatchRecord : Type := {
  recipient : Recipient.t;
  donorPHM : float;
  recipientPHM : float;
  phmRatio : float;
  matchCategory : MatchCategory;
  riskLevel : RiskLevel;
  bloodTypeMatch : bool;
  exactBloodTypeMatch : bool
}.

(** What [setError] shows. *)
Inductive message : Type :=
| NoMessage
| MissingDonorFields (fields : list string)
| DonorNotNumber (field : string)
| NoRecipients
| CalculationError (e : error).

(** The component state the handler reads and writes. *)
Record State : Type := {
  recipients : list Recipient.t;
  donor : Donor.t;
  matchResults : list MatchRecord;
  isLoading : bool;
  errorMessage : message
}.

Definition setError (m : message) (st : State) : State :=
  {| recipients := recipients st; donor := donor st;
     matchResults := matchResults st; isLoading := isLoading st;
     errorMessage := m |}.

Definition setMatchResults (l : list MatchRecord) (st : State) : State :=
  {| recipients := recipients st; donor := donor st;
     matchResults := l; isLoading := isLoading st;
     errorMessage := errorMessage st |}.

Definition setIsLoading (b : bool) (st : State) : State :=
  {| recipients := recipients st; donor := donor st;
     matchResults := matchResults st; isLoading := b;
     errorMessage := errorMessage st |}.

(** ** The sort comparator and [Array.prototype.sort] *)

(** The comparator of [handleCalculateMatches]. *)
Definition compareMatches (a b : MatchRecord) : float :=
  if negb (Bool.eqb (bloodTypeMatch a) (bloodTypeMatch b)) then
    (if bloodTypeMatch a then -1 else 1)
  else if negb (Bool.eqb (exactBloodTypeMatch a) (exactBloodTypeMatch b)) then
    (if exactBloodTypeMatch a then -1 else 1)
  else if negb (risk_eqb (riskLevel a) (riskLevel b)) then
    (if risk_eqb (riskLevel a) Acceptable then -1 else 1)
  else abs (phmRatio a - 1) - abs (phmRatio b - 1).

Section Sort.
Context {A : Type}.
Variable comparefn : A -> A -> float.

(** [Array.prototype.sort] is stable, and a comparator result [v] puts
    its first argument after the second when [v > 0], before it when
    [v < 0], and leaves the two in place otherwise ([0] or [NaN]).  For a
    consistent comparator this fixes the result (see [sort_unique]), which
    a stable insertion computes, and which the algorithm of V8 returns too
    (see [example_sort_consistent]).  Where the comparator is not
    consistent -- here: when a ratio is [NaN] -- the language leaves the
    order to the host, and this insertion is then one possible host among
    others ([example_sort] is the one of V8); no order is promised for such
    lists, only that the result is a permutation of the input. *)
Fixpoint insert (x : A) (l : list A) : list A :=
  match l with
  | [] => [x]
  | y :: l' =>
      if 0 <? comparefn x y then y :: insert x l' else x :: y :: l'
  end.

Definition sort (l : list A) : list A := fold_right insert [] l.
End Sort.

(** ** Predicted heart mass and the match builder *)

Section Engine.
(** The host's [Math.pow] and [parseFloat]. *)
Variable Math_pow : float -> float -> float.
Variable parseFloat : value -> float.

Definition calculatePHM (gender : value) (age height weight : float)
  : completion float :=
  let heightInM := if 3 <? height then height / 100 else height in
  g <- toLowerCase gender ;;
  let lvmCoefficient := if String.eqb g "female" then 6.82 else 8.25 in
  let lvm :=
    lvmCoefficient * Math_pow heightInM 0.54 * Math_pow weight 0.61 in
  g' <- toLowerCase gender ;;
  let rvmCoefficient := if String.eqb g' "female" then 10.59 else 11.25 in
  let rvm :=
    rvmCoefficient * Math_pow age (-0.32) * Math_pow heightInM 1.135
    * Math_pow weight 0.315 in
  Normal (rvm + lvm).

(** The callback of [recipients.map]. *)
Definition matchRecipient (d : Donor.t) (donorPHM : float)
           (r : Recipient.t) : completion MatchRecord :=
  recipientPHM <-
    calculatePHM (Recipient.gender r)
                 (parseFloat (Recipient.age r))
                 (parseFloat (Recipient.height r))
                 (parseFloat (Recipient.weight r)) ;;
  let phmRatio := calculatePHMRatio donorPHM recipientPHM in
  let matchCategory := determineMatchCategory phmRatio in
  let riskLevel := determineRiskLevel phmRatio in
  bloodTypeMatch <-
    isBloodTypeCompatible (VString (Donor.bloodType d)) (Recipient.bloodType r) ;;
  let exactBloodTypeMatch :=
    strict_equal (VString (Donor.bloodType d)) (Recipient.bloodType r) in
  Normal {| recipient := r;
            donorPHM := donorPHM;
            recipientPHM := recipientPHM;
            phmRatio := phmRatio;
            matchCategory := matchCategory;
            riskLevel := riskLevel;
            bloodTypeMatch := bloodTypeMatch;
            exactBloodTypeMatch := exactBloodTypeMatch |}.

(** The body of the [try] block. *)
Definition calculateMatches (d : Donor.t) (rs : list Recipient.t)
  : completion (list MatchRecord) :=
  donorPHM <-
    calculatePHM (VString (Donor.gender d))
                 (parseFloat (VString (Donor.age d)))
                 (parseFloat (VString (Donor.height d)))
                 (parseFloat (VString (Donor.weight d))) ;;
  results <- mapM (matchRecipient d donorPHM) rs ;;
  Normal (sort compareMatches results).

Definition donorFields : list (string * (Donor.t -> string)) :=
  [ ("name", Donor.name); ("gender", Donor.gender); ("age", Donor.age);
    ("height", Donor.height); ("weight", Donor.weight);
    ("bloodType", Donor.bloodType) ].

Definition numericFields : list (string * (Donor.t -> string)) :=
  [ ("age", Donor.age); ("height", Donor.height); ("weight", Donor.weight) ].

Definition handleCalculateMatches (st : State) : State :=
  let d := donor st in
  let missingFields :=
    filter (fun f => negb (truthy (VString (snd f d)))) donorFields in
  if negb (Nat.eqb (List.length missingFields) 0) then
    setError (MissingDonorFields (map fst missingFields)) st
  else
    match find (fun f => is_nan (parseFloat (VString (snd f d)))) numericFields with
    | Some f => setError (DonorNotNumber (fst f)) st
    | None =>
        if Nat.eqb (List.length (recipients st)) 0 then setError NoRecipients st
        else
          let st1 := setError NoMessage (setIsLoading true st) in
          let st2 :=
            match calculateMatches d (recipients st) with
            | Normal sortedResults => setMatchResults sortedResults st1
            | Throw e => setError (CalculationError e) st1
            end in
          setIsLoading false st2
    end.
End Engine.

(** ** The properties' vocabulary *)

(** *** Ranking *)

(** Distance of a record's ratio from the ideal ratio 1.0. *)
Definition proximity (m : MatchRecord) : float := abs (phmRatio m - 1).

(** The primary ranking policy, criterion by criterion: a later criterion
    is read only when all earlier ones tie. *)
Definition ranks_before (a b : MatchRecord) : bool :=
  if Bool.eqb (bloodTypeMatch a) (bloodTypeMatch b) then
    if Bool.eqb (exactBloodTypeMatch a) (exactBloodTypeMatch b) then
      if risk_eqb (riskLevel a) (riskLevel b) then
        proximity a <? proximity b
      else risk_eqb (riskLevel a) Acceptable && risk_eqb (riskLevel b) HighRisk
    else exactBloodTypeMatch a && negb (exactBloodTypeMatch b)
  else bloodTypeMatch a && negb (bloodTypeMatch b).

(** Two records tie on all four criteria. *)
Definition same_keys (a b : MatchRecord) : bool :=
  Bool.eqb (bloodTypeMatch a) (bloodTypeMatch b)
  && Bool.eqb (exactBloodTypeMatch a) (exactBloodTypeMatch b)
  && risk_eqb (riskLevel a) (riskLevel b)
  && (proximity a =? proximity b).

(** The ratio of a record is a number. *)
Definition numeric_ratio (m : MatchRecord) : Prop := is_nan (phmRatio m) = false.

(** [a] stands somewhere before [b] in [l]. *)
Definition precedes {A : Type} (a b : A) (l : list A) : Prop :=
  exists l1 l2 l3, l = l1 ++ a :: l2 ++ b :: l3.

(** The ranker: the sort step of [handleCalculateMatches]. *)
Definition rank (records : list MatchRecord) : list MatchRecord :=
  sort compareMatches records.

(** *** Predicted heart mass, as the specification writes it *)

Inductive Gender : Type := Female | Male.

(** Case-insensitive reading of the gender text. *)
Definition gender_of (s : string) : option Gender :=
  if String.eqb (lower s) "female" then Some Female
  else if String.eqb (lower s) "male" then Some Male
  else None.

Definition Clvm (g : Gender) : float :=
  match g with Female => 6.82 | Male => 8.25 end.

Definition Crvm (g : Gender) : float :=
  match g with Female => 10.59 | Male => 11.25 end.

(** A height above 3 is in centimetres. *)
Definition height_m (height : float) : float :=
  if 3 <? height then height / 100 else height.

Section Formula.
Variable pow : float -> float -> float.

Definition LVM (g : Gender) (height weight : float) : float :=
  Clvm g * pow (height_m height) 0.54 * pow weight 0.61.

Definition RVM (g : Gender) (age height weight : float) : float :=
  Crvm g * pow age (-0.32) * pow (height_m height) 1.135 * pow weight 0.315.

Definition PHM (g : Gender) (age height weight : float) : float :=
  LVM g height weight + RVM g age height weight.
End Formula.

(** *** What the host's powers must not do *)

(** A bound far below every power of a plausible age, height or weight:
    with powers of at least this size no product of the formula
    underflows. *)
Definition pow_floor : float := 0x1p-200.

(** The five powers the formula takes are at least [pow_floor]. *)
Definition powers_fit (pow : float -> float -> float)
           (age height weight : float) : Prop :=
  (pow_floor <=? pow (height_m height) 0.54) = true /\
  (pow_floor <=? pow weight 0.61) = true /\
  (pow_floor <=? pow age (-0.32)) = true /\
  (pow_floor <=? pow (height_m height) 1.135) = true /\
  (pow_floor <=? pow weight 0.315) = true.

(** *** Blood types, as the specification writes them *)

Inductive ABO : Type := GroupA | GroupB | GroupAB | GroupO.
Inductive Rhesus : Type := RhPositive | RhNegative.

Definition blood_type_of (s : string) : option (ABO * Rhesus) :=
  if String.eqb s "A+" then Some (GroupA, RhPositive)
  else if String.eqb s "A-" then Some (GroupA, RhNegative)
  else if String.eqb s "B+" then Some (GroupB, RhPositive)
  else if String.eqb s "B-" then Some (GroupB, RhNegative)
  else if String.eqb s "AB+" then Some (GroupAB, RhPositive)
  else if String.eqb s "AB-" then Some (GroupAB, RhNegative)
  else if String.eqb s "O+" then Some (GroupO, RhPositive)
  else if String.eqb s "O-" then Some (GroupO, RhNegative)
  else None.

(** The subset rule: O into A, B, AB; A into AB; B into AB; every group
    into itself. *)
Definition abo_transfusable (d r : ABO) : bool :=
  match d, r with
  | GroupO, _ | _, GroupAB => true
  | GroupA, GroupA | GroupB, GroupB => true
  | _, _ => false
  end.

Definition rhesus_transfusable (d r : Rhesus) : bool :=
  match d, r with
  | RhNegative, _ | _, RhPositive => true
  | RhPositive, RhNegative => false
  end.

Definition transfusable (d r : ABO * Rhesus) : bool :=
  abo_transfusable (fst d) (fst r) && rhesus_transfusable (snd d) (snd r).

(** A blood type the chart does not know, or none at all. *)
Definition unknown_or_absent (v : value) : Prop :=
  match v with
  | VString s => blood_type_of s = None
  | _ => True
  end.

(** *** Recipients and donors *)

Definition is_text (v : value) : bool :=
  match v with VString _ => true | _ => false end.

Definition is_positive_number (v : value) : bool :=
  match v with VNumber n => 0 <? n | _ => false end.

(** A recipient row with a recognised gender and positive measurements. *)
Definition well_formed (r : Recipient.t) : bool :=
  match Recipient.gender r with
  | VString s => match gender_of s with Some _ => true | None => false end
  | _ => false
  end
  && is_positive_number (Recipient.age r)
  && is_positive_number (Recipient.height r)
  && is_positive_number (Recipient.weight r).

(** The blood-type cell does not name a member of [Object.prototype]. *)
Definition bloodType_resolves (r : Recipient.t) : bool :=
  match get bloodTypeCompatibility (Recipient.bloodType r) with
  | Inherited => false
  | _ => true
  end.

(** The donor form passes both validation steps of the handler. *)
Definition donor_valid (parseFloat : value -> float) (d : Donor.t) : bool :=
  forallb (fun f => truthy (VString (snd f d))) donorFields
  && forallb (fun f => negb (is_nan (parseFloat (VString (snd f d))))) numericFields.

(** ** Worked examples: a host and sample data *)

(** Reading of a plain decimal text such as ["180"] or ["1.75"]. *)
Fixpoint decimal_digits (s : string) (acc : Z) (scale : option Z)
  : option (Z * Z) :=
  match s with
  | EmptyString =>
      Some (acc, match scale with Some k => k | None => 1%Z end)
  | String c s' =>
      let n := Z.of_nat (nat_of_ascii c) in
      if ((48 <=? n) && (n <=? 57))%Z then
        decimal_digits s' (10 * acc + (n - 48))%Z
                       (option_map (Z.mul 10) scale)
      else if (n =? 46)%Z then
        match scale with
        | None => decimal_digits s' acc (Some 1%Z)
        | Some _ => None
        end
      else None
  end.

Definition float_of_Z (z : Z) : float := of_uint63 (Uint63.of_Z z).

(** A host [parseFloat] for the examples: numbers read as themselves, plain
    decimal texts as their value, everything else as [NaN]. *)
Definition example_parseFloat (v : value) : float :=
  match v with
  | VNumber n => n
  | VString EmptyString => nan
  | VString s =>
      match decimal_digits s 0%Z None with
      | Some (m, k) => float_of_Z m / float_of_Z k
      | None => nan
      end
  | _ => nan
  end.

(** A host [Math.pow] for the examples.  The theorems hold for every host
    function; the examples only need one. *)
Definition example_pow (base exponent : float) : float :=
  if exponent <? 0 then 1 / sqrt base else sqrt base.

(** A host [Array.prototype.sort] for the examples: the algorithm of V8
    (Node, Chrome) on an array of fewer than 64 elements.  It takes the
    run the array starts with (reversed when it descends strictly), then
    places each later element by a binary search in the part sorted so
    far.  A comparator result counts as negative only when it is below
    zero; [NaN] counts as zero. *)
Section HostSort.
Context {A : Type}.
Variable comparefn : A -> A -> float.

(** How many elements after [previous] continue the run. *)
Fixpoint run_length (descending : bool) (previous : A) (l : list A) : nat :=
  match l with
  | [] => 0
  | x :: l' =>
      if Bool.eqb (comparefn x previous <? 0) descending
      then S (run_length descending x l') else 0
  end.

(** The binary search for the place of [pivot] in [a], between [left] and
    [right]. *)
Fixpoint insertion_point (fuel : nat) (pivot : A) (a : list A)
         (left right : nat) : nat :=
  match fuel with
  | O => left
  | S fuel' =>
      if (left <? right)%nat then
        let mid := (left + Nat.div2 (right - left))%nat in
        match nth_error a mid with
        | Some y =>
            if comparefn pivot y <? 0
            then insertion_point fuel' pivot a left mid
            else insertion_point fuel' pivot a (S mid) right
        | None => left
        end
      else left
  end.

Definition binary_insert (sorted : list A) (pivot : A) : list A :=
  let k := insertion_point (List.length sorted) pivot sorted 0
                           (List.length sorted) in
  firstn k sorted ++ pivot :: skipn k sorted.

Definition example_sort (l : list A) : list A :=
  match l with
  | x0 :: x1 :: rest =>
      let descending := comparefn x1 x0 <? 0 in
      let n := (2 + run_length descending x1 rest)%nat in
      let run := firstn n l in
      fold_left binary_insert (skipn n l)
                (if descending then rev run else run)
  | _ => l
  end.
End HostSort.

(** A list in which each element stands in [R] to the next. *)
Fixpoint chain {A : Type} (R : A -> A -> Prop) (previous : A) (l : list A)
  : Prop :=
  match l with
  | [] => True
  | x :: l' => R previous x /\ chain R x l'
  end.

Definition example_donor : Donor.t :=
  Donor.mk "Donor" "male" "45" "180" "80" "O-".

Definition recipient_ok : Recipient.t :=
  Recipient.mk (VNumber 1) (VString "First") (VString "Female")
               (VNumber 50) (VNumber 165) (VNumber 65) (VString "AB+").

Definition recipient_same_type : Recipient.t :=
  Recipient.mk (VNumber 2) (VString "Second") (VString "male")
               (VNumber 30) (VNumber 178) (VNumber 82) (VString "O-").

(** A row whose gender cell is empty. *)
Definition recipient_no_gender : Recipient.t :=
  Recipient.mk (VNumber 3) (VString "Third") VUndefined
               (VNumber 61) (VNumber 170) (VNumber 70) (VString "A+").

(** A row whose weight cell holds text. *)
Definition recipient_bad_weight : Recipient.t :=
  Recipient.mk (VNumber 4) (VString "Fourth") (VString "male")
               (VNumber 58) (VNumber 172) (VString "n/a") (VString "B+").

(** A row of a male recipient of 45 years and 180 cm with blood type A+. *)
Definition recipient_row (id : float) (name : string) (weight : value)
  : Recipient.t :=
  Recipient.mk (VNumber id) (VString name) (VString "male")
               (VNumber 45) (VNumber 180) weight (VString "A+").

(** A sheet with a mistyped weight between two good rows. *)
Definition rows_beside_nan : list Recipient.t :=
  [ recipient_row 1 "R1" (VNumber 47);
    recipient_row 2 "R2" (VString "n/a");
    recipient_row 3 "R3" (VNumber 80) ].

(** A sheet with mistyped weights and two rows of equal weight. *)
Definition rows_with_ties : list Recipient.t :=
  [ recipient_row 1 "R1" (VString "n/a");
    recipient_row 2 "R2" (VString "n/a");
    recipient_row 3 "R3" (VNumber 22);
    recipient_row 4 "R4" (VString "n/a");
    recipient_row 5 "R5" (VNumber 66);
    recipient_row 6 "R6" (VNumber 72);
    recipient_row 7 "R7" (VNumber 66) ].

(** The name cell of the recipient of a record. *)
Definition record_name (m : MatchRecord) : value :=
  Recipient.name (recipient m).

Definition initial_state (rs : list Recipient.t) : State :=
  {| recipients := rs; donor := example_donor; matchResults := [];
     isLoading := false; errorMessage := NoMessage |}.

Definition sample_record (r : Recipient.t) (compatible exact : bool)
           (ratio : float) : MatchRecord :=
  {| recipient := r; donorPHM := ratio; recipientPHM := 1;
     phmRatio := ratio;
     matchCategory := determineMatchCategory ratio;
     riskLevel := determineRiskLevel ratio;
     bloodTypeMatch := compatible; exactBloodTypeMatch := exact |}.

Definition sample_records : list MatchRecord :=
  [ sample_record recipient_ok false false 1.0;
    sample_record recipient_ok true false 0.8;
    sample_record recipient_ok true true 1.3;
    sample_record recipient_ok true false 1.05;
    sample_record recipient_same_type true false 1.05;
    sample_record recipient_ok true true 0.95 ].

(** ** The ABO-only policy of the waiting-list version *)

(** [s.replace(/[+-]/, '')]: the pattern is not global, so only the first
    sign goes. *)
Fixpoint remove_first_sign (s : string) : string :=
  match s with
  | EmptyString => EmptyString
  | String c s' =>
      if Ascii.eqb c "+" || Ascii.eqb c "-" then s'
      else String c (remove_first_sign s')
  end.

(** [getABOType]: [null] is [None].  A truthy value that is not a string has
    no [replace], and the call throws. *)
Definition getABOType (bloodType : value) : completion (option string) :=
  if negb (truthy bloodType) then Normal None
  else
    match bloodType with
    | VString s =>
        let aboType := remove_first_sign s in
        Normal (if includes ["A"; "B"; "AB"; "O"] (VString aboType)
                then Some aboType else None)
    | _ => Throw TypeError
    end.

(** [String.prototype.includes('+')]. *)
Fixpoint contains_plus (s : string) : bool :=
  match s with
  | EmptyString => false
  | String c s' => Ascii.eqb c "+" || contains_plus s'
  end.

Definition includes_plus (v : value) : completion bool :=
  match v with
  | VString s => Normal (contains_plus s)
  | _ => Throw TypeError
  end.

Definition hasRhesusMismatch (donorBloodType recipientBloodType : value)
  : completion bool :=
  if negb (truthy donorBloodType) || negb (truthy recipientBloodType)
  then Normal false
  else
    donorPlus <- includes_plus donorBloodType ;;
    recipientPlus <- includes_plus recipientBloodType ;;
    Normal (negb recipientPlus && donorPlus).

Definition aboCompatibility : list (string * list string) :=
  [ ("A",  ["A"; "O"]);
    ("B",  ["B"; "O"]);
    ("AB", ["A"; "B"; "AB"; "O"]);
    ("O",  ["O"]) ].

Definition isABOCompatible (donorBloodType recipientBloodType : value)
  : completion bool :=
  donorABO <- getABOType donorBloodType ;;
  recipientABO <- getABOType recipientBloodType ;;
  match donorABO, recipientABO with
  | Some d, Some r =>
      match get aboCompatibility (VString r) with
      | Missing => Normal false
      | OwnArray donors => Normal (includes donors (VString d) || false)
      | Inherited => Throw TypeError
      end
  | _, _ => Normal false
  end.

(** The group a bare group name stands for. *)
Definition abo_of_name (s : string) : option ABO :=
  if String.eqb s "A" then Some GroupA
  else if String.eqb s "B" then Some GroupB
  else if String.eqb s "AB" then Some GroupAB
  else if String.eqb s "O" then Some GroupO
  else None.

(** ** The waiting-list version of the match builder and its ranking *)

Module Waiting.
(** A row of the waiting-list sheet: the fields of the first version, the
    priority status cell, and the date the upload made of the dateadded
    cell ([Some t] is a [Date] of time value [t], [NaN] when invalid; [None]
    is an empty cell). *)
Record Recipient : Type := {
  base : Recipient.t;
  status_cell : value;
  dateadded : option float
}.

Record Match : Type := {
  recipient : Recipient;
  donorPHM : float;
  recipientPHM : float;
  phmRatio : float;
  matchCategory : MatchCategory;
  riskLevel : RiskLevel;
  aboMatch : bool;
  rhesusWarning : bool;
  status : float;
  dateAdded : float
}.

(** The comparator: risk level, ABO compatibility, status, date added. *)
Definition compare (a b : Match) : float :=
  if negb (risk_eqb (riskLevel a) (riskLevel b)) then
    (if risk_eqb (riskLevel a) Acceptable then -1 else 1)
  else if negb (Bool.eqb (aboMatch a) (aboMatch b)) then
    (if aboMatch a then -1 else 1)
  else if negb (status a =? status b) then status a - status b
  else dateAdded a - dateAdded b.

(** The priority colour of a status in the result table. *)
Inductive Priority : Type := PriorityHigh | PriorityMedium | PriorityLow.

Definition priority (status : float) : Priority :=
  if status <=? 2 then PriorityHigh
  else if status <=? 4 then PriorityMedium
  else PriorityLow.

Section Engine.
Variable Math_pow : float -> float -> float.
Variable parseFloat : value -> float.
Variable parseInt : value -> float.

(** [parseInt(recipient.status) || 7]. *)
Definition status_of (cell : value) : float :=
  let n := parseInt cell in
  if truthy (VNumber n) then n else 7.

(** [recipient.dateadded instanceof Date ? recipient.dateadded
     : new Date(recipient.dateadded)], read as a time value. *)
Definition dateAdded_of (d : option float) : float :=
  match d with
  | Some t => t
  | None => nan
  end.

(** The callback of [recipients.map]. *)
Definition matchRecipient (d : Donor.t) (donorPHM : float) (r : Recipient)
  : completion Match :=
  recipientPHM <-
    calculatePHM Math_pow (Recipient.gender (base r))
                 (parseFloat (Recipient.age (base r)))
                 (parseFloat (Recipient.height (base r)))
                 (parseFloat (Recipient.weight (base r))) ;;
  let phmRatio := calculatePHMRatio donorPHM recipientPHM in
  let matchCategory := determineMatchCategory phmRatio in
  let riskLevel := determineRiskLevel phmRatio in
  aboMatch <-
    isABOCompatible (VString (Donor.bloodType d))
                    (Recipient.bloodType (base r)) ;;
  rhesusWarning <-
    hasRhesusMismatch (VString (Donor.bloodType d))
                      (Recipient.bloodType (base r)) ;;
  Normal {| recipient := r;
            donorPHM := donorPHM;
            recipientPHM := recipientPHM;
            phmRatio := phmRatio;
            matchCategory := matchCategory;
            riskLevel := riskLevel;
            aboMatch := aboMatch;
            rhesusWarning := rhesusWarning;
            status := status_of (status_cell r);
            dateAdded := dateAdded_of (dateadded r) |}.

(** The body of the [try] block up to [setMatchResults]: the ranked records
    and the counter of Rhesus warnings the callback keeps. *)
Definition calculateMatches (d : Donor.t) (rs : list Recipient)
  : completion (list Match * nat) :=
  donorPHM <-
    calculatePHM Math_pow (VString (Donor.gender d))
                 (parseFloat (VString (Donor.age d)))
                 (parseFloat (VString (Donor.height d)))
                 (parseFloat (VString (Donor.weight d))) ;;
  results <- mapM (matchRecipient d donorPHM) rs ;;
  Normal (sort compare results,
          List.length (filter rhesusWarning results)).
End Engine.

(** The waiting-list policy, criterion by criterion. *)
Definition ranks_before (a b : Match) : bool :=
  if risk_eqb (riskLevel a) (riskLevel b) then
    if Bool.eqb (aboMatch a) (aboMatch b) then
      if status a =? status b then dateAdded a <? dateAdded b
      else status a <? status b
    else aboMatch a && negb (aboMatch b)
  else risk_eqb (riskLevel a) Acceptable && risk_eqb (riskLevel b) HighRisk.

Definition same_keys (a b : Match) : bool :=
  risk_eqb (riskLevel a) (riskLevel b)
  && Bool.eqb (aboMatch a) (aboMatch b)
  && (status a =? status b)
  && (dateAdded a =? dateAdded b).

(** Status and date of a record are numbers. *)
Definition numeric_keys (m : Match) : Prop :=
  is_nan (status m) = false /\ is_nan (dateAdded m) = false.

Definition rank (records : list Match) : list Match := sort compare records.
End Waiting.

(** Sample records of a waiting-list run. *)
Definition waiting_sample (ratio : float) (abo : bool) (status date : float)
  : Waiting.Match :=
  {| Waiting.recipient :=
       {| Waiting.base := recipient_ok;
          Waiting.status_cell := VNumber status;
          Waiting.dateadded := Some date |};
     Waiting.donorPHM := ratio; Waiting.recipientPHM := 1;
     Waiting.phmRatio := ratio;
     Waiting.matchCategory := determineMatchCategory ratio;
     Waiting.riskLevel := determineRiskLevel ratio;
     Waiting.aboMatch := abo; Waiting.rhesusWarning := false;
     Waiting.status := status; Waiting.dateAdded := date |}.

Definition waiting_samples : list Waiting.Match :=
  [ waiting_sample 0.8 true 1 100;
    waiting_sample 1.0 false 3 50;
    waiting_sample 1.0 true 5 10;
    waiting_sample 1.0 true 2 70;
    waiting_sample 1.0 true 2 30;
    waiting_sample 1.1 true 2 70 ].

(** A host [parseInt] for the examples: whole numbers read as themselves. *)
Definition example_parseInt (v : value) : float :=
  match v with
  | VNumber n => n
  | _ => nan
  end.

Definition waiting_rows : list Waiting.Recipient :=
  [ {| Waiting.base := recipient_ok; Waiting.status_cell := VNumber 2;
       Waiting.dateadded := Some 1700000000000 |};
    {| Waiting.base := recipient_same_type; Waiting.status_cell := VUndefined;
       Waiting.dateadded := Some 1600000000000 |} ].

(** ** The upload of the recipient sheet *)

(** A row object: its own properties, the latest assignment first. *)
Definition row_object : Type := list (string * value).

(** [o[k]] on a row object, for the keys this code reads (none of them is a
    member of [Object.prototype]). *)
Fixpoint row_get (o : row_object) (k : string) : value :=
  match o with
  | [] => VUndefined
  | (k', v) :: o' => if String.eqb k' k then v else row_get o' k
  end.

(** [o[k] = v] with a primitive [v]: the key ['__proto__'] is the prototype
    setter, which ignores primitives; every other key becomes an own
    property. *)
Definition row_set (k : string) (v : value) (o : row_object) : row_object :=
  if String.eqb k "__proto__" then o else (k, v) :: o.

(** [delete o[k]]. *)
Definition row_delete (k : string) (o : row_object) : row_object :=
  filter (fun kv => negb (String.eqb (fst kv) k)) o.

(** What the handlers read of a row. *)
Definition recipient_of_row (o : row_object) : Recipient.t :=
  Recipient.mk (row_get o "id") (row_get o "name") (row_get o "gender")
               (row_get o "age") (row_get o "height") (row_get o "weight")
               (row_get o "bloodType").

(** A worksheet as [eachRow] and [eachCell] visit it: the rows that hold a
    value, each with its number and its cells that hold a value, each with
    its column number (from 1; the code stores column [c] at index [c - 1],
    the model keeps [c]).  Cell values are the primitive ones: text, numbers
    and booleans. *)
Definition sheet_row : Type := nat * list (nat * value).
Definition worksheet : Type := list sheet_row.

(** [worksheet.getRow(1)]. *)
Definition getRow1 (ws : worksheet) : list (nat * value) :=
  match find (fun r => Nat.eqb (fst r) 1) ws with
  | Some r => snd r
  | None => []
  end.

(** What the file input and the workbook loader hand to the handler. *)
Inductive upload : Type :=
| NoFile
| LoadFailed
| Loaded (first : option worksheet).

Inductive upload_message : Type :=
| UploadNoMessage
| NoWorksheet
| MissingColumns (columns : list string)
| NoBloodTypeColumn
| NoData
| ProcessingError.

(** The state the upload handler writes. *)
Record UploadState : Type := {
  loaded_rows : list row_object;
  upload_error : upload_message;
  upload_isLoading : bool
}.

Definition requiredColumns : list string :=
  ["id"; "name"; "gender"; "age"; "height"; "weight"].

(** The [headers] array: a column number and the header text stored for
    it, the latest assignment first. *)
Fixpoint header_of (headers : list (nat * string)) (col : nat) : option string :=
  match headers with
  | [] => None
  | (c, h) :: hs => if Nat.eqb c col then Some h else header_of hs col
  end.

(** [headers.includes(col)]: an index assigned twice holds its latest text
    only. *)
Definition headers_include (headers : list (nat * string)) (name : string)
  : bool :=
  existsb (fun ch => match header_of headers (fst ch) with
                     | Some h => String.eqb h name
                     | None => false
                     end) headers.

Section Upload.
(** The host's rendering of a number as text. *)
Variable numberToString : float -> string.

(** [cell.value.toString()]. *)
Definition value_toString (v : value) : completion string :=
  match v with
  | VString s => Normal s
  | VBoolean true => Normal "true"
  | VBoolean false => Normal "false"
  | VNumber n => Normal (numberToString n)
  | VUndefined | VNull => Throw TypeError
  end.

(** The header pass over row 1. *)
Fixpoint read_headers (cells : list (nat * value)) (headers : list (nat * string))
  : completion (list (nat * string)) :=
  match cells with
  | [] => Normal headers
  | (col, v) :: cells' =>
      s <- value_toString v ;;
      read_headers cells' ((col, lower s) :: headers)
  end.

(** The callback of [row.eachCell], over the cells of one row. *)
Fixpoint read_cells (headers : list (nat * string)) (cells : list (nat * value))
         (rowData : row_object) : row_object :=
  match cells with
  | [] => rowData
  | (col, v) :: cells' =>
      let header :=
        match header_of headers col with
        | Some h => h
        | None => "undefined"
        end in
      read_cells headers cells' (row_set header v rowData)
  end.

(** The normalisation of the blood type field name. *)
Definition normalize_bloodType (rowData : row_object) : row_object :=
  if truthy (row_get rowData "bloodtype")
     && negb (truthy (row_get rowData "bloodType"))
  then row_delete "bloodtype"
         (row_set "bloodType" (row_get rowData "bloodtype") rowData)
  else rowData.

(** The callback of [worksheet.eachRow]. *)
Fixpoint read_rows (headers : list (nat * string)) (ws : worksheet)
  : list row_object :=
  match ws with
  | [] => []
  | (rowNumber, cells) :: ws' =>
      if Nat.eqb rowNumber 1 then read_rows headers ws'
      else normalize_bloodType (read_cells headers cells [])
           :: read_rows headers ws'
  end.

Definition handleFileUpload (u : upload) (st : UploadState) : UploadState :=
  let cleared :=
    {| loaded_rows := loaded_rows st; upload_error := UploadNoMessage;
       upload_isLoading := upload_isLoading st |} in
  let stop (m : upload_message) :=
    {| loaded_rows := loaded_rows st; upload_error := m;
       upload_isLoading := false |} in
  match u with
  | NoFile => cleared
  | LoadFailed => stop ProcessingError
  | Loaded None => stop NoWorksheet
  | Loaded (Some ws) =>
      match read_headers (getRow1 ws) [] with
      | Throw _ => stop ProcessingError
      | Normal headers =>
          let missingColumns :=
            filter (fun col => negb (headers_include headers col))
                   requiredColumns in
          if negb (Nat.eqb (List.length missingColumns) 0) then
            stop (MissingColumns missingColumns)
          else
            let warning :=
              if negb (headers_include headers "bloodtype")
              then NoBloodTypeColumn else UploadNoMessage in
            let jsonData := read_rows headers ws in
            if Nat.eqb (List.length jsonData) 0 then stop NoData
            else {| loaded_rows := jsonData; upload_error := warning;
                    upload_isLoading := false |}
      end
  end.
End Upload.

(** Sample sheets for the upload. *)
Definition example_numberToString (n : float) : string := "0".

Definition example_sheet : worksheet :=
  [ (1%nat, [ (1%nat, VString "ID"); (2%nat, VString "Name");
              (3%nat, VString "Gender"); (4%nat, VString "Age");
              (5%nat, VString "Height"); (6%nat, VString "Weight");
              (7%nat, VString "BloodType") ]);
    (2%nat, [ (1%nat, VNumber 1); (2%nat, VString "First");
              (3%nat, VString "Female"); (4%nat, VNumber 50);
              (5%nat, VNumber 165); (6%nat, VNumber 65);
              (7%nat, VString "AB+") ]);
    (3%nat, [ (1%nat, VNumber 2); (2%nat, VString "Second");
              (3%nat, VString "male"); (4%nat, VNumber 30);
              (5%nat, VNumber 178); (6%nat, VNumber 82) ]) ].

(** A sheet whose header row has no gender and no weight column. *)
Definition sheet_short_header : worksheet :=
  [ (1%nat, [ (1%nat, VString "Id"); (2%nat, VString "NAME");
              (3%nat, VString "age"); (4%nat, VString "Height") ]);
    (2%nat, [ (1%nat, VNumber 1); (2%nat, VString "First");
              (3%nat, VNumber 50); (4%nat, VNumber 165) ]) ].

Definition empty_upload_state : UploadState :=
  {| loaded_rows := []; upload_error := UploadNoMessage;
     upload_isLoading := false |}.

(** ** Floating-point vocabulary *)

(** A result that carries the sign [s] and is neither a zero nor a NaN. *)
Definition signed_nonzero (s : bool) (r : spec_float) : Prop :=
  match r with
  | S754_finite s' _ _ | S754_infinity s' => s' = s
  | _ => False
  end.

(** *** Rounding, as [SpecFloat] computes it *)

(** The record reached from [m] by [k] right shifts: the quotient, the bit
    shifted out last, and whether an earlier bit shifted out was set. *)
Definition shifted (m : Z) (k : nat) (mrs : shr_record) : Prop :=
  shr_m mrs = (m / 2 ^ Z.of_nat k)%Z /\
  match k with
  | O => shr_r mrs = false /\ shr_s mrs = false
  | S k' =>
      shr_r mrs = Z.odd (m / 2 ^ Z.of_nat k') /\
      shr_s mrs = negb (m mod 2 ^ Z.of_nat k' =? 0)%Z
  end.

(** Round to nearest, ties to even, of [m / 2 ^ n]. *)
Definition rne (m n : Z) : Z :=
  let q := (m / 2 ^ n)%Z in
  match (2 * (m mod 2 ^ n) ?= 2 ^ n)%Z with
  | Lt => q
  | Eq => if Z.even q then q else (q + 1)%Z
  | Gt => (q + 1)%Z
  end.

(** The float a rounded mantissa [R] at exponent [E] stands for. *)
Definition canon_result (prec emax : Z) (s : bool) (R E : Z) : spec_float :=
  if (R =? 0)%Z then S754_zero s
  else if (R =? 2 ^ prec)%Z then
    (if (E + 1 <=? emax - prec)%Z
     then S754_finite s (Z.to_pos (2 ^ (prec - 1))) (E + 1)
     else S754_infinity s)
  else if (E <=? emax - prec)%Z then S754_finite s (Z.to_pos R) E
  else S754_infinity s.

(** The rounding of the positive value [V * 2 ^ k]. *)
Definition round_value (prec emax : Z) (k V : Z) : spec_float :=
  let E := SpecFloat.fexp prec emax (Zdigits2 V + k) in
  canon_result prec emax false (rne V (E - k)) E.

(** * Floating-point facts

    Order and sign facts about binary64 comparison, subtraction and addition,
    derived from the [SpecFloat] specification of the primitive operations. *)

(** ** Comparison of specification floats *)

Lemma SFcompare_antisym x y :
  SFcompare y x = option_map CompOpp (SFcompare x y).
Proof.
  destruct x as [sx|sx| |sx mx ex], y as [sy|sy| |sy my ey]; simpl;
    try destruct sx; try destruct sy; try reflexivity;
    rewrite (Z.compare_antisym ey ex);
    destruct (ey ?= ex)%Z; simpl; try reflexivity;
    change (Pos.compare_cont Eq) with Pos.compare;
    rewrite (Pos.compare_antisym my mx); try reflexivity;
    now rewrite CompOpp_involutive.
Qed.

Lemma SFcompare_eq_cong x y z :
  SFcompare x y = Some Eq -> SFcompare x z = SFcompare y z.
Proof.
  destruct x as [sx|sx| |sx mx ex], y as [sy|sy| |sy my ey]; simpl;
    try destruct sx; try destruct sy; try discriminate; try reflexivity;
    try (destruct z as [[]|[]| |[] ? ?]; reflexivity).
  all: destruct (Z.compare_spec ex ey); try discriminate; subst;
    change (Pos.compare_cont Eq) with Pos.compare;
    destruct (Pos.compare_spec mx my); try discriminate; subst; reflexivity.
Qed.

Lemma SFcompare_lt_trans x y z :
  SFcompare x y = Some Lt -> SFcompare y z = Some Lt -> SFcompare x z = Some Lt.
Proof.
  destruct x as [sx|sx| |sx mx ex], y as [sy|sy| |sy my ey], z as [sz|sz| |sz mz ez]; simpl;
    try destruct sx; try destruct sy; try destruct sz; try discriminate; try reflexivity.
  all: change (Pos.compare_cont Eq) with Pos.compare.
  all: destruct (Z.compare_spec ex ey), (Z.compare_spec ey ez), (Z.compare_spec ex ez);
    try discriminate; try reflexivity; try lia.
  all: subst; destruct (Pos.compare_spec mx my), (Pos.compare_spec my mz), (Pos.compare_spec mx mz);
    try discriminate; try reflexivity; try lia.
Qed.

Section Rounding.
Variables prec emax : Z.
Hypothesis Hprec : (0 < prec)%Z.
Local Abbreviation emin := (SpecFloat.emin prec emax).
Local Abbreviation fexp := (SpecFloat.fexp prec emax).

Lemma digits2_pos_bounds (m : positive) :
  (2 ^ (Zpos (digits2_pos m) - 1) <= Zpos m < 2 ^ Zpos (digits2_pos m))%Z.
Proof.
  induction m as [m IH|m IH|]; simpl digits2_pos.
  - rewrite Pos2Z.inj_succ, Z.pow_succ_r by lia.
    replace (Z.succ (Zpos (digits2_pos m)) - 1)%Z
      with (Z.succ (Zpos (digits2_pos m) - 1)) by lia.
    rewrite Z.pow_succ_r by lia. lia.
  - rewrite Pos2Z.inj_succ, Z.pow_succ_r by lia.
    replace (Z.succ (Zpos (digits2_pos m)) - 1)%Z
      with (Z.succ (Zpos (digits2_pos m) - 1)) by lia.
    rewrite Z.pow_succ_r by lia. lia.
  - simpl. lia.
Qed.

Lemma shr_1_div2 mrs :
  (0 <= shr_m mrs)%Z -> shr_m (shr_1 mrs) = (shr_m mrs / 2)%Z.
Proof.
  destruct mrs as [m r s]. unfold shr_1, shr_m. intros Hm.
  destruct m as [|[p|p|]|p]; try lia; try reflexivity.
  - apply Z.div_unique with 1%Z; lia.
  - apply Z.div_unique with 0%Z; lia.
Qed.

Lemma pow2_xI (p : positive) :
  (2 ^ Zpos p~1 = 2 * (2 ^ Zpos p * 2 ^ Zpos p))%Z.
Proof.
  replace (Zpos p~1) with (1 + (Zpos p + Zpos p))%Z by lia.
  rewrite !Z.pow_add_r by lia. reflexivity.
Qed.

Lemma pow2_xO (p : positive) :
  (2 ^ Zpos p~0 = 2 ^ Zpos p * 2 ^ Zpos p)%Z.
Proof.
  replace (Zpos p~0) with (Zpos p + Zpos p)%Z by lia.
  rewrite !Z.pow_add_r by lia. reflexivity.
Qed.

Lemma iter_shr_1_div (p : positive) : forall mrs,
  (0 <= shr_m mrs)%Z ->
  shr_m (iter_pos shr_1 p mrs) = (shr_m mrs / 2 ^ Zpos p)%Z.
Proof.
  induction p as [p IH|p IH|]; intros mrs Hm; simpl iter_pos.
  - assert (H1 : (0 <= shr_m (shr_1 mrs))%Z)
      by (rewrite shr_1_div2 by assumption; apply Z.div_pos; lia).
    assert (H2 : (0 <= shr_m (iter_pos shr_1 p (shr_1 mrs)))%Z)
      by (rewrite IH by assumption; apply Z.div_pos; lia).
    rewrite IH, IH, shr_1_div2 by assumption.
    rewrite !Z.div_div by lia. now rewrite pow2_xI, Z.mul_assoc.
  - assert (H2 : (0 <= shr_m (iter_pos shr_1 p mrs))%Z)
      by (rewrite IH by assumption; apply Z.div_pos; lia).
    rewrite IH, IH by assumption.
    rewrite !Z.div_div by lia. now rewrite pow2_xO.
  - rewrite shr_1_div2 by assumption. reflexivity.
Qed.

Lemma shr_record_of_loc_m m l : shr_m (shr_record_of_loc m l) = m.
Proof. destruct l as [|[]]; reflexivity. Qed.

Lemma fexp_ge_emin e : (emin <= fexp e)%Z.
Proof. unfold SpecFloat.fexp. lia. Qed.

Lemma shr_fexp_pos m e l :
  (0 < m)%Z -> (emin <= e)%Z ->
  (0 < shr_m (fst (shr_fexp prec emax m e l)))%Z /\
  (emin <= snd (shr_fexp prec emax m e l))%Z.
Proof.
  intros Hm He. unfold shr_fexp, shr.
  destruct m as [|m|m]; try lia. simpl Zdigits2.
  destruct (fexp (Zpos (digits2_pos m) + e) - e)%Z as [|n|n] eqn:Hn; simpl fst; simpl snd;
    rewrite ?shr_record_of_loc_m; try (split; lia).
  split; [|lia].
  rewrite iter_shr_1_div by (rewrite shr_record_of_loc_m; lia).
  rewrite shr_record_of_loc_m.
  assert (Hd : (Zpos n = Zpos (digits2_pos m) - prec)%Z)
    by (unfold SpecFloat.fexp in Hn; lia).
  pose proof (digits2_pos_bounds m) as [Hlo _].
  apply Z.div_str_pos. split; [apply Z.pow_pos_nonneg; lia|].
  apply Z.le_trans with (2 ^ (Zpos (digits2_pos m) - 1))%Z; [|assumption].
  apply Z.pow_le_mono_r; lia.
Qed.

Lemma round_nearest_even_ge m l : (m <= round_nearest_even m l)%Z.
Proof.
  destruct l as [|[]]; simpl; try lia. destruct (Z.even m); lia.
Qed.

Lemma binary_round_aux_signed s m e l :
  (0 < m)%Z -> (emin <= e)%Z ->
  signed_nonzero s (binary_round_aux prec emax s m e l).
Proof.
  intros Hm He. unfold binary_round_aux.
  destruct (shr_fexp_pos m e l Hm He) as [H1 H2].
  destruct (shr_fexp prec emax m e l) as [mrs' e']. simpl in H1, H2.
  pose proof (round_nearest_even_ge (shr_m mrs') (loc_of_shr_record mrs')) as Hr.
  destruct (shr_fexp_pos (round_nearest_even (shr_m mrs') (loc_of_shr_record mrs'))
              e' loc_Exact ltac:(lia) H2) as [H3 H4].
  destruct (shr_fexp prec emax _ e' loc_Exact) as [mrs'' e'']. simpl in H3, H4.
  destruct (shr_m mrs'') as [|p|p]; try lia.
  destruct (e'' <=? emax - prec)%Z; reflexivity.
Qed.

Lemma binary_round_signed s m e :
  (emin <= e)%Z -> signed_nonzero s (binary_round prec emax s m e).
Proof.
  intros He. unfold binary_round, shl_align.
  destruct (fexp (Zpos (digits2_pos m) + e) - e)%Z eqn:Hn;
    apply binary_round_aux_signed; try lia.
  apply fexp_ge_emin.
Qed.

Lemma iter_xO_pow (m d : positive) :
  Zpos (Pos.iter xO m d) = (Zpos m * 2 ^ Zpos d)%Z.
Proof.
  induction d as [|d IH] using Pos.peano_ind.
  - simpl. lia.
  - rewrite Pos.iter_succ, Pos2Z.inj_xO, IH, Pos2Z.inj_succ, Z.pow_succ_r by lia. lia.
Qed.

Lemma shl_align_value (m : positive) (e e' : Z) :
  (e' <= e)%Z -> Zpos (fst (shl_align m e e')) = (Zpos m * 2 ^ (e - e'))%Z.
Proof.
  intros Hle. unfold shl_align.
  destruct (e' - e)%Z as [|d|d] eqn:Hd; simpl fst; try lia.
  - replace (e - e')%Z with 0%Z by lia. lia.
  - rewrite iter_xO_pow. f_equal. f_equal. lia.
Qed.

Lemma bounded_emin m e : bounded prec emax m e = true -> (emin <= e)%Z.
Proof.
  unfold bounded, canonical_mantissa. intros H.
  apply andb_true_iff in H as [H _]. apply Z.eqb_eq in H.
  rewrite <- H. apply fexp_ge_emin.
Qed.

Lemma bounded_digits m e :
  bounded prec emax m e = true ->
  (Zpos (digits2_pos m) <= prec)%Z /\
  ((emin < e)%Z -> Zpos (digits2_pos m) = prec).
Proof.
  unfold bounded, canonical_mantissa. intros H.
  apply andb_true_iff in H as [H _]. apply Z.eqb_eq in H.
  unfold SpecFloat.fexp in H. lia.
Qed.

Lemma bounded_lt_of_exp mx ex my ey :
  bounded prec emax mx ex = true -> bounded prec emax my ey = true ->
  (ex < ey)%Z -> (Zpos mx < Zpos my * 2 ^ (ey - ex))%Z.
Proof.
  intros Hx Hy Hlt.
  pose proof (bounded_emin _ _ Hx) as Hex.
  destruct (bounded_digits _ _ Hx) as [Hdx _].
  destruct (bounded_digits _ _ Hy) as [_ Hdy]. specialize (Hdy ltac:(lia)).
  pose proof (digits2_pos_bounds mx) as [_ Hmx].
  pose proof (digits2_pos_bounds my) as [Hmy _]. rewrite Hdy in Hmy.
  assert (H1 : (2 ^ Zpos (digits2_pos mx) <= 2 ^ prec)%Z)
    by (apply Z.pow_le_mono_r; lia).
  assert (H2 : (2 ^ 1 <= 2 ^ (ey - ex))%Z) by (apply Z.pow_le_mono_r; lia).
  assert (H3 : (2 ^ prec = 2 ^ (prec - 1) * 2 ^ 1)%Z)
    by (rewrite <- Z.pow_add_r by lia; f_equal; lia).
  assert (H4 : (0 < 2 ^ (prec - 1))%Z) by (apply Z.pow_pos_nonneg; lia).
  nia.
Qed.

(** On canonical mantissas the exponent-then-mantissa comparison of
    [SFcompare] is the comparison of the two values brought to the common
    exponent [Z.min ex ey]. *)
Lemma finite_compare_aligned mx ex my ey :
  bounded prec emax mx ex = true -> bounded prec emax my ey = true ->
  match (ex ?= ey)%Z with
  | Lt => Lt | Gt => Gt | Eq => Pos.compare_cont Eq mx my
  end
  = (Zpos (fst (shl_align mx ex (Z.min ex ey)))
     ?= Zpos (fst (shl_align my ey (Z.min ex ey))))%Z.
Proof.
  intros Hx Hy. rewrite !shl_align_value by lia.
  destruct (Z.compare_spec ex ey) as [Heq|Hlt|Hgt].
  - subst ey. rewrite Z.min_id, Z.sub_diag, Z.pow_0_r, !Z.mul_1_r. reflexivity.
  - rewrite Z.min_l, Z.sub_diag, Z.pow_0_r, Z.mul_1_r by lia.
    symmetry. apply Z.compare_lt_iff. now apply bounded_lt_of_exp.
  - rewrite Z.min_r, Z.sub_diag, Z.pow_0_r, Z.mul_1_r by lia.
    symmetry. apply Z.compare_gt_iff. now apply bounded_lt_of_exp.
Qed.

Lemma signed_nonzero_compare s r :
  signed_nonzero s r ->
  SFcompare r (S754_zero false) = Some (if s then Lt else Gt).
Proof. destruct r as [?|?| |? ? ?]; simpl; intros H; try contradiction; now subst. Qed.

Lemma binary_normalize_compare m e :
  (emin <= e)%Z ->
  SFcompare (binary_normalize prec emax m e false) (S754_zero false)
  = Some (m ?= 0)%Z.
Proof.
  intros He. destruct m as [|m|m]; simpl binary_normalize.
  - reflexivity.
  - now rewrite (signed_nonzero_compare false) by now apply binary_round_signed.
  - now rewrite (signed_nonzero_compare true) by now apply binary_round_signed.
Qed.

(** The sign of a difference decides the order of its operands; the only
    exception is the difference of two equal infinities, which is a NaN. *)
Lemma SFsub_compare_zero x y :
  SpecFloat.valid_binary prec emax x = true ->
  SpecFloat.valid_binary prec emax y = true ->
  SFcompare (SFsub prec emax x y) (S754_zero false) = SFcompare x y \/
  (SFcompare (SFsub prec emax x y) (S754_zero false) = None /\
   SFcompare x y = Some Eq).
Proof.
  intros Vx Vy.
  destruct x as [sx|sx| |sx mx ex], y as [sy|sy| |sy my ey];
    try (try destruct sx; try destruct sy; simpl; auto; fail).
  simpl in Vx, Vy. left. unfold SFsub.
  rewrite binary_normalize_compare
    by (pose proof (bounded_emin _ _ Vx); pose proof (bounded_emin _ _ Vy); lia).
  unfold SFcompare. f_equal. rewrite <- Z.compare_sub.
  pose proof (finite_compare_aligned mx ex my ey Vx Vy) as Hc.
  pose proof (finite_compare_aligned my ey mx ex Vy Vx) as Hc'.
  rewrite (Z.min_comm ey ex) in Hc'.
  destruct sx, sy; unfold cond_Zopp.
  - rewrite Z.compare_opp. rewrite <- Hc'. rewrite (Z.compare_antisym ey ex).
    destruct (ey ?= ex)%Z; simpl; try reflexivity.
    change (Pos.compare_cont Eq) with Pos.compare.
    now rewrite (Pos.compare_antisym mx my).
  - apply Z.compare_lt_iff. lia.
  - apply Z.compare_gt_iff. lia.
  - symmetry. exact Hc.
Qed.
End Rounding.

(** ** Monotonicity of rounding, multiplication and addition *)

Section Monotone.
Local Open Scope Z_scope.
Variables prec emax : Z.
Hypothesis Hprec : 0 < prec.
Local Abbreviation emin := (SpecFloat.emin prec emax).
Local Abbreviation fexp := (SpecFloat.fexp prec emax).

Lemma iter_pos_nat {A : Type} (f : A -> A) (p : positive) : forall x,
  iter_pos f p x = Nat.iter (Pos.to_nat p) f x.
Proof.
  induction p as [p IH|p IH|]; intros x; cbn [iter_pos].
  - rewrite !IH, Pos2Nat.inj_xI.
    replace (S (2 * Pos.to_nat p))%nat
      with (Pos.to_nat p + (Pos.to_nat p + 1))%nat by lia.
    rewrite !Nat.iter_add. reflexivity.
  - rewrite !IH, Pos2Nat.inj_xO.
    replace (2 * Pos.to_nat p)%nat with (Pos.to_nat p + Pos.to_nat p)%nat by lia.
    rewrite Nat.iter_add. reflexivity.
  - reflexivity.
Qed.

Lemma shr_1_fields mrs :
  0 <= shr_m mrs ->
  shr_m (shr_1 mrs) = shr_m mrs / 2 /\
  shr_r (shr_1 mrs) = Z.odd (shr_m mrs) /\
  shr_s (shr_1 mrs) = shr_r mrs || shr_s mrs.
Proof.
  destruct mrs as [m r s]. simpl. intros Hm.
  destruct m as [|p|p]; [| |lia].
  - repeat split.
  - destruct p as [p|p|]; simpl; repeat split.
    + rewrite Pos2Z.inj_xI.
      apply (Z.div_unique _ 2 _ 1); lia.
    + rewrite Pos2Z.inj_xO.
      apply (Z.div_unique _ 2 _ 0); lia.
Qed.

Lemma mod_pow2_succ (m : Z) (k : Z) :
  0 <= k ->
  m mod 2 ^ (k + 1) = m mod 2 ^ k + 2 ^ k * (if Z.odd (m / 2 ^ k) then 1 else 0).
Proof.
  intros Hk. rewrite Z.pow_add_r, Z.pow_1_r by lia.
  rewrite Z.rem_mul_r by (try apply Z.pow_nonzero; lia).
  f_equal. f_equal. rewrite Zmod_odd. reflexivity.
Qed.

Lemma shr_1_shifted (m : Z) (k : nat) mrs :
  0 <= m -> shifted m k mrs -> shifted m (S k) (shr_1 mrs).
Proof.
  intros Hm [Hq Hrs].
  assert (Hpos : 0 <= shr_m mrs).
  { rewrite Hq. apply Z.div_pos; [lia|]. apply Z.pow_pos_nonneg; lia. }
  destruct (shr_1_fields mrs Hpos) as (H1 & H2 & H3).
  split; [|split].
  - rewrite H1, Hq, Z.div_div by (try apply Z.pow_pos_nonneg; lia).
    rewrite Nat2Z.inj_succ, Z.pow_succ_r by lia.
    f_equal. lia.
  - rewrite H2, Hq. reflexivity.
  - rewrite H3. destruct k as [|k'].
    + destruct Hrs as [-> ->]. simpl. rewrite Z.mod_1_r. reflexivity.
    + destruct Hrs as [-> ->].
      rewrite (Nat2Z.inj_succ k'), <- Z.add_1_r.
      rewrite mod_pow2_succ by lia.
      assert (Hp : 0 < 2 ^ Z.of_nat k') by (apply Z.pow_pos_nonneg; lia).
      pose proof (Z.mod_pos_bound m (2 ^ Z.of_nat k') Hp) as Hb.
      destruct (Z.odd (m / 2 ^ Z.of_nat k')); simpl.
      * symmetry. apply negb_true_iff, Z.eqb_neq. lia.
      * rewrite Z.mul_0_r, Z.add_0_r. reflexivity.
Qed.

Lemma iter_shr_1_shifted (m : Z) (k : nat) :
  0 <= m ->
  shifted m k (Nat.iter k shr_1 {| shr_m := m; shr_r := false; shr_s := false |}).
Proof.
  intros Hm. induction k as [|k IH].
  - simpl. split; [|split; reflexivity]. simpl. now rewrite Z.div_1_r.
  - simpl. now apply shr_1_shifted.
Qed.

Lemma rne_0 m : rne m 0 = m.
Proof.
  unfold rne. simpl. rewrite Z.mod_1_r, Z.div_1_r. reflexivity.
Qed.

Lemma shifted_rne (m : Z) (k : nat) mrs :
  0 <= m -> shifted m k mrs ->
  round_nearest_even (shr_m mrs) (loc_of_shr_record mrs) = rne m (Z.of_nat k).
Proof.
  intros Hm [Hq Hrs]. destruct k as [|k].
  - destruct mrs as [M r s]. simpl in *. destruct Hrs as [-> ->].
    simpl. rewrite Hq. change (2 ^ 0) with 1. rewrite Z.div_1_r.
    symmetry. apply rne_0.
  - destruct mrs as [M r s]. simpl shr_m in *. simpl shr_r in *.
    simpl shr_s in *. destruct Hrs as [Hr Hs].
    unfold rne. cbv zeta. rewrite <- Hq.
    rewrite (Nat2Z.inj_succ k), <- Z.add_1_r.
    rewrite mod_pow2_succ by lia.
    rewrite Z.pow_add_r, Z.pow_1_r by lia.
    assert (Hp : 0 < 2 ^ Z.of_nat k) by (apply Z.pow_pos_nonneg; lia).
    pose proof (Z.mod_pos_bound m (2 ^ Z.of_nat k) Hp) as Hb.
    rewrite <- Hr. subst s.
    set (t := m mod 2 ^ Z.of_nat k) in *.
    set (P := 2 ^ Z.of_nat k) in *.
    destruct r; destruct (t =? 0) eqn:E;
      [apply Z.eqb_eq in E|apply Z.eqb_neq in E
      |apply Z.eqb_eq in E|apply Z.eqb_neq in E];
      cbn [negb loc_of_shr_record round_nearest_even].
    + replace (2 * (t + P * 1) ?= P * 2) with Eq
        by (symmetry; apply Z.compare_eq_iff; lia).
      reflexivity.
    + replace (2 * (t + P * 1) ?= P * 2) with Gt
        by (symmetry; apply Z.compare_gt_iff; lia).
      reflexivity.
    + replace (2 * (t + P * 0) ?= P * 2) with Lt
        by (symmetry; apply Z.compare_lt_iff; lia).
      reflexivity.
    + replace (2 * (t + P * 0) ?= P * 2) with Lt
        by (symmetry; apply Z.compare_lt_iff; lia).
      reflexivity.
Qed.

Lemma rne_bounds (m n : Z) :
  0 <= n -> m / 2 ^ n <= rne m n <= m / 2 ^ n + 1.
Proof.
  intros Hn. unfold rne. cbv zeta.
  destruct (2 * (m mod 2 ^ n) ?= 2 ^ n); [destruct (Z.even _)| |]; lia.
Qed.

Lemma rne_mono (m1 m2 n : Z) :
  0 <= n -> m1 <= m2 -> rne m1 n <= rne m2 n.
Proof.
  intros Hn Hm.
  assert (Hp : 0 < 2 ^ n) by (apply Z.pow_pos_nonneg; lia).
  pose proof (Z.div_le_mono m1 m2 (2 ^ n) Hp Hm) as Hq.
  destruct (Z.eq_dec (m1 / 2 ^ n) (m2 / 2 ^ n)) as [E|E].
  - pose proof (Z.div_mod m1 (2 ^ n) ltac:(lia)) as D1.
    pose proof (Z.div_mod m2 (2 ^ n) ltac:(lia)) as D2.
    unfold rne. cbv zeta. rewrite <- E in *.
    set (q := m1 / 2 ^ n) in *.
    assert (Ht : m1 mod 2 ^ n <= m2 mod 2 ^ n) by lia.
    clear D1 D2 Hq Hm E.
    set (t1 := m1 mod 2 ^ n) in *. set (t2 := m2 mod 2 ^ n) in *.
    set (P := 2 ^ n) in *.
    destruct (Z.compare_spec (2 * t1) P) as [C1|C1|C1];
      destruct (Z.compare_spec (2 * t2) P) as [C2|C2|C2];
      destruct (Z.even q); lia.
  - pose proof (rne_bounds m1 n Hn). pose proof (rne_bounds m2 n Hn). lia.
Qed.

Lemma rne_scale (m n k : Z) :
  0 <= n -> 0 <= k -> rne (m * 2 ^ k) (n + k) = rne m n.
Proof.
  intros Hn Hk. unfold rne. cbv zeta.
  assert (Hp : 0 < 2 ^ n) by (apply Z.pow_pos_nonneg; lia).
  assert (Hpk : 0 < 2 ^ k) by (apply Z.pow_pos_nonneg; lia).
  rewrite Z.pow_add_r by lia.
  rewrite Z.div_mul_cancel_r by lia.
  rewrite Z.mul_mod_distr_r by lia.
  rewrite Z.mul_assoc.
  rewrite <- (Zmult_compare_compat_r (2 * (m mod 2 ^ n)) (2 ^ n) (2 ^ k))
    by lia.
  reflexivity.
Qed.

Lemma rne_lt_pow (m n j : Z) :
  0 <= n -> 0 <= j -> m < 2 ^ (n + j) -> rne m n <= 2 ^ j.
Proof.
  intros Hn Hj Hm.
  assert (Hp : 0 < 2 ^ n) by (apply Z.pow_pos_nonneg; lia).
  assert (m / 2 ^ n < 2 ^ j).
  { apply Z.div_lt_upper_bound; [lia|]. now rewrite <- Z.pow_add_r by lia. }
  pose proof (rne_bounds m n Hn). lia.
Qed.

Lemma rne_ge_pow (m n j : Z) :
  0 <= n -> 0 <= j -> 2 ^ (n + j) <= m -> 2 ^ j <= rne m n.
Proof.
  intros Hn Hj Hm.
  assert (Hp : 0 < 2 ^ n) by (apply Z.pow_pos_nonneg; lia).
  assert (2 ^ j <= m / 2 ^ n).
  { apply Z.div_le_lower_bound; [lia|]. now rewrite <- Z.pow_add_r by lia. }
  pose proof (rne_bounds m n Hn). lia.
Qed.

Lemma Zdigits2_bounds (V : Z) :
  0 < V -> 0 < Zdigits2 V /\ 2 ^ (Zdigits2 V - 1) <= V < 2 ^ Zdigits2 V.
Proof.
  destruct V as [|p|p]; try lia. intros _. simpl.
  split; [lia|apply digits2_pos_bounds].
Qed.

Lemma Zdigits2_unique (V d : Z) :
  0 < V -> 2 ^ (d - 1) <= V < 2 ^ d -> Zdigits2 V = d.
Proof.
  intros HV [Hl Hu].
  destruct (Zdigits2_bounds V HV) as (HD & Hl' & Hu').
  assert (Hd : 0 < d).
  { destruct (Z_lt_le_dec 0 d) as [|Hd]; [assumption|exfalso].
    destruct (Z.eq_dec d 0) as [->|]; [simpl in Hu; lia|].
    rewrite Z.pow_neg_r in Hu by lia. lia. }
  assert (Zdigits2 V - 1 < d)
    by (apply (Z.pow_lt_mono_r_iff 2); lia).
  assert (d - 1 < Zdigits2 V)
    by (apply (Z.pow_lt_mono_r_iff 2); lia).
  lia.
Qed.

Lemma Zdigits2_mono (V1 V2 : Z) :
  0 < V1 -> V1 <= V2 -> Zdigits2 V1 <= Zdigits2 V2.
Proof.
  intros H1 H12.
  destruct (Zdigits2_bounds V1 H1) as (D1 & L1 & U1).
  destruct (Zdigits2_bounds V2 ltac:(lia)) as (D2 & L2 & U2).
  assert (Zdigits2 V1 - 1 < Zdigits2 V2)
    by (apply (Z.pow_lt_mono_r_iff 2); lia).
  lia.
Qed.

Lemma Zdigits2_scale (V j : Z) :
  0 < V -> 0 <= j -> Zdigits2 (V * 2 ^ j) = Zdigits2 V + j.
Proof.
  intros HV Hj.
  destruct (Zdigits2_bounds V HV) as (D & L & U).
  assert (Hp : 0 < 2 ^ j) by (apply Z.pow_pos_nonneg; lia).
  apply Zdigits2_unique; [nia|].
  replace (Zdigits2 V + j - 1) with (Zdigits2 V - 1 + j) by lia.
  rewrite !Z.pow_add_r by lia. nia.
Qed.

(** *** Rounding is monotone *)

Lemma shr_fexp_exact (m e : Z) :
  0 <= m -> e <= fexp (Zdigits2 m + e) ->
  exists mrs,
    shr_fexp prec emax m e loc_Exact = (mrs, fexp (Zdigits2 m + e)) /\
    round_nearest_even (shr_m mrs) (loc_of_shr_record mrs)
    = rne m (fexp (Zdigits2 m + e) - e).
Proof.
  intros Hm He. unfold shr_fexp, shr. cbn [shr_record_of_loc].
  destruct (fexp (Zdigits2 m + e) - e) as [|p|p] eqn:Hn; [| |lia].
  - eexists. split; [f_equal; lia|]. cbn. now rewrite rne_0.
  - eexists. split; [f_equal; lia|].
    rewrite iter_pos_nat, <- (positive_nat_Z p).
    apply shifted_rne; [assumption|]. now apply iter_shr_1_shifted.
Qed.

Lemma pow2_pos (j : Z) : 0 <= j -> 0 < 2 ^ j.
Proof. intros. apply Z.pow_pos_nonneg; lia. Qed.

Lemma binary_round_aux_finish (s : bool) (R E : Z) (m e : Z) (mrs : shr_record) :
  shr_fexp prec emax m e loc_Exact = (mrs, E) ->
  round_nearest_even (shr_m mrs) (loc_of_shr_record mrs) = R ->
  (R = 0 /\ emin <= E) \/
  (0 < R < 2 ^ prec /\ fexp (Zdigits2 R + E) = E) \/
  (R = 2 ^ prec /\ emin <= E + 1) ->
  binary_round_aux prec emax s m e loc_Exact = canon_result prec emax s R E.
Proof.
  intros H1 H2 HR. unfold binary_round_aux. rewrite H1, H2.
  unfold canon_result.
  destruct HR as [[-> HE]|[[[HR0 HR1] HE]|[-> HE]]].
  - unfold shr_fexp, shr. cbn [Zdigits2 shr_record_of_loc].
    assert (Hn : fexp (0 + E) - E <= 0) by (unfold SpecFloat.fexp; lia).
    destruct (fexp (0 + E) - E) as [|p|p]; [| lia |]; reflexivity.
  - unfold shr_fexp, shr. rewrite HE, Z.sub_diag.
    cbn [shr_record_of_loc shr_m].
    destruct R as [|r|r]; try lia.
    replace (Z.pos r =? 0) with false by (symmetry; apply Z.eqb_neq; lia).
    replace (Z.pos r =? 2 ^ prec) with false
      by (symmetry; apply Z.eqb_neq; lia).
    reflexivity.
  - pose proof (pow2_pos prec ltac:(lia)) as Hp.
    assert (Hd : Zdigits2 (2 ^ prec) = prec + 1).
    { apply Zdigits2_unique; [lia|].
      replace (prec + 1 - 1) with prec by lia.
      rewrite Z.pow_add_r, Z.pow_1_r by lia. lia. }
    unfold shr_fexp, shr. rewrite Hd.
    assert (Hn : fexp (prec + 1 + E) - E = 1)
      by (unfold SpecFloat.fexp; lia).
    rewrite Hn. cbn [shr_record_of_loc iter_pos].
    assert (Hh : shr_m (shr_1 {| shr_m := 2 ^ prec; shr_r := false;
                                 shr_s := false |}) = 2 ^ (prec - 1)).
    { destruct (shr_1_fields {| shr_m := 2 ^ prec; shr_r := false;
                                shr_s := false |}) as (H & _);
        [cbn; lia|].
      rewrite H. cbn [shr_m].
      replace prec with (prec - 1 + 1) at 1 by lia.
      rewrite Z.pow_add_r, Z.pow_1_r by lia.
      now rewrite Z.div_mul by lia. }
    rewrite Hh.
    pose proof (pow2_pos (prec - 1) ltac:(lia)) as Hp1.
    replace (2 ^ prec =? 0) with false by (symmetry; apply Z.eqb_neq; lia).
    rewrite Z.eqb_refl.
    destruct (2 ^ (prec - 1)) as [|r|r]; try lia.
    reflexivity.
Qed.

(** Rounding of a mantissa that is not wider than its exponent allows. *)
Lemma binary_round_aux_aligned (s : bool) (m e : Z) :
  0 < m -> e <= fexp (Zdigits2 m + e) ->
  binary_round_aux prec emax s m e loc_Exact
  = canon_result prec emax s (rne m (fexp (Zdigits2 m + e) - e))
                 (fexp (Zdigits2 m + e)).
Proof.
  intros Hm He.
  destruct (shr_fexp_exact m e ltac:(lia) He) as (mrs & H1 & H2).
  apply (binary_round_aux_finish s _ _ m e mrs H1 H2).
  destruct (Zdigits2_bounds m Hm) as (Hd & Hl & Hu).
  set (d := Zdigits2 m) in *. set (E := fexp (d + e)) in *.
  set (n := E - e). assert (Hn : 0 <= n) by (unfold n; lia).
  pose proof (fexp_ge_emin prec emax (d + e)) as HEmin. fold E in HEmin.
  destruct (Z_le_gt_dec emin (d + e - prec)) as [Hnormal|Hsub].
  - assert (HE : E = d + e - prec) by (unfold E, SpecFloat.fexp; lia).
    assert (Hdn : d = n + prec) by (unfold n; lia).
    assert (Hlo : 2 ^ (prec - 1) <= rne m n).
    { apply rne_ge_pow; try lia.
      replace (n + (prec - 1)) with (d - 1) by lia. exact Hl. }
    assert (Hhi : rne m n <= 2 ^ prec).
    { apply rne_lt_pow; try lia. rewrite <- Hdn. exact Hu. }
    pose proof (pow2_pos (prec - 1) ltac:(lia)) as Hp1.
    destruct (Z.eq_dec (rne m n) (2 ^ prec)) as [Heq|Hne].
    + right. right. split; [exact Heq|lia].
    + right. left. split; [lia|].
      assert (Hdr : Zdigits2 (rne m n) = prec)
        by (apply Zdigits2_unique; lia).
      rewrite Hdr. unfold SpecFloat.fexp. lia.
  - assert (HE : E = emin) by (unfold E, SpecFloat.fexp; lia).
    assert (Hhi : rne m n <= 2 ^ (prec - 1)).
    { apply rne_lt_pow; try lia.
      apply Z.lt_le_trans with (2 ^ d); [exact Hu|].
      apply Z.pow_le_mono_r; unfold n; lia. }
    assert (Hlo : 0 <= rne m n).
    { pose proof (rne_bounds m n Hn) as [Hq _].
      pose proof (Z.div_pos m (2 ^ n) ltac:(lia) (pow2_pos n Hn)). lia. }
    assert (Hpp : 2 ^ (prec - 1) < 2 ^ prec)
      by (apply Z.pow_lt_mono_r; lia).
    destruct (Z.eq_dec (rne m n) 0) as [Heq|Hne].
    + left. split; [exact Heq|lia].
    + right. left. split; [lia|].
      destruct (Zdigits2_bounds (rne m n) ltac:(lia)) as (Hdr & Hlr & Hur).
      assert (Zdigits2 (rne m n) - 1 < prec)
        by (apply (Z.pow_lt_mono_r_iff 2); lia).
      unfold SpecFloat.fexp. lia.
Qed.

Lemma canon_result_le (R1 E1 R2 E2 : Z) :
  0 <= R1 <= 2 ^ prec -> 0 <= R2 <= 2 ^ prec ->
  (E1 = E2 /\ R1 <= R2) \/ (E1 < E2 /\ 2 ^ (prec - 1) <= R2) ->
  SFleb (canon_result prec emax false R1 E1)
        (canon_result prec emax false R2 E2) = true.
Proof.
  intros H1 H2 H.
  pose proof (pow2_pos (prec - 1) ltac:(lia)) as Hp1.
  assert (Hpp : 2 ^ (prec - 1) < 2 ^ prec) by (apply Z.pow_lt_mono_r; lia).
  unfold canon_result, SFleb.
  repeat match goal with
         | |- context [Z.eqb ?a ?b] => destruct (Z.eqb_spec a b)
         | |- context [Z.leb ?a ?b] => destruct (Z.leb_spec a b)
         end; cbn [SFcompare]; try reflexivity; try lia;
    match goal with
    | |- context [Z.compare ?a ?b] =>
        destruct (Z.compare_spec a b); try reflexivity; try lia
    end;
    change (Pos.compare_cont Eq) with Pos.compare;
    rewrite <- Z2Pos.inj_compare by lia;
    match goal with
    | |- context [Z.compare ?a ?b] =>
        destruct (Z.compare_spec a b); try reflexivity; try lia
    end.
Qed.

(** Rounding is monotone. *)
Lemma round_value_mono (k V1 V2 : Z) :
  k <= emin -> 0 < V1 -> V1 <= V2 ->
  SFleb (round_value prec emax k V1) (round_value prec emax k V2) = true.
Proof.
  intros Hk HV1 HV.
  assert (HV2 : 0 < V2) by lia.
  unfold round_value. cbv zeta.
  destruct (Zdigits2_bounds V1 HV1) as (Hd1 & Hl1 & Hu1).
  destruct (Zdigits2_bounds V2 HV2) as (Hd2 & Hl2 & Hu2).
  pose proof (Zdigits2_mono V1 V2 HV1 HV) as Hd.
  set (d1 := Zdigits2 V1) in *. set (d2 := Zdigits2 V2) in *.
  pose proof (fexp_ge_emin prec emax (d1 + k)) as HE1.
  pose proof (fexp_ge_emin prec emax (d2 + k)) as HE2.
  set (E1 := fexp (d1 + k)) in *. set (E2 := fexp (d2 + k)) in *.
  assert (HEd1 : d1 + k - prec <= E1) by (unfold E1, SpecFloat.fexp; lia).
  assert (HEd2 : d2 + k - prec <= E2) by (unfold E2, SpecFloat.fexp; lia).
  assert (HE : E1 <= E2) by (unfold E1, E2, SpecFloat.fexp; lia).
  assert (Hb : forall V d E, 0 < V -> V < 2 ^ d -> d + k - prec <= E ->
                 k <= E -> 0 <= rne V (E - k) <= 2 ^ prec).
  { intros V d E HVp Hu HEd HkE. split.
    - pose proof (rne_bounds V (E - k) ltac:(lia)) as [Hq _].
      pose proof (Z.div_pos V (2 ^ (E - k)) ltac:(lia)
                    (pow2_pos (E - k) ltac:(lia))). lia.
    - apply rne_lt_pow; try lia.
      apply Z.lt_le_trans with (2 ^ d); [exact Hu|].
      apply Z.pow_le_mono_r; lia. }
  apply canon_result_le.
  - apply (Hb V1 d1 E1); lia.
  - apply (Hb V2 d2 E2); lia.
  - destruct (Z.eq_dec E1 E2) as [Heq|Hne].
    + left. split; [exact Heq|]. rewrite Heq. apply rne_mono; lia.
    + right. split; [lia|].
      assert (HE2n : E2 = d2 + k - prec)
        by (unfold E2, SpecFloat.fexp in *; lia).
      apply rne_ge_pow; try lia.
      replace (E2 - k + (prec - 1)) with (d2 - 1) by lia. exact Hl2.
Qed.

Hypothesis Hemin : emin <= 0.

Lemma binary_round_aux_value (m e k : Z) :
  0 < m -> e <= fexp (Zdigits2 m + e) -> k <= e -> k <= emin ->
  binary_round_aux prec emax false m e loc_Exact
  = round_value prec emax k (m * 2 ^ (e - k)).
Proof.
  intros Hm He Hke Hk. rewrite binary_round_aux_aligned by assumption.
  unfold round_value. cbv zeta.
  rewrite Zdigits2_scale by lia.
  replace (Zdigits2 m + (e - k) + k) with (Zdigits2 m + e) by lia.
  set (E := fexp (Zdigits2 m + e)) in *.
  replace (E - k) with ((E - e) + (e - k)) by lia.
  rewrite rne_scale by lia. reflexivity.
Qed.

Lemma binary_round_value (m : positive) (e k : Z) :
  k <= e -> k <= emin ->
  binary_round prec emax false m e
  = round_value prec emax k (Zpos m * 2 ^ (e - k)).
Proof.
  intros Hke Hk. unfold binary_round.
  pose proof (fexp_ge_emin prec emax (Zpos (digits2_pos m) + e)) as HE.
  set (E := fexp (Zpos (digits2_pos m) + e)) in *.
  destruct (Z_le_gt_dec e E) as [Hle|Hgt].
  - assert (Hs : shl_align m e E = (m, e)).
    { unfold shl_align. destruct (E - e) eqn:Hd; try reflexivity; lia. }
    rewrite Hs. apply binary_round_aux_value; try lia. exact Hle.
  - pose proof (shl_align_value m e E ltac:(lia)) as Hv.
    assert (Hs : snd (shl_align m e E) = E).
    { unfold shl_align. destruct (E - e) eqn:Hd; try lia. reflexivity. }
    destruct (shl_align m e E) as [mz ez]. cbn [fst snd] in Hv, Hs. subst ez.
    assert (Hp : 0 < 2 ^ (e - E)) by (apply pow2_pos; lia).
    rewrite (binary_round_aux_value (Zpos mz) E k); try lia.
    + rewrite Hv. f_equal.
      rewrite <- Z.mul_assoc, <- Z.pow_add_r by lia. f_equal. f_equal. lia.
    + rewrite Hv, Zdigits2_scale by lia.
      replace (Zdigits2 (Z.pos m) + (e - E) + E)
        with (Zpos (digits2_pos m) + e) by (cbn [Zdigits2]; lia).
      fold E. lia.
Qed.

(** The value of a finite float, in units of [2 ^ emin]. *)
Lemma finite_leb_value mx ex my ey :
  bounded prec emax mx ex = true -> bounded prec emax my ey = true ->
  SFleb (S754_finite false mx ex) (S754_finite false my ey) = true ->
  Zpos mx * 2 ^ (ex - emin) <= Zpos my * 2 ^ (ey - emin).
Proof.
  intros Hx Hy. unfold SFleb, SFcompare.
  rewrite (finite_compare_aligned prec emax Hprec mx ex my ey Hx Hy).
  rewrite !shl_align_value by lia.
  pose proof (bounded_emin _ _ _ _ Hx) as Hex.
  pose proof (bounded_emin _ _ _ _ Hy) as Hey.
  set (k := Z.min ex ey).
  assert (Hpk : 0 < 2 ^ (k - emin)) by (apply pow2_pos; lia).
  replace (ex - emin) with ((ex - k) + (k - emin)) by lia.
  replace (ey - emin) with ((ey - k) + (k - emin)) by lia.
  rewrite !Z.pow_add_r by lia.
  destruct (Z.compare_spec (Z.pos mx * 2 ^ (ex - k))
                           (Z.pos my * 2 ^ (ey - k)));
    intros; try discriminate; nia.
Qed.

Lemma SFmul_finite_value mx ex my ey :
  bounded prec emax mx ex = true -> bounded prec emax my ey = true ->
  SFmul prec emax (S754_finite false mx ex) (S754_finite false my ey)
  = round_value prec emax (2 * emin)
      ((Zpos mx * 2 ^ (ex - emin)) * (Zpos my * 2 ^ (ey - emin))).
Proof.
  intros Hx Hy. unfold SFmul. cbn [xorb].
  pose proof (bounded_emin _ _ _ _ Hx) as Hex.
  pose proof (bounded_emin _ _ _ _ Hy) as Hey.
  rewrite (binary_round_aux_value _ _ (2 * emin)); try lia.
  - f_equal. rewrite Pos2Z.inj_mul.
    replace (ex + ey - 2 * emin) with ((ex - emin) + (ey - emin)) by lia.
    rewrite Z.pow_add_r by lia. ring.
  - unfold bounded, canonical_mantissa in Hx, Hy.
    apply andb_true_iff in Hx as [Hx _]. apply Z.eqb_eq in Hx.
    apply andb_true_iff in Hy as [Hy _]. apply Z.eqb_eq in Hy.
    pose proof (digits2_pos_bounds mx) as [Lx Ux].
    pose proof (digits2_pos_bounds my) as [Ly Uy].
    set (dx := Zpos (digits2_pos mx)) in *.
    set (dy := Zpos (digits2_pos my)) in *.
    assert (HD : dx + dy - 1 <= Zdigits2 (Zpos (mx * my))).
    { destruct (Zdigits2_bounds (Zpos (mx * my)) ltac:(lia)) as (_ & _ & U).
      assert (Hlow : 2 ^ (dx - 1 + (dy - 1)) <= Zpos (mx * my)).
      { rewrite Z.pow_add_r, Pos2Z.inj_mul by (unfold dx, dy; lia).
        pose proof (pow2_pos (dx - 1) ltac:(unfold dx; lia)).
        pose proof (pow2_pos (dy - 1) ltac:(unfold dy; lia)). nia. }
      assert (dx - 1 + (dy - 1) < Zdigits2 (Zpos (mx * my))).
      { apply (Z.pow_lt_mono_r_iff 2); [lia| |lia]. cbn [Zdigits2]. lia. }
      lia. }
    unfold SpecFloat.fexp in *. unfold dx, dy in *. lia.
Qed.

Lemma SFadd_finite_value mx ex my ey :
  bounded prec emax mx ex = true -> bounded prec emax my ey = true ->
  SFadd prec emax (S754_finite false mx ex) (S754_finite false my ey)
  = round_value prec emax emin
      (Zpos mx * 2 ^ (ex - emin) + Zpos my * 2 ^ (ey - emin)).
Proof.
  intros Hx Hy. unfold SFadd. cbn [cond_Zopp].
  pose proof (bounded_emin _ _ _ _ Hx) as Hex.
  pose proof (bounded_emin _ _ _ _ Hy) as Hey.
  set (k := Z.min ex ey).
  rewrite <- Pos2Z.inj_add. cbn [binary_normalize].
  rewrite (binary_round_value _ _ emin) by lia.
  f_equal. rewrite Pos2Z.inj_add, !shl_align_value by lia.
  replace (ex - emin) with ((ex - k) + (k - emin)) by lia.
  replace (ey - emin) with ((ey - k) + (k - emin)) by lia.
  rewrite !Z.pow_add_r by lia. ring.
Qed.

Lemma round_value_le_infinity (k V : Z) :
  SFleb (round_value prec emax k V) (S754_infinity false) = true.
Proof.
  unfold round_value, canon_result. cbv zeta.
  repeat match goal with
         | |- context [if ?c then _ else _] => destruct c
         end; reflexivity.
Qed.

Lemma value_pos (m : positive) (e : Z) : emin <= e -> 0 < Zpos m * 2 ^ (e - emin).
Proof. intros. pose proof (pow2_pos (e - emin) ltac:(lia)). nia. Qed.

(** Multiplication and addition of positive floats are monotone. *)
Lemma SFmul_mono (a b c d : spec_float) :
  SpecFloat.valid_binary prec emax a = true ->
  SpecFloat.valid_binary prec emax b = true ->
  SpecFloat.valid_binary prec emax c = true ->
  SpecFloat.valid_binary prec emax d = true ->
  signed_nonzero false a -> signed_nonzero false c ->
  SFleb a b = true -> SFleb c d = true ->
  SFleb (SFmul prec emax a c) (SFmul prec emax b d) = true.
Proof.
  intros Va Vb Vc Vd Ha Hc Hab Hcd.
  destruct a as [?|[]| |[] ma ea]; cbn in Ha; try contradiction;
    try discriminate;
    destruct c as [?|[]| |[] mc ec]; cbn in Hc; try contradiction;
    try discriminate;
    destruct b as [[]|[]| |[] mb eb]; try discriminate;
    destruct d as [[]|[]| |[] md ed]; try discriminate;
    try reflexivity;
    cbn [SpecFloat.valid_binary] in *.
  all: try (rewrite (SFmul_finite_value ma ea mc ec) by assumption;
            apply round_value_le_infinity).
  rewrite !SFmul_finite_value by assumption.
  pose proof (finite_leb_value _ _ _ _ Va Vb Hab).
  pose proof (finite_leb_value _ _ _ _ Vc Vd Hcd).
  pose proof (value_pos ma ea (bounded_emin _ _ _ _ Va)).
  pose proof (value_pos mc ec (bounded_emin _ _ _ _ Vc)).
  apply round_value_mono; [lia|nia|nia].
Qed.

Lemma SFadd_mono (a b c d : spec_float) :
  SpecFloat.valid_binary prec emax a = true ->
  SpecFloat.valid_binary prec emax b = true ->
  SpecFloat.valid_binary prec emax c = true ->
  SpecFloat.valid_binary prec emax d = true ->
  signed_nonzero false a -> signed_nonzero false c ->
  SFleb a b = true -> SFleb c d = true ->
  SFleb (SFadd prec emax a c) (SFadd prec emax b d) = true.
Proof.
  intros Va Vb Vc Vd Ha Hc Hab Hcd.
  destruct a as [?|[]| |[] ma ea]; cbn in Ha; try contradiction;
    try discriminate;
    destruct c as [?|[]| |[] mc ec]; cbn in Hc; try contradiction;
    try discriminate;
    destruct b as [[]|[]| |[] mb eb]; try discriminate;
    destruct d as [[]|[]| |[] md ed]; try discriminate;
    try reflexivity;
    cbn [SpecFloat.valid_binary] in *.
  all: try (rewrite (SFadd_finite_value ma ea mc ec) by assumption;
            apply round_value_le_infinity).
  rewrite !SFadd_finite_value by assumption.
  pose proof (finite_leb_value _ _ _ _ Va Vb Hab).
  pose proof (finite_leb_value _ _ _ _ Vc Vd Hcd).
  pose proof (value_pos ma ea (bounded_emin _ _ _ _ Va)).
  pose proof (value_pos mc ec (bounded_emin _ _ _ _ Vc)).
  apply round_value_mono; lia.
Qed.
End Monotone.

(** ** Primitive floats *)

Lemma SFcompare_refl x : x <> S754_nan -> SFcompare x x = Some Eq.
Proof.
  destruct x as [[]|[]| |[] m e]; simpl; intros H; try reflexivity; try congruence.
  - now rewrite Z.compare_refl, Pos.compare_cont_refl.
  - now rewrite Z.compare_refl, Pos.compare_cont_refl.
Qed.

Lemma SFcompare_nan_r x : SFcompare x S754_nan = None.
Proof. now destruct x. Qed.

Lemma SFcompare_some x y :
  x <> S754_nan -> y <> S754_nan -> exists c, SFcompare x y = Some c.
Proof.
  destruct x, y; simpl; intros Hx Hy; try congruence; eauto.
Qed.

Lemma float_is_nan_spec x : is_nan x = false <-> Prim2SF x <> S754_nan.
Proof.
  unfold is_nan. rewrite FloatAxioms.eqb_spec. unfold SFeqb. split.
  - intros H E. rewrite E in H. discriminate.
  - intros H. now rewrite SFcompare_refl.
Qed.

Lemma float_compare_some x y :
  is_nan x = false -> is_nan y = false ->
  exists c, SFcompare (Prim2SF x) (Prim2SF y) = Some c.
Proof. intros Hx Hy. apply SFcompare_some; now apply float_is_nan_spec. Qed.

(** [x <= y] is the negation of [y < x] on numbers. *)
Lemma float_leb_negb_ltb x y :
  is_nan x = false -> is_nan y = false -> (x <=? y) = negb (y <? x).
Proof.
  intros Hx Hy. rewrite FloatAxioms.leb_spec, FloatAxioms.ltb_spec. unfold SFleb, SFltb.
  rewrite (SFcompare_antisym (Prim2SF x) (Prim2SF y)).
  destruct (float_compare_some x y Hx Hy) as [c ->]. now destruct c.
Qed.

Lemma float_ltb_not_nan_l x y : (x <? y) = true -> is_nan x = false.
Proof.
  rewrite FloatAxioms.ltb_spec. unfold SFltb. intros H. apply float_is_nan_spec. intros E.
  rewrite E in H. discriminate.
Qed.

Lemma float_ltb_asym x y : (x <? y) = true -> (y <? x) = false.
Proof.
  rewrite !FloatAxioms.ltb_spec. unfold SFltb.
  rewrite (SFcompare_antisym (Prim2SF x) (Prim2SF y)).
  now destruct (SFcompare (Prim2SF x) (Prim2SF y)) as [[]|].
Qed.

Lemma float_ltb_trans x y z : (x <? y) = true -> (y <? z) = true -> (x <? z) = true.
Proof.
  rewrite !FloatAxioms.ltb_spec. unfold SFltb. intros H1 H2.
  destruct (SFcompare (Prim2SF x) (Prim2SF y)) as [[]|] eqn:E1; try discriminate.
  destruct (SFcompare (Prim2SF y) (Prim2SF z)) as [[]|] eqn:E2; try discriminate.
  now rewrite (SFcompare_lt_trans _ _ _ E1 E2).
Qed.

(** Negative transitivity: a number [y] falls on one side of any strict
    inequality. *)
Lemma float_ltb_cotrans x y z :
  (x <? z) = true -> is_nan y = false -> (x <? y) = true \/ (y <? z) = true.
Proof.
  intros Hxz Hy. pose proof (float_ltb_not_nan_l _ _ Hxz) as Hx.
  revert Hxz. rewrite !FloatAxioms.ltb_spec. unfold SFltb. intros Hxz.
  destruct (SFcompare (Prim2SF x) (Prim2SF z)) as [[]|] eqn:Exz; try discriminate.
  destruct (float_compare_some x y Hx Hy) as [c Exy]. rewrite Exy.
  destruct c; auto; right.
  - rewrite <- (SFcompare_eq_cong _ _ _ Exy), Exz. reflexivity.
  - assert (Eyx : SFcompare (Prim2SF y) (Prim2SF x) = Some Lt)
      by (rewrite SFcompare_antisym, Exy; reflexivity).
    now rewrite (SFcompare_lt_trans _ _ _ Eyx Exz).
Qed.

Lemma float_eqb_ltb_false x y : (x =? y) = true -> (x <? y) = false /\ (y <? x) = false.
Proof.
  rewrite FloatAxioms.eqb_spec, !FloatAxioms.ltb_spec. unfold SFeqb, SFltb.
  rewrite (SFcompare_antisym (Prim2SF x) (Prim2SF y)).
  now destruct (SFcompare (Prim2SF x) (Prim2SF y)) as [[]|].
Qed.

Lemma float_eqb_trans x y z : (x =? y) = true -> (y =? z) = true -> (x =? z) = true.
Proof.
  rewrite !FloatAxioms.eqb_spec. unfold SFeqb. intros H1 H2.
  destruct (SFcompare (Prim2SF x) (Prim2SF y)) as [[]|] eqn:E1; try discriminate.
  now rewrite (SFcompare_eq_cong _ _ _ E1).
Qed.

Lemma float_eqb_sym x y : (x =? y) = (y =? x).
Proof.
  rewrite !FloatAxioms.eqb_spec. unfold SFeqb.
  rewrite (SFcompare_antisym (Prim2SF x) (Prim2SF y)).
  now destruct (SFcompare (Prim2SF x) (Prim2SF y)) as [[]|].
Qed.

Lemma prec_pos : (0 < prec)%Z.
Proof. reflexivity. Qed.

(** The comparator's [x - y < 0] is [x < y], and [x - y > 0] is [y < x]. *)
Lemma float_ltb_sub_zero x y : (x - y <? 0) = (x <? y).
Proof.
  rewrite !FloatAxioms.ltb_spec, FloatAxioms.sub_spec. change (Prim2SF 0) with (S754_zero false).
  unfold SFltb, SF64sub.
  destruct (SFsub_compare_zero prec emax prec_pos _ _ (Prim2SF_valid x) (Prim2SF_valid y))
    as [-> | [-> ->]]; reflexivity.
Qed.

Lemma float_gtb_sub_zero x y : (0 <? x - y) = (y <? x).
Proof.
  rewrite !FloatAxioms.ltb_spec, FloatAxioms.sub_spec. change (Prim2SF 0) with (S754_zero false).
  unfold SFltb, SF64sub.
  rewrite (SFcompare_antisym (SFsub prec emax (Prim2SF x) (Prim2SF y)) (S754_zero false)).
  rewrite (SFcompare_antisym (Prim2SF x) (Prim2SF y)).
  destruct (SFsub_compare_zero prec emax prec_pos _ _ (Prim2SF_valid x) (Prim2SF_valid y))
    as [-> | [-> ->]]; reflexivity.
Qed.

Lemma SFadd_comm pr em x y : SFadd pr em x y = SFadd pr em y x.
Proof.
  destruct x as [[]|[]| |sx mx ex], y as [[]|[]| |sy my ey]; try reflexivity.
  unfold SFadd. now rewrite (Z.min_comm ey ex), Z.add_comm.
Qed.

(** IEEE addition is commutative. *)
Lemma float_add_comm x y : x + y = y + x.
Proof. apply Prim2SF_inj. rewrite !FloatAxioms.add_spec. apply SFadd_comm. Qed.

Lemma SFsub_finite_not_nan x s m e :
  SpecFloat.valid_binary prec emax x = true ->
  bounded prec emax m e = true ->
  x <> S754_nan -> SFsub prec emax x (S754_finite s m e) <> S754_nan.
Proof.
  intros Vx Vy Hx.
  destruct x as [sx|sx| |sx mx ex]; try congruence; try discriminate.
  simpl in Vx. unfold SFsub. intros E.
  pose proof (binary_normalize_compare prec emax prec_pos
    (cond_Zopp sx (Zpos (fst (shl_align mx ex (Z.min ex e))))
     - cond_Zopp s (Zpos (fst (shl_align m e (Z.min ex e)))))%Z (Z.min ex e)) as H.
  rewrite E in H. simpl in H.
  pose proof (bounded_emin _ _ _ _ Vx). pose proof (bounded_emin _ _ _ _ Vy).
  discriminate H. lia.
Qed.

Lemma SFabs_not_nan x : x <> S754_nan -> SFabs x <> S754_nan.
Proof. destruct x; simpl; congruence. Qed.

(** The distance of a number from 1 is a number. *)
Lemma float_abs_sub_one_not_nan x : is_nan x = false -> is_nan (abs (x - 1)) = false.
Proof.
  intros Hx. apply float_is_nan_spec. rewrite abs_spec, FloatAxioms.sub_spec.
  apply SFabs_not_nan.
  change (Prim2SF 1) with (S754_finite false 4503599627370496 (-52)).
  apply SFsub_finite_not_nan.
  - apply Prim2SF_valid.
  - reflexivity.
  - now apply float_is_nan_spec.
Qed.

(** Multiplication and addition of positive numbers are monotone. *)
Lemma emin_nonpos : (SpecFloat.emin prec emax <= 0)%Z.
Proof. discriminate. Qed.

Lemma float_positive_signed x :
  (0 <? x) = true -> signed_nonzero false (Prim2SF x).
Proof.
  rewrite FloatAxioms.ltb_spec. change (Prim2SF 0) with (S754_zero false).
  unfold SFltb. destruct (Prim2SF x) as [?|[]| |[] m e]; cbn;
    try discriminate; reflexivity.
Qed.

Lemma float_mul_mono a b c d :
  (0 <? a) = true -> (a <=? b) = true ->
  (0 <? c) = true -> (c <=? d) = true ->
  (a * c <=? b * d) = true.
Proof.
  intros Ha Hab Hc Hcd.
  rewrite FloatAxioms.leb_spec in *. rewrite !FloatAxioms.mul_spec.
  apply (SFmul_mono prec emax prec_pos emin_nonpos);
    try apply Prim2SF_valid; try assumption;
    now apply float_positive_signed.
Qed.

Lemma float_add_mono a b c d :
  (0 <? a) = true -> (a <=? b) = true ->
  (0 <? c) = true -> (c <=? d) = true ->
  (a + c <=? b + d) = true.
Proof.
  intros Ha Hab Hc Hcd.
  rewrite FloatAxioms.leb_spec in *. rewrite !FloatAxioms.add_spec.
  apply (SFadd_mono prec emax prec_pos);
    try apply Prim2SF_valid; try assumption;
    now apply float_positive_signed.
Qed.

Lemma float_ltb_leb_trans x y z :
  (x <? y) = true -> (y <=? z) = true -> (x <? z) = true.
Proof.
  rewrite !FloatAxioms.ltb_spec, FloatAxioms.leb_spec. unfold SFltb, SFleb.
  destruct (SFcompare (Prim2SF x) (Prim2SF y)) as [[]|] eqn:Hxy;
    try discriminate.
  destruct (SFcompare (Prim2SF y) (Prim2SF z)) as [[]|] eqn:Hyz;
    try discriminate; intros _ _.
  - pose proof (SFcompare_eq_cong _ _ (Prim2SF x) Hyz) as H.
    rewrite (SFcompare_antisym (Prim2SF x) (Prim2SF y)), Hxy in H.
    rewrite (SFcompare_antisym (Prim2SF z) (Prim2SF x)), <- H. reflexivity.
  - now rewrite (SFcompare_lt_trans _ _ _ Hxy Hyz).
Qed.

Lemma float_leb_refl x : is_nan x = false -> (x <=? x) = true.
Proof.
  intros H. rewrite FloatAxioms.leb_spec. unfold SFleb.
  rewrite SFcompare_refl; [reflexivity|]. now apply float_is_nan_spec.
Qed.

Lemma float_positive_leb_refl x : (0 <? x) = true -> (x <=? x) = true.
Proof.
  intros H. apply float_leb_refl.
  rewrite FloatAxioms.ltb_spec in H. unfold SFltb in H.
  apply float_is_nan_spec. intros E. rewrite E, SFcompare_nan_r in H.
  discriminate.
Qed.

(** * The stable insertion under a consistent comparator *)

Section SortFacts.
Context {A : Type}.
Variable comparefn : A -> A -> float.

Lemma insert_perm (x : A) (l : list A) :
  Permutation (x :: l) (insert comparefn x l).
Proof.
  induction l as [|y l IH]; simpl.
  - reflexivity.
  - destruct (0 <? comparefn x y).
    + rewrite perm_swap. now constructor.
    + reflexivity.
Qed.

Lemma sort_perm (l : list A) : Permutation l (sort comparefn l).
Proof.
  induction l as [|x l IH]; simpl.
  - constructor.
  - rewrite <- insert_perm. now constructor.
Qed.

(** ** Order *)

(** The elements on which the comparator is consistent. *)
Variable ok : A -> Prop.

Hypothesis comparefn_flip :
  forall a b, (0 <? comparefn a b) = (comparefn b a <? 0).

Hypothesis comparefn_cotrans :
  forall a b c, ok b ->
    (comparefn a c <? 0) = true ->
    (comparefn a b <? 0) = true \/ (comparefn b c <? 0) = true.

(** [not_before y x]: the comparator does not put [x] before [y]. *)
Local Abbreviation not_before := (fun y x : A => (comparefn x y <? 0) = false).

Lemma insert_sorted (x : A) (l : list A) :
  Forall ok l ->
  StronglySorted not_before l ->
  StronglySorted not_before (insert comparefn x l).
Proof.
  intros Hok Hs. induction Hs as [|y l Hs IH Hy]; simpl.
  - repeat constructor.
  - inversion Hok as [|? ? Hoky Hokl]; subst.
    destruct (0 <? comparefn x y) eqn:Hxy.
    + constructor; [now apply IH|].
      apply (Permutation_Forall (insert_perm x l)).
      constructor; [|assumption]. now apply float_ltb_asym.
    + assert (Hyx : (comparefn y x <? 0) = false)
        by now rewrite <- comparefn_flip.
      constructor; [now constructor|].
      constructor; [assumption|].
      rewrite Forall_forall in Hy |- *. intros z Hz.
      destruct (comparefn z x <? 0) eqn:Hzx; [|reflexivity].
      destruct (comparefn_cotrans z y x Hoky Hzx) as [H|H].
      * rewrite (Hy z Hz) in H. discriminate.
      * rewrite Hyx in H. discriminate.
Qed.

Lemma sort_sorted (l : list A) :
  Forall ok l -> StronglySorted not_before (sort comparefn l).
Proof.
  induction l as [|x l IH]; simpl; intros Hok.
  - constructor.
  - inversion Hok; subst. apply insert_sorted.
    + apply (Permutation_Forall (sort_perm l)). assumption.
    + now apply IH.
Qed.

Lemma sorted_split (l1 l2 : list A) (y : A) :
  StronglySorted not_before (l1 ++ y :: l2) ->
  forall x, In x l2 -> (comparefn x y <? 0) = false.
Proof.
  induction l1 as [|z l1 IH]; simpl; intros Hs x Hx.
  - inversion Hs as [|? ? _ Hy]; subst.
    rewrite Forall_forall in Hy. now apply Hy.
  - inversion Hs; subst. now apply IH.
Qed.

(** ** Stability *)

Variable same : A -> A -> bool.

Hypothesis same_not_after :
  forall z x y, same z x = true -> same z y = true ->
    (0 <? comparefn x y) = false.

Lemma insert_filter (z x : A) (l : list A) :
  filter (same z) (insert comparefn x l) = filter (same z) (x :: l).
Proof.
  induction l as [|y l IH]; [reflexivity|].
  simpl insert. destruct (0 <? comparefn x y) eqn:Hxy; [|reflexivity].
  simpl in *. rewrite IH.
  destruct (same z x) eqn:Hx, (same z y) eqn:Hy; try reflexivity.
  rewrite (same_not_after z x y Hx Hy) in Hxy. discriminate.
Qed.

Lemma sort_filter (z : A) (l : list A) :
  filter (same z) (sort comparefn l) = filter (same z) l.
Proof.
  induction l as [|x l IH]; [reflexivity|].
  simpl sort. rewrite insert_filter. simpl. now rewrite IH.
Qed.

(** ** The result is the only stable ordering *)

Hypothesis same_tie :
  forall x y, ok x -> ok y ->
    (comparefn x y <? 0) = false -> (comparefn y x <? 0) = false ->
    same x y = true.

Lemma comparefn_irrefl (x : A) : (comparefn x x <? 0) = false.
Proof.
  destruct (comparefn x x <? 0) eqn:E; [|reflexivity].
  pose proof (float_ltb_asym _ _ E) as H. rewrite comparefn_flip in H. congruence.
Qed.

Lemma head_not_before (x y : A) (l : list A) :
  StronglySorted not_before (y :: l) -> In x (y :: l) ->
  (comparefn x y <? 0) = false.
Proof.
  intros Hs [<-|Hx]; [apply comparefn_irrefl|].
  inversion Hs as [|? ? _ Hy]; subst.
  rewrite Forall_forall in Hy. now apply Hy.
Qed.

(** Two orderings of the same elements that are both sorted and keep the
    tying elements in the same order are the same list. *)
Lemma sorted_stable_unique (l1 : list A) : forall l2 : list A,
  Forall ok l1 -> Permutation l1 l2 ->
  StronglySorted not_before l1 -> StronglySorted not_before l2 ->
  (forall k, filter (same k) l1 = filter (same k) l2) ->
  l1 = l2.
Proof.
  induction l1 as [|x l1 IH]; intros l2 Hok Hp Hs1 Hs2 Hf.
  - apply Permutation_nil in Hp. now subst.
  - destruct l2 as [|y l2];
      [symmetry in Hp; now apply Permutation_nil in Hp|].
    inversion Hok as [|? ? Hx Hok1]; subst.
    assert (Hy : ok y).
    { pose proof (Permutation_Forall Hp Hok) as H. now inversion H. }
    assert (Hxy : (comparefn x y <? 0) = false).
    { apply (head_not_before x y l2 Hs2).
      apply (Permutation_in _ Hp). now left. }
    assert (Hyx : (comparefn y x <? 0) = false).
    { apply (head_not_before y x l1 Hs1).
      apply (Permutation_in _ (Permutation_sym Hp)). now left. }
    pose proof (same_tie x x Hx Hx (comparefn_irrefl x) (comparefn_irrefl x))
      as Hxx.
    pose proof (same_tie x y Hx Hy Hxy Hyx) as Hsame.
    pose proof (Hf x) as Hfx. simpl in Hfx. rewrite Hxx, Hsame in Hfx.
    injection Hfx as <- _.
    f_equal. apply IH.
    + assumption.
    + now apply Permutation_cons_inv in Hp.
    + now inversion Hs1.
    + now inversion Hs2.
    + intros k. specialize (Hf k). simpl in Hf.
      destruct (same k x); [now injection Hf|assumption].
Qed.

(** Whatever ordering a stable sort returns for these elements, it is the
    one [sort] computes. *)
Lemma sort_unique (l l' : list A) :
  Forall ok l -> Permutation l l' ->
  StronglySorted not_before l' ->
  (forall k, filter (same k) l' = filter (same k) l) ->
  l' = sort comparefn l.
Proof.
  intros Hok Hp Hs Hf. apply sorted_stable_unique.
  - now apply (Permutation_Forall Hp).
  - rewrite <- Hp. apply sort_perm.
  - assumption.
  - now apply sort_sorted.
  - intros k. now rewrite Hf, sort_filter.
Qed.
End SortFacts.

(** * The host's algorithm under a consistent comparator *)

Section HostSortFacts.
Context {A : Type}.
Variable comparefn : A -> A -> float.
Variable ok : A -> Prop.

Hypothesis comparefn_flip :
  forall a b, (0 <? comparefn a b) = (comparefn b a <? 0).

Hypothesis comparefn_cotrans :
  forall a b c, ok b ->
    (comparefn a c <? 0) = true ->
    (comparefn a b <? 0) = true \/ (comparefn b c <? 0) = true.

Local Abbreviation not_before := (fun y x : A => (comparefn x y <? 0) = false).

Lemma before_asym (a b : A) :
  (comparefn a b <? 0) = true -> (comparefn b a <? 0) = false.
Proof.
  intros H. apply float_ltb_asym. now rewrite comparefn_flip.
Qed.

Lemma before_trans (a b c : A) :
  ok c -> (comparefn a b <? 0) = true -> (comparefn b c <? 0) = true ->
  (comparefn a c <? 0) = true.
Proof.
  intros Hc Hab Hbc.
  destruct (comparefn_cotrans a c b Hc Hab) as [H|H]; [assumption|].
  rewrite (before_asym b c Hbc) in H. discriminate.
Qed.

Lemma not_before_trans (a b c : A) :
  ok b -> not_before a b -> not_before b c -> not_before a c.
Proof.
  intros Hb Hab Hbc. cbv beta in *.
  destruct (comparefn c a <? 0) eqn:E; [|reflexivity].
  destruct (comparefn_cotrans c b a Hb E) as [H|H]; congruence.
Qed.

Lemma run_length_chain (descending : bool) (l : list A) : forall previous,
  chain (fun p x => (comparefn x p <? 0) = descending) previous
        (firstn (run_length comparefn descending previous l) l).
Proof.
  induction l as [|x l IH]; intros previous; simpl; [exact I|].
  destruct (Bool.eqb (comparefn x previous <? 0) descending) eqn:E;
    simpl; [|exact I].
  split; [now apply eqb_prop|apply IH].
Qed.

Lemma chain_ascending_sorted (l : list A) : forall previous,
  Forall ok l ->
  chain (fun p x => (comparefn x p <? 0) = false) previous l ->
  StronglySorted not_before (previous :: l).
Proof.
  induction l as [|x l IH]; intros previous Hok Hc.
  - repeat constructor.
  - destruct Hc as [Hpx Hc]. inversion Hok as [|? ? Hx Hl]; subst.
    specialize (IH x Hl Hc).
    constructor; [exact IH|].
    constructor; [exact Hpx|].
    apply StronglySorted_inv in IH as [_ IH].
    rewrite Forall_forall in IH |- *. intros z Hz.
    exact (not_before_trans previous x z Hx Hpx (IH z Hz)).
Qed.

(** In a strictly descending run every later element is before every
    earlier one. *)
Lemma chain_descending_before (l : list A) : forall previous,
  ok previous -> Forall ok l ->
  chain (fun p x => (comparefn x p <? 0) = true) previous l ->
  Forall (fun x => (comparefn x previous <? 0) = true) l /\
  ForallOrdPairs (fun y x => (comparefn x y <? 0) = true) l.
Proof.
  induction l as [|x l IH]; intros previous Hp Hok Hc.
  - split; constructor.
  - destruct Hc as [Hpx Hc]. inversion Hok as [|? ? Hx Hl]; subst.
    destruct (IH x Hx Hl Hc) as [Hall Hpairs].
    split.
    + constructor; [exact Hpx|].
      rewrite Forall_forall in Hall |- *. intros z Hz.
      exact (before_trans z x previous Hp (Hall z Hz) Hpx).
    + constructor; assumption.
Qed.

Lemma descending_rev_sorted (l : list A) :
  ForallOrdPairs (fun y x => (comparefn x y <? 0) = true) l ->
  StronglySorted not_before (rev l).
Proof.
  induction 1 as [|y l Hy _ IH]; simpl; [constructor|].
  (* rev l ++ [y]: every element of l is before y *)
  assert (Hall : Forall (fun x => not_before x y) (rev l)).
  { apply Forall_rev. rewrite Forall_forall in Hy |- *. intros x Hx.
    cbv beta. now apply before_asym, Hy. }
  clear Hy. revert IH Hall. generalize (rev l) as r. clear l.
  induction r as [|z r IHr]; simpl; intros IH Hall.
  - repeat constructor.
  - apply StronglySorted_inv in IH as [Hs Hz].
    inversion Hall as [|? ? Hzy Hr]; subst.
    constructor; [now apply IHr|].
    apply Forall_app. split; [assumption|]. now constructor.
Qed.

Variable same : A -> A -> bool.

Hypothesis same_not_after :
  forall z x y, same z x = true -> same z y = true ->
    (0 <? comparefn x y) = false.

Hypothesis same_tie :
  forall x y, ok x -> ok y ->
    (comparefn x y <? 0) = false -> (comparefn y x <? 0) = false ->
    same x y = true.

Lemma descending_rev_filter (z : A) (l : list A) :
  ForallOrdPairs (fun y x => (comparefn x y <? 0) = true) l ->
  filter (same z) (rev l) = filter (same z) l.
Proof.
  induction 1 as [|y l Hy _ IH]; simpl; [reflexivity|].
  rewrite filter_app, IH. simpl.
  destruct (same z y) eqn:Ey; [|now rewrite app_nil_r].
  assert (Hnone : filter (same z) l = []).
  { clear IH. induction l as [|x l IHl]; simpl; [reflexivity|].
    inversion Hy as [|? ? Hxy Hl]; subst.
    destruct (same z x) eqn:Ex; [|now apply IHl].
    pose proof (same_not_after z y x Ey Ex) as H.
    rewrite comparefn_flip, Hxy in H. discriminate. }
  rewrite Hnone. reflexivity.
Qed.

(** ** The binary search *)

Lemma sorted_prefix (l1 l2 : list A) (y : A) :
  StronglySorted not_before (l1 ++ y :: l2) ->
  Forall (fun x => not_before x y) l1.
Proof.
  induction l1 as [|z l1 IH]; simpl; intros Hs; [constructor|].
  apply StronglySorted_inv in Hs as [Hs Hz].
  constructor; [|now apply IH].
  rewrite Forall_forall in Hz. apply Hz. apply in_or_app. right. now left.
Qed.

Lemma sorted_suffix (l1 l2 : list A) (y : A) :
  StronglySorted not_before (l1 ++ y :: l2) ->
  Forall (fun x => not_before y x) l2.
Proof.
  induction l1 as [|z l1 IH]; simpl; intros Hs.
  - now apply StronglySorted_inv in Hs as [_ Hs].
  - apply StronglySorted_inv in Hs as [Hs _]. now apply IH.
Qed.

Lemma insertion_point_spec (pivot : A) (a : list A) :
  Forall ok a -> StronglySorted not_before a ->
  forall fuel left right,
    (left <= right)%nat -> (right <= List.length a)%nat ->
    (right - left <= fuel)%nat ->
    Forall (fun y => (comparefn pivot y <? 0) = false) (firstn left a) ->
    Forall (fun y => (comparefn pivot y <? 0) = true) (skipn right a) ->
    Forall (fun y => (comparefn pivot y <? 0) = false)
           (firstn (insertion_point comparefn fuel pivot a left right) a) /\
    Forall (fun y => (comparefn pivot y <? 0) = true)
           (skipn (insertion_point comparefn fuel pivot a left right) a).
Proof.
  intros Hok Hs. induction fuel as [|fuel IH]; intros left right Hlr Hr Hf HL HR.
  - simpl. replace left with right at 2 by lia. now split.
  - cbn [insertion_point]. destruct (Nat.ltb_spec left right) as [Hlt|Hge].
    + cbv zeta.
      assert (Hd : (Nat.div2 (right - left) < right - left)%nat)
        by (apply Nat.lt_div2; lia).
      set (half := Nat.div2 (right - left)) in *. clearbody half.
      set (mid := (left + half)%nat).
      assert (Hmid : (left <= mid < right)%nat) by (unfold mid; lia).
      destruct (nth_error a mid) as [y|] eqn:Hy.
      * destruct (nth_error_split a mid Hy) as (l1 & l2 & Ea & Hl1).
        assert (Hoky : ok y).
        { rewrite Forall_forall in Hok. apply Hok. rewrite Ea.
          apply in_or_app. right. now left. }
        assert (Hokl : forall z, In z a -> ok z)
          by (now apply Forall_forall).
        rewrite Ea in Hs.
        pose proof (sorted_prefix l1 l2 y Hs) as Hpre.
        pose proof (sorted_suffix l1 l2 y Hs) as Hsuf.
        destruct (comparefn pivot y <? 0) eqn:Hpy.
        -- apply IH; try lia; [assumption|].
           rewrite Ea, <- Hl1, skipn_app, skipn_all, Nat.sub_diag. simpl.
           constructor; [assumption|].
           rewrite Forall_forall in Hsuf |- *. intros z Hz.
           assert (Hz' : In z a)
             by (rewrite Ea; apply in_or_app; right; now right).
           destruct (comparefn_cotrans pivot z y (Hokl z Hz') Hpy) as [H|H];
             [assumption|].
           rewrite (Hsuf z Hz) in H. discriminate.
        -- apply IH; try lia; [|assumption].
           rewrite Ea, <- Hl1.
           replace (S (List.length l1)) with (List.length l1 + 1)%nat by lia.
           rewrite firstn_app_2. simpl.
           apply Forall_app. split; [|now repeat constructor].
           rewrite Forall_forall in Hpre |- *. intros z Hz.
           destruct (comparefn pivot z <? 0) eqn:Hpz; [|reflexivity].
           destruct (comparefn_cotrans pivot y z Hoky Hpz) as [H|H].
           ++ congruence.
           ++ rewrite (Hpre z Hz) in H. discriminate.
      * exfalso. apply (proj2 (nth_error_Some a mid)); [lia|assumption].
    + replace left with right at 2 by lia. now split.
Qed.

Lemma binary_insert_facts (a : list A) (pivot : A) :
  Forall ok a -> StronglySorted not_before a ->
  Permutation (a ++ [pivot]) (binary_insert comparefn a pivot) /\
  StronglySorted not_before (binary_insert comparefn a pivot) /\
  (forall z, filter (same z) (binary_insert comparefn a pivot)
             = filter (same z) (a ++ [pivot])).
Proof.
  intros Hok Hs. unfold binary_insert. cbv zeta.
  set (k := insertion_point comparefn (List.length a) pivot a 0 (List.length a)).
  destruct (insertion_point_spec pivot a Hok Hs (List.length a) 0
              (List.length a)) as [Hpre Hsuf]; try lia.
  { constructor. }
  { rewrite skipn_all. constructor. }
  fold k in Hpre, Hsuf.
  pose proof (firstn_skipn k a) as Ea.
  set (l1 := firstn k a) in *. set (l2 := skipn k a) in *.
  clearbody l1 l2. clear k. subst a.
  split; [|split].
  - rewrite <- app_assoc.
    apply Permutation_app_head. symmetry. apply Permutation_cons_append.
  - clear Hok.
    induction l1 as [|x l1 IH]; simpl in *.
    + constructor; [assumption|].
      rewrite Forall_forall in Hsuf |- *. intros z Hz.
      now apply before_asym, Hsuf.
    + apply StronglySorted_inv in Hs as [Hs Hx].
      inversion Hpre as [|? ? Hpx Hpre']; subst.
      constructor; [now apply IH|].
      apply Forall_app. apply Forall_app in Hx as [Hx1 Hx2].
      split; [assumption|]. now constructor.
  - intros z.
    rewrite !filter_app. simpl. rewrite <- app_assoc. f_equal.
    destruct (same z pivot) eqn:Ezp; [|now rewrite app_nil_r].
    assert (Hnone : filter (same z) l2 = []).
    { clear - Hsuf Ezp same_not_after comparefn_flip.
      induction l2 as [|x l2 IH]; simpl; [reflexivity|].
      inversion Hsuf as [|? ? Hpx Hl]; subst.
      destruct (same z x) eqn:Ex; [|now apply IH].
      pose proof (same_not_after z x pivot Ex Ezp) as H.
      rewrite comparefn_flip, Hpx in H. discriminate. }
    rewrite Hnone. reflexivity.
Qed.

Lemma fold_binary_insert_facts (rest : list A) : forall acc,
  Forall ok acc -> Forall ok rest -> StronglySorted not_before acc ->
  Permutation (acc ++ rest) (fold_left (binary_insert comparefn) rest acc) /\
  StronglySorted not_before (fold_left (binary_insert comparefn) rest acc) /\
  (forall z, filter (same z) (fold_left (binary_insert comparefn) rest acc)
             = filter (same z) (acc ++ rest)).
Proof.
  induction rest as [|x rest IH]; intros acc Hacc Hrest Hs; simpl.
  - rewrite app_nil_r. repeat split; auto.
  - inversion Hrest as [|? ? Hx Hr]; subst.
    destruct (binary_insert_facts acc x Hacc Hs) as (Hp & Hs' & Hf).
    assert (Hok' : Forall ok (binary_insert comparefn acc x)).
    { apply (Permutation_Forall Hp). apply Forall_app. split; auto. }
    destruct (IH _ Hok' Hr Hs') as (Hp2 & Hs2 & Hf2).
    split; [|split].
    + rewrite <- Hp2. replace (acc ++ x :: rest) with ((acc ++ [x]) ++ rest)
        by (rewrite <- app_assoc; reflexivity).
      now apply Permutation_app_tail.
    + assumption.
    + intros z. rewrite Hf2, !filter_app, Hf, filter_app, <- app_assoc.
      simpl. now destruct (same z x).
Qed.

Lemma initial_run_facts (x0 x1 : A) (run : list A) :
  ok x0 -> ok x1 -> Forall ok run ->
  chain (fun p x => (comparefn x p <? 0) = (comparefn x1 x0 <? 0)) x1 run ->
  StronglySorted not_before
    (if comparefn x1 x0 <? 0 then rev (x0 :: x1 :: run)
     else x0 :: x1 :: run) /\
  forall z, filter (same z)
              (if comparefn x1 x0 <? 0 then rev (x0 :: x1 :: run)
               else x0 :: x1 :: run)
            = filter (same z) (x0 :: x1 :: run).
Proof.
  intros H0 H1 Hrun Hc. destruct (comparefn x1 x0 <? 0) eqn:Ed.
  - assert (Hpairs : ForallOrdPairs
              (fun y x => (comparefn x y <? 0) = true) (x0 :: x1 :: run)).
    { destruct (chain_descending_before (x1 :: run) x0 H0
                  ltac:(now constructor)
                  ltac:(split; [exact Ed|exact Hc])) as [Hall Hp].
      now constructor. }
    split; [now apply descending_rev_sorted|].
    intros z. now apply descending_rev_filter.
  - split; [|reflexivity].
    apply chain_ascending_sorted; [now constructor|].
    split; [exact Ed|exact Hc].
Qed.

(** On the elements where the comparator is consistent the host's
    algorithm returns what the stable insertion returns. *)
Lemma example_sort_consistent (l : list A) :
  Forall ok l -> example_sort comparefn l = sort comparefn l.
Proof.
  intros Hok.
  destruct l as [|x0 [|x1 rest]]; [reflexivity|reflexivity|].
  inversion Hok as [|? ? H0 Hok1]; subst.
  inversion Hok1 as [|? ? H1 Hrest]; subst.
  unfold example_sort. cbv zeta.
  set (r := run_length comparefn (comparefn x1 x0 <? 0) x1 rest).
  change (firstn (2 + r) (x0 :: x1 :: rest))
    with (x0 :: x1 :: firstn r rest).
  change (skipn (2 + r) (x0 :: x1 :: rest)) with (skipn r rest).
  assert (Hsplit : Forall ok (firstn r rest) /\ Forall ok (skipn r rest))
    by (rewrite <- (firstn_skipn r rest) in Hrest;
        now apply Forall_app in Hrest).
  destruct Hsplit as [Hrun Htail].
  pose proof (run_length_chain (comparefn x1 x0 <? 0) rest x1) as Hc.
  fold r in Hc.
  destruct (initial_run_facts x0 x1 (firstn r rest) H0 H1 Hrun Hc)
    as [Hs0 Hf0].
  assert (Hperm0 : Permutation (x0 :: x1 :: firstn r rest)
                     (if comparefn x1 x0 <? 0
                      then rev (x0 :: x1 :: firstn r rest)
                      else x0 :: x1 :: firstn r rest))
    by (destruct (comparefn x1 x0 <? 0);
        [apply Permutation_rev|reflexivity]).
  assert (Hacc : Forall ok (if comparefn x1 x0 <? 0
                            then rev (x0 :: x1 :: firstn r rest)
                            else x0 :: x1 :: firstn r rest))
    by (apply (Permutation_Forall Hperm0); repeat constructor; assumption).
  destruct (fold_binary_insert_facts (skipn r rest) _ Hacc Htail Hs0)
    as (Hp & Hs & Hf).
  assert (El : x0 :: x1 :: rest
               = (x0 :: x1 :: firstn r rest) ++ skipn r rest)
    by (simpl; now rewrite firstn_skipn).
  apply (sort_unique comparefn ok comparefn_flip comparefn_cotrans same
           same_not_after same_tie); [assumption| | |].
  - rewrite <- Hp, El. now apply Permutation_app_tail.
  - exact Hs.
  - intros z. rewrite Hf, filter_app, Hf0, <- filter_app, <- El.
    reflexivity.
Qed.
End HostSortFacts.

(** ** Positions in a list *)

Lemma precedes_cons {A : Type} (a b x : A) (l : list A) :
  precedes a b l -> precedes a b (x :: l).
Proof.
  intros (l1 & l2 & l3 & ->). now exists (x :: l1), l2, l3.
Qed.

Lemma precedes_head {A : Type} (a b : A) (l : list A) :
  In b l -> precedes a b (a :: l).
Proof.
  intros Hb. apply in_split in Hb as (l2 & l3 & ->). now exists [], l2, l3.
Qed.

Lemma precedes_inv {A : Type} (a b x : A) (l : list A) :
  precedes a b (x :: l) -> (x = a /\ In b l) \/ precedes a b l.
Proof.
  intros (l1 & l2 & l3 & E). destruct l1 as [|y l1]; simpl in E.
  - injection E as -> ->. left. split; [reflexivity|].
    apply in_or_app. right. now left.
  - injection E as -> ->. right. now exists l1, l2, l3.
Qed.

(** Two distinct members of a list stand in one order or the other. *)
Lemma precedes_map {A B : Type} (f : A -> B) (a b : A) (l : list A) :
  precedes a b l -> precedes (f a) (f b) (map f l).
Proof.
  intros (l1 & l2 & l3 & ->).
  exists (map f l1), (map f l2), (map f l3).
  rewrite map_app. cbn [map]. rewrite map_app. reflexivity.
Qed.

(** No such position exists in a list given element by element. *)
Ltac refute_precedes H :=
  repeat (apply precedes_inv in H;
          destruct H as [[E Hin]|H];
          [first [discriminate E
                 | cbn [In] in Hin; intuition discriminate]|]);
  destruct H as ([|? ?] & ? & ? & E); discriminate E.

Lemma precedes_total {A : Type} (a b : A) (l : list A) :
  In a l -> In b l -> a <> b -> precedes a b l \/ precedes b a l.
Proof.
  induction l as [|x l IH]; simpl; [contradiction|].
  intros [Ha|Ha] [Hb|Hb] Hne; subst.
  - contradiction.
  - left. now apply precedes_head.
  - right. now apply precedes_head.
  - destruct (IH Ha Hb Hne); [left|right]; now apply precedes_cons.
Qed.

(** Filtering keeps the order of the members it keeps, and adds none. *)
Lemma precedes_filter {A : Type} (p : A -> bool) (a b : A) (l : list A) :
  p a = true -> p b = true ->
  precedes a b l <-> precedes a b (filter p l).
Proof.
  intros Ha Hb. induction l as [|x l IH]; simpl.
  - split; intros (l1 & l2 & l3 & E); now destruct l1.
  - split.
    + intros H. apply precedes_inv in H as [[-> Hin]|H].
      * rewrite Ha. apply precedes_head. apply filter_In. now split.
      * apply IH in H. destruct (p x); [now apply precedes_cons|assumption].
    + destruct (p x) eqn:Hx.
      * intros H. apply precedes_inv in H as [[-> Hin]|H].
        -- apply precedes_head. now apply filter_In in Hin as [Hin _].
        -- apply precedes_cons. now apply IH.
      * intros H. apply precedes_cons. now apply IH.
Qed.

(** * The ranker *)

(** The comparator is negative exactly when the policy ranks its first
    argument before the second. *)
Lemma compareMatches_negative (a b : MatchRecord) :
  (compareMatches a b <? 0) = ranks_before a b.
Proof.
  unfold compareMatches, ranks_before, proximity.
  destruct (bloodTypeMatch a), (bloodTypeMatch b); simpl; try reflexivity;
    destruct (exactBloodTypeMatch a), (exactBloodTypeMatch b); simpl;
    try reflexivity;
    destruct (riskLevel a), (riskLevel b); simpl; try reflexivity;
    apply float_ltb_sub_zero.
Qed.

(** It is positive exactly when the policy ranks the second before the
    first. *)
Lemma compareMatches_positive (a b : MatchRecord) :
  (0 <? compareMatches a b) = ranks_before b a.
Proof.
  unfold compareMatches, ranks_before, proximity.
  destruct (bloodTypeMatch a), (bloodTypeMatch b); simpl; try reflexivity;
    destruct (exactBloodTypeMatch a), (exactBloodTypeMatch b); simpl;
    try reflexivity;
    destruct (riskLevel a), (riskLevel b); simpl; try reflexivity;
    apply float_gtb_sub_zero.
Qed.

Lemma compareMatches_flip (a b : MatchRecord) :
  (0 <? compareMatches a b) = (compareMatches b a <? 0).
Proof. now rewrite compareMatches_positive, compareMatches_negative. Qed.

Lemma proximity_numeric (m : MatchRecord) :
  numeric_ratio m -> is_nan (proximity m) = false.
Proof. apply float_abs_sub_one_not_nan. Qed.

Lemma ranks_before_irrefl (a : MatchRecord) : ranks_before a a = false.
Proof.
  unfold ranks_before. rewrite !Bool.eqb_reflx.
  destruct (riskLevel a); simpl.
  - destruct (proximity a <? proximity a) eqn:E; [|reflexivity].
    now rewrite (float_ltb_asym _ _ E) in E.
  - destruct (proximity a <? proximity a) eqn:E; [|reflexivity].
    now rewrite (float_ltb_asym _ _ E) in E.
Qed.

(** A record with a numeric ratio falls on one side of any strict ranking. *)
Lemma ranks_before_cotrans (a b c : MatchRecord) :
  numeric_ratio b ->
  ranks_before a c = true ->
  ranks_before a b = true \/ ranks_before b c = true.
Proof.
  intros Hb. apply proximity_numeric in Hb. unfold ranks_before.
  destruct (bloodTypeMatch a), (bloodTypeMatch b), (bloodTypeMatch c); simpl;
    try discriminate; auto;
    destruct (exactBloodTypeMatch a), (exactBloodTypeMatch b),
      (exactBloodTypeMatch c); simpl; try discriminate; auto;
    destruct (riskLevel a), (riskLevel b), (riskLevel c); simpl;
    try discriminate; auto;
    intros H; now apply float_ltb_cotrans.
Qed.

Lemma compareMatches_cotrans (a b c : MatchRecord) :
  numeric_ratio b ->
  (compareMatches a c <? 0) = true ->
  (compareMatches a b <? 0) = true \/ (compareMatches b c <? 0) = true.
Proof. rewrite !compareMatches_negative. apply ranks_before_cotrans. Qed.

Lemma same_keys_not_after (z x y : MatchRecord) :
  same_keys z x = true -> same_keys z y = true ->
  (0 <? compareMatches x y) = false.
Proof.
  rewrite compareMatches_positive. unfold same_keys, ranks_before.
  intros Hx Hy.
  apply andb_true_iff in Hx as [Hx Hpx]. apply andb_true_iff in Hx as [Hx Hrx].
  apply andb_true_iff in Hx as [Hcx Hex].
  apply andb_true_iff in Hy as [Hy Hpy]. apply andb_true_iff in Hy as [Hy Hry].
  apply andb_true_iff in Hy as [Hcy Hey].
  apply Bool.eqb_prop in Hcx, Hex, Hcy, Hey.
  rewrite <- Hcx, <- Hcy, <- Hex, <- Hey, !Bool.eqb_reflx.
  destruct (riskLevel z), (riskLevel x), (riskLevel y); try discriminate; simpl;
    rewrite float_eqb_sym in Hpy;
    apply (float_eqb_ltb_false _ _ (float_eqb_trans _ _ _ Hpy Hpx)).
Qed.

Lemma same_keys_refl_l (a b : MatchRecord) :
  same_keys a b = true -> same_keys a a = true.
Proof.
  unfold same_keys. intros H.
  apply andb_true_iff in H as [H Hp]. rewrite !Bool.eqb_reflx.
  destruct (riskLevel a); simpl;
    apply (float_eqb_trans _ _ _ Hp); now rewrite float_eqb_sym.
Qed.

Lemma rank_perm (l : list MatchRecord) : Permutation l (rank l).
Proof. apply sort_perm. Qed.

Lemma rank_sorted (l : list MatchRecord) :
  Forall numeric_ratio l ->
  StronglySorted (fun y x => (compareMatches x y <? 0) = false) (rank l).
Proof.
  apply (sort_sorted compareMatches numeric_ratio compareMatches_flip
           compareMatches_cotrans).
Qed.

(** In the ranked list no record stands behind one it ranks before. *)
Lemma rank_never_inverts (l : list MatchRecord) (a b : MatchRecord) :
  Forall numeric_ratio l ->
  ranks_before a b = true -> ~ precedes b a (rank l).
Proof.
  intros Hl Hab (l1 & l2 & l3 & E).
  pose proof (rank_sorted l Hl) as Hs. rewrite E in Hs.
  assert (H : (compareMatches a b <? 0) = false).
  { apply (sorted_split compareMatches l1 (l2 ++ a :: l3) b Hs).
    apply in_or_app. right. now left. }
  rewrite compareMatches_negative, Hab in H. discriminate.
Qed.

Lemma same_keys_tie (x y : MatchRecord) :
  numeric_ratio x -> numeric_ratio y ->
  (compareMatches x y <? 0) = false -> (compareMatches y x <? 0) = false ->
  same_keys x y = true.
Proof.
  intros Hx Hy. apply proximity_numeric in Hx, Hy.
  rewrite !compareMatches_negative. unfold ranks_before, same_keys.
  destruct (bloodTypeMatch x), (bloodTypeMatch y),
    (exactBloodTypeMatch x), (exactBloodTypeMatch y),
    (riskLevel x), (riskLevel y); simpl; try discriminate;
    intros H1 H2; rewrite FloatAxioms.eqb_spec; unfold SFeqb;
    rewrite FloatAxioms.ltb_spec in H1, H2; unfold SFltb in H1, H2;
    rewrite (SFcompare_antisym (Prim2SF (proximity x))) in H2;
    destruct (float_compare_some _ _ Hx Hy) as [c Hc]; rewrite Hc in *;
    now destruct c.
Qed.

(** For records with numeric ratios the ranked list is the only stable
    ordering by the comparator: any engine's [sort] returns it. *)
Lemma rank_unique (l l' : list MatchRecord) :
  Forall numeric_ratio l -> Permutation l l' ->
  StronglySorted (fun y x => (compareMatches x y <? 0) = false) l' ->
  (forall k, filter (same_keys k) l' = filter (same_keys k) l) ->
  l' = rank l.
Proof.
  apply (sort_unique compareMatches numeric_ratio compareMatches_flip
           compareMatches_cotrans same_keys same_keys_not_after same_keys_tie).
Qed.

(** For records with numeric ratios the host's algorithm returns the
    ranking. *)
Lemma host_rank_agrees (l : list MatchRecord) :
  Forall numeric_ratio l -> example_sort compareMatches l = rank l.
Proof.
  apply (example_sort_consistent compareMatches numeric_ratio
           compareMatches_flip compareMatches_cotrans same_keys
           same_keys_not_after same_keys_tie).
Qed.

(** C1: under the primary policy the comparator puts [a] before [b] exactly
    when [a] is compatible and [b] is not; on a tie, when [a] is an exact
    match and [b] is not; on a further tie, when [a] is Acceptable and [b]
    High Risk; and when all three tie, when |a.ratio - 1| < |b.ratio - 1|.
    In the ranked list of records with numeric ratios, a record that ranks
    before another stands before it, never behind it. *)
Theorem rank_follows_policy (l : list MatchRecord) :
  Forall numeric_ratio l ->
  (forall a b, (compareMatches a b <? 0) = ranks_before a b) /\
  Permutation l (rank l) /\
  (forall a b, In a l -> In b l -> ranks_before a b = true ->
     precedes a b (rank l) /\ ~ precedes b a (rank l)).
Proof.
  intros Hl. split; [exact compareMatches_negative|].
  split; [apply rank_perm|].
  intros a b Ha Hb Hab.
  pose proof (rank_never_inverts l a b Hl Hab) as Hno.
  split; [|assumption].
  assert (Hne : a <> b).
  { intros ->. rewrite ranks_before_irrefl in Hab. discriminate. }
  destruct (precedes_total a b (rank l)) as [H|H]; auto.
  - apply (Permutation_in _ (rank_perm l)). assumption.
  - apply (Permutation_in _ (rank_perm l)). assumption.
  - contradiction.
Qed.

Lemma rank_follows_policy_witness :
  Forall numeric_ratio sample_records /\
  precedes (sample_record recipient_ok true true 0.95)
           (sample_record recipient_ok true false 1.05)
           (rank sample_records) /\
  precedes (sample_record recipient_ok true false 0.8)
           (sample_record recipient_ok false false 1.0)
           (rank sample_records).
Proof.
  assert (Hl : Forall numeric_ratio sample_records)
    by (repeat constructor).
  destruct (rank_follows_policy sample_records Hl) as (_ & _ & H).
  split; [exact Hl|]. split.
  - apply H; [simpl; tauto | simpl; tauto | reflexivity].
  - apply H; [simpl; tauto | simpl; tauto | reflexivity].
Defined.

(** C1 as stated does not hold for every input list.  A row whose weight
    is mistyped is kept with a ratio that is not a number, the comparator
    answers [NaN] for it, and the sort then leaves a farther match ahead of
    a perfect one: in the run on [rows_beside_nan] the record with ratio 1.30
    stays before the record with ratio 1.0, which ranks before it.  The
    stable insertion and the host's algorithm agree on this list. *)
Lemma rank_misorders_beside_nan :
  (exists a n c,
     matchResults
       (handleCalculateMatches example_pow example_parseFloat
          (initial_state rows_beside_nan)) = [a; n; c] /\
     map recipient [a; n; c] = rows_beside_nan /\
     is_nan (phmRatio n) = true /\
     (In a [a; n; c] /\ In c [a; n; c] /\ ranks_before c a = true) /\
     rank [a; n; c] = [a; n; c] /\
     example_sort compareMatches [a; n; c] = [a; n; c] /\
     precedes a c (rank [a; n; c]) /\
     ~ precedes c a (rank [a; n; c])) /\
  ~ (forall l a b, In a l -> In b l -> ranks_before a b = true ->
       precedes a b (rank l)).
Proof.
  assert (H : exists a n c,
     matchResults
       (handleCalculateMatches example_pow example_parseFloat
          (initial_state rows_beside_nan)) = [a; n; c] /\
     map recipient [a; n; c] = rows_beside_nan /\
     is_nan (phmRatio n) = true /\
     (In a [a; n; c] /\ In c [a; n; c] /\ ranks_before c a = true) /\
     rank [a; n; c] = [a; n; c] /\
     example_sort compareMatches [a; n; c] = [a; n; c] /\
     precedes a c (rank [a; n; c]) /\
     ~ precedes c a (rank [a; n; c])).
  { remember (matchResults
                (handleCalculateMatches example_pow example_parseFloat
                   (initial_state rows_beside_nan))) as ms eqn:E.
    vm_compute in E. subst ms. do 3 eexists.
    split; [reflexivity|]. split; [reflexivity|]. split; [reflexivity|].
    split; [split; [|split]; [cbn [In]; tauto|cbn [In]; tauto|reflexivity]|].
    match goal with
    | |- rank ?l = ?l /\ _ =>
        assert (Hr : rank l = l) by (vm_compute; reflexivity)
    end.
    split; [exact Hr|]. split; [vm_compute; reflexivity|].
    rewrite Hr. split.
    - eexists [], [_], []. reflexivity.
    - intros Hp. apply (precedes_map record_name) in Hp.
      cbn [map record_name recipient Recipient.name] in Hp.
      refute_precedes Hp. }
  split; [exact H|].
  destruct H as (a & n & c & _ & _ & _ & (Ha & Hc & Hca) & _ & _ & _ & Hno).
  intros Hall. exact (Hno (Hall [a; n; c] c a Hc Ha Hca)).
Qed.

(** C8: ranking is stable on records with numeric ratios.  There the
    comparator is consistent, the language fixes what [sort] returns, and
    the host's algorithm returns the ranking; the records that tie with any
    given record on all four criteria come out in the order they came in,
    and in particular two such records keep their relative order.  The
    ranked order is a function of the input list alone. *)
Theorem rank_stable (l : list MatchRecord) :
  Forall numeric_ratio l ->
  example_sort compareMatches l = rank l /\
  (forall k, filter (same_keys k) (rank l) = filter (same_keys k) l) /\
  (forall a b, same_keys a b = true -> precedes a b l -> precedes a b (rank l)).
Proof.
  intros Hl. split; [now apply host_rank_agrees|].
  assert (Hf : forall k, filter (same_keys k) (rank l) = filter (same_keys k) l).
  { intros k. apply sort_filter. apply same_keys_not_after. }
  split; [exact Hf|].
  intros a b Hab Hpre.
  pose proof (same_keys_refl_l a b Hab) as Haa.
  apply (precedes_filter (same_keys a) a b (rank l) Haa Hab).
  rewrite Hf.
  now apply (precedes_filter (same_keys a) a b l Haa Hab).
Qed.

Lemma rank_stable_witness :
  Forall numeric_ratio sample_records /\
  precedes (sample_record recipient_ok true false 1.05)
           (sample_record recipient_same_type true false 1.05)
           (rank sample_records).
Proof.
  assert (Hl : Forall numeric_ratio sample_records)
    by (repeat constructor).
  split; [exact Hl|].
  destruct (rank_stable sample_records Hl) as (_ & _ & Hkeep).
  apply Hkeep; [reflexivity|].
  exists [ sample_record recipient_ok false false 1.0;
           sample_record recipient_ok true false 0.8;
           sample_record recipient_ok true true 1.3 ], [],
         [ sample_record recipient_ok true true 0.95 ].
  reflexivity.
Defined.

(** C8 as stated does not hold for every input list.  On the sheet
    [rows_with_ties] three weights are mistyped, so the comparator is not
    consistent and the order is the host's: the algorithm of V8 returns the
    rows 1, 2, 6, 7, 3, 4, 5.  Rows 5 and 7 have the same weight and tie on
    all four keys, and row 7 comes out before row 5. *)
Lemma host_sort_reorders_ties :
  calculatePHM example_pow (VString "male") 45 180 80
  = Normal (PHM example_pow Male 45 180 80) /\
  exists results r5 r7,
    mapM (matchRecipient example_pow example_parseFloat example_donor
            (PHM example_pow Male 45 180 80)) rows_with_ties
    = Normal results /\
    map recipient results = rows_with_ties /\
    map record_name (example_sort compareMatches results)
    = [ VString "R1"; VString "R2"; VString "R6"; VString "R7";
        VString "R3"; VString "R4"; VString "R5" ] /\
    nth_error results 4 = Some r5 /\ nth_error results 6 = Some r7 /\
    same_keys r5 r7 = true /\
    precedes r5 r7 results /\
    ~ precedes r5 r7 (example_sort compareMatches results).
Proof.
  split; [reflexivity|].
  remember (mapM (matchRecipient example_pow example_parseFloat example_donor
                    (PHM example_pow Male 45 180 80)) rows_with_ties)
    as res eqn:E.
  vm_compute in E. subst res. do 3 eexists.
  split; [reflexivity|]. split; [reflexivity|].
  split; [vm_compute; reflexivity|].
  split; [reflexivity|]. split; [reflexivity|].
  split; [vm_compute; reflexivity|].
  split.
  - eexists [_; _; _; _], [_], []. reflexivity.
  - intros Hp. apply (precedes_map record_name) in Hp.
    match type of Hp with
    | precedes _ _ (map record_name ?l) =>
        let l' := eval vm_compute in (map record_name l) in
        change (map record_name l) with l' in Hp
    end.
    cbn [record_name recipient Recipient.name] in Hp.
    refute_precedes Hp.
Qed.

(** * The classifier *)

Lemma float_ltb_below (r lo hi : float) :
  (lo <? hi) = true -> (r <? lo) = true -> (r <? hi) = true.
Proof. intros Hlh Hr. exact (float_ltb_trans _ _ _ Hr Hlh). Qed.

(** C3: [determineMatchCategory] is total and its seven bands partition the
    numbers at 0.863, 0.929, 0.983, 1.039, 1.111 and 1.221, each boundary
    belonging to the band above it; 0.983 is Well-Matched and 0.9829999 is
    Mildly Undersized. *)
Theorem determineMatchCategory_bands (r : float) :
  is_nan r = false ->
  (determineMatchCategory r = CatU3 <-> (r <? 0.863) = true) /\
  (determineMatchCategory r = CatU2 <->
     (0.863 <=? r) = true /\ (r <? 0.929) = true) /\
  (determineMatchCategory r = CatU1 <->
     (0.929 <=? r) = true /\ (r <? 0.983) = true) /\
  (determineMatchCategory r = CatR <->
     (0.983 <=? r) = true /\ (r <? 1.039) = true) /\
  (determineMatchCategory r = CatO1 <->
     (1.039 <=? r) = true /\ (r <? 1.111) = true) /\
  (determineMatchCategory r = CatO2 <->
     (1.111 <=? r) = true /\ (r <? 1.221) = true) /\
  (determineMatchCategory r = CatO3 <-> (1.221 <=? r) = true) /\
  determineMatchCategory 0.983 = CatR /\
  determineMatchCategory 0.9829999 = CatU1.
Proof.
  intros Hr.
  rewrite !(fun c H => float_leb_negb_ltb c r H Hr) by reflexivity.
  pose proof (float_ltb_below r 0.863 0.929 eq_refl) as H1.
  pose proof (float_ltb_below r 0.929 0.983 eq_refl) as H2.
  pose proof (float_ltb_below r 0.983 1.039 eq_refl) as H3.
  pose proof (float_ltb_below r 1.039 1.111 eq_refl) as H4.
  pose proof (float_ltb_below r 1.111 1.221 eq_refl) as H5.
  unfold determineMatchCategory.
  destruct (r <? 0.863), (r <? 0.929), (r <? 0.983), (r <? 1.039),
    (r <? 1.111), (r <? 1.221);
    try discriminate (H1 eq_refl); try discriminate (H2 eq_refl);
    try discriminate (H3 eq_refl); try discriminate (H4 eq_refl);
    try discriminate (H5 eq_refl);
    simpl; repeat split; intros; try reflexivity; try discriminate;
    match goal with H : _ /\ _ |- _ => destruct H; discriminate end.
Qed.

Lemma determineMatchCategory_bands_witness :
  is_nan 1.0 = false /\ determineMatchCategory 1.0 = CatR.
Proof.
  split; [reflexivity|].
  destruct (determineMatchCategory_bands 1.0 eq_refl) as (_ & _ & _ & H & _).
  apply H. split; reflexivity.
Defined.

(** C4: [determineRiskLevel] answers High Risk exactly below 0.86 and
    Acceptable exactly from 0.86 on; 0.86 is Acceptable and 0.8599 is High
    Risk.  The threshold is its own constant, not the 0.863 boundary of the
    categories: 0.861 is Acceptable and yet Severely Undersized. *)
Theorem determineRiskLevel_threshold (r : float) :
  is_nan r = false ->
  (determineRiskLevel r = HighRisk <-> (r <? 0.86) = true) /\
  (determineRiskLevel r = Acceptable <-> (0.86 <=? r) = true) /\
  determineRiskLevel 0.86 = Acceptable /\
  determineRiskLevel 0.8599 = HighRisk /\
  (determineRiskLevel 0.861 = Acceptable /\
   determineMatchCategory 0.861 = CatU3).
Proof.
  intros Hr. rewrite (float_leb_negb_ltb 0.86 r eq_refl Hr).
  unfold determineRiskLevel.
  destruct (r <? 0.86); simpl; repeat split; intros;
    try reflexivity; discriminate.
Qed.

Lemma determineRiskLevel_threshold_witness :
  is_nan 0.5 = false /\ determineRiskLevel 0.5 = HighRisk.
Proof.
  split; [reflexivity|].
  destruct (determineRiskLevel_threshold 0.5 eq_refl) as (H & _).
  apply H. reflexivity.
Defined.

(** * Predicted heart mass *)

(** On a text gender the function returns the formula's value, with the
    female coefficients for ['female'] in any letter case and the male ones
    for every other text. *)
Lemma calculatePHM_text (pow : float -> float -> float) (s : string)
      (age height weight : float) :
  calculatePHM pow (VString s) age height weight =
  Normal (PHM pow (if String.eqb (lower s) "female" then Female else Male)
              age height weight).
Proof.
  unfold calculatePHM, PHM, LVM, RVM, height_m. simpl.
  destruct (String.eqb (lower s) "female"); simpl; f_equal; apply float_add_comm.
Qed.

Lemma calculatePHM_not_text (pow : float -> float -> float) (gender : value)
      (age height weight : float) :
  is_text gender = false ->
  calculatePHM pow gender age height weight = Throw TypeError.
Proof. destruct gender; simpl; intros H; try reflexivity; discriminate. Qed.

(** C2: for a gender that reads 'female' or 'male' in any letter case,
    [calculatePHM] returns LVM + RVM with
    LVM = Clvm * height_m^0.54 * weight^0.61 and
    RVM = Crvm * age^-0.32 * height_m^1.135 * weight^0.315,
    where Clvm, Crvm are 6.82, 10.59 for female and 8.25, 11.25 for male, and
    height_m is height/100 when height exceeds 3 and height otherwise.  This
    holds for every age, height and weight, the positive ones in particular,
    and for every host [Math.pow]. *)
Theorem calculatePHM_formula (pow : float -> float -> float) (s : string)
        (g : Gender) (age height weight : float) :
  gender_of s = Some g ->
  calculatePHM pow (VString s) age height weight =
  Normal (PHM pow g age height weight).
Proof.
  unfold gender_of. intros Hg. rewrite calculatePHM_text.
  destruct (String.eqb (lower s) "female").
  - now injection Hg as <-.
  - destruct (String.eqb (lower s) "male"); [|discriminate].
    now injection Hg as <-.
Qed.

Lemma calculatePHM_formula_witness :
  gender_of "Female" = Some Female /\
  calculatePHM example_pow (VString "Female") 50 165 65 =
  Normal (6.82 * example_pow (165 / 100) 0.54 * example_pow 65 0.61
          + 10.59 * example_pow 50 (-0.32) * example_pow (165 / 100) 1.135
            * example_pow 65 0.315).
Proof.
  split; [reflexivity|].
  exact (calculatePHM_formula example_pow "Female" Female 50 165 65 eq_refl).
Defined.

(** C6, as the code has it: [calculatePHM] checks nothing.  For a text
    gender it returns the formula's value whatever the age, height and
    weight are -- zero and negative ones included -- and a text other than
    'female' is computed as male; it fails, with a TypeError, exactly when
    the gender is not text. *)
Theorem calculatePHM_no_validation (pow : float -> float -> float)
        (gender : value) (age height weight : float) :
  match gender with
  | VString s =>
      calculatePHM pow gender age height weight =
      Normal (PHM pow (if String.eqb (lower s) "female" then Female else Male)
                  age height weight)
  | _ => calculatePHM pow gender age height weight = Throw TypeError
  end.
Proof.
  destruct gender as [| | b | n | s];
    try (apply calculatePHM_not_text; reflexivity).
  apply calculatePHM_text.
Qed.

(** C6 as stated does not hold: a zero age and an unrecognised gender
    both come back with a value, under every host. *)
Lemma calculatePHM_accepts_invalid_input :
  ((0 <=? 0) = true /\ gender_of "other" = None) /\
  (forall pow : float -> float -> float,
     exists v, calculatePHM pow (VString "male") 0 180 80 = Normal v) /\
  (forall pow : float -> float -> float,
     exists v, calculatePHM pow (VString "other") 45 180 80 = Normal v).
Proof.
  split; [split; reflexivity|].
  split; intros pow; rewrite calculatePHM_text; eexists; reflexivity.
Qed.

(** C9, as the doubles have it.  The value is built from the host's
    [Math.pow], which the language leaves to the implementation, so what
    holds is relative to what the host returns.  For every text gender:
    when each of the five powers the host returns is at least [pow_floor]
    (2^-200; the powers of a plausible age, height and weight are far
    above), [calculatePHM] returns a value greater than zero; and for a
    second weight whose two powers are not smaller, the value is not
    smaller.  It need not be greater: rounding can give two nearby weights
    the same value. *)
Theorem calculatePHM_positive_nondecreasing
        (pow : float -> float -> float) (s : string)
        (age height weight : float) :
  powers_fit pow age height weight ->
  exists v,
    calculatePHM pow (VString s) age height weight = Normal v /\
    (0 <? v) = true /\
    forall weight',
      (pow weight 0.61 <=? pow weight' 0.61) = true ->
      (pow weight 0.315 <=? pow weight' 0.315) = true ->
      exists v',
        calculatePHM pow (VString s) age height weight' = Normal v' /\
        (v <=? v') = true.
Proof.
  intros (H1 & H2 & H3 & H4 & H5).
  rewrite calculatePHM_text. eexists. split; [reflexivity|].
  set (g := if String.eqb (lower s) "female" then Female else Male).
  assert (Hf : (0 <? pow_floor) = true) by reflexivity.
  assert (Hcl : (0 <? Clvm g) = true) by (destruct g; reflexivity).
  assert (Hcr : (0 <? Crvm g) = true) by (destruct g; reflexivity).
  assert (Hl0 : (0 <? Clvm g * pow_floor) = true) by (destruct g; reflexivity).
  assert (Hl1 : (Clvm g * pow_floor <=? Clvm g * pow (height_m height) 0.54)
                = true).
  { apply float_mul_mono; auto. now apply float_positive_leb_refl. }
  assert (Hl2 : (0 <? Clvm g * pow_floor * pow_floor) = true)
    by (destruct g; reflexivity).
  assert (Hl3 : (Clvm g * pow_floor * pow_floor <=? LVM pow g height weight)
                = true).
  { unfold LVM. apply float_mul_mono; auto. }
  assert (Hr0 : (0 <? Crvm g * pow_floor) = true) by (destruct g; reflexivity).
  assert (Hr1 : (Crvm g * pow_floor <=? Crvm g * pow age (-0.32)) = true).
  { apply float_mul_mono; auto. now apply float_positive_leb_refl. }
  assert (Hr2 : (0 <? Crvm g * pow_floor * pow_floor) = true)
    by (destruct g; reflexivity).
  assert (Hr3 : (Crvm g * pow_floor * pow_floor
                 <=? Crvm g * pow age (-0.32) * pow (height_m height) 1.135)
                = true).
  { apply float_mul_mono; auto. }
  assert (Hr4 : (0 <? Crvm g * pow_floor * pow_floor * pow_floor) = true)
    by (destruct g; reflexivity).
  assert (Hr5 : (Crvm g * pow_floor * pow_floor * pow_floor
                 <=? RVM pow g age height weight) = true).
  { unfold RVM. apply float_mul_mono; auto. }
  assert (HL : (0 <? LVM pow g height weight) = true)
    by exact (float_ltb_leb_trans _ _ _ Hl2 Hl3).
  assert (HR : (0 <? RVM pow g age height weight) = true)
    by exact (float_ltb_leb_trans _ _ _ Hr4 Hr5).
  split.
  - unfold PHM.
    apply (float_ltb_leb_trans _
             (Clvm g * pow_floor * pow_floor
              + Crvm g * pow_floor * pow_floor * pow_floor)).
    + destruct g; reflexivity.
    + apply float_add_mono; auto.
  - intros weight' Hw1 Hw2. rewrite calculatePHM_text. fold g.
    eexists. split; [reflexivity|].
    pose proof (float_ltb_leb_trans _ _ _ Hl0 Hl1) as HA.
    pose proof (float_ltb_leb_trans _ _ _ Hr2 Hr3) as HB.
    pose proof (float_ltb_leb_trans 0 pow_floor _ Hf H2) as Hp2.
    pose proof (float_ltb_leb_trans 0 pow_floor _ Hf H5) as Hp5.
    unfold PHM. apply float_add_mono; auto.
    + unfold LVM. apply float_mul_mono; auto.
      now apply float_positive_leb_refl.
    + unfold RVM. apply float_mul_mono; auto.
      now apply float_positive_leb_refl.
Qed.

Lemma calculatePHM_positive_nondecreasing_witness :
  powers_fit example_pow 45 180 80 /\
  exists v v',
    calculatePHM example_pow (VString "male") 45 180 80 = Normal v /\
    calculatePHM example_pow (VString "male") 45 180 82 = Normal v' /\
    (0 <? v) = true /\ (v <=? v') = true.
Proof.
  assert (Hfit : powers_fit example_pow 45 180 80)
    by (repeat split; reflexivity).
  split; [exact Hfit|].
  destruct (calculatePHM_positive_nondecreasing example_pow "male" 45 180 80
              Hfit) as (v & Hv & Hpos & Hmono).
  destruct (Hmono 82 eq_refl eq_refl) as (v' & Hv' & Hle).
  exists v, v'. repeat split; assumption.
Defined.

(** C9 as stated does not hold: the increase in weight is not strict.
    Under the example host, whose powers are positive and do not decrease,
    80 and the next double after 80 give the same value. *)
Lemma calculatePHM_equal_at_adjacent_weights :
  ((0 <? 80) = true /\ (80 <? next_up 80) = true) /\
  (powers_fit example_pow 45 180 80 /\
   (example_pow 80 0.61 <=? example_pow (next_up 80) 0.61) = true /\
   (example_pow 80 0.315 <=? example_pow (next_up 80) 0.315) = true) /\
  exists v,
    calculatePHM example_pow (VString "male") 45 180 80 = Normal v /\
    calculatePHM example_pow (VString "male") 45 180 (next_up 80) = Normal v /\
    (v <? v) = false.
Proof.
  split; [split; reflexivity|].
  split; [repeat split; reflexivity|].
  eexists. split; [reflexivity|]. split; reflexivity.
Qed.

(** * Blood-type compatibility *)

(** On the eight blood types the chart is the transfusion rule: the donor's
    group goes into the recipient's group, and the donor is Rhesus negative
    or the recipient Rhesus positive. *)
Lemma chart_follows_rule (d r : string) :
  In d bloodTypes -> In r bloodTypes ->
  exists bd br,
    blood_type_of d = Some bd /\ blood_type_of r = Some br /\
    isBloodTypeCompatible (VString d) (VString r) = Normal (transfusable bd br).
Proof.
  unfold bloodTypes. simpl. intros Hd Hr.
  repeat (destruct Hd as [<-|Hd]; [|]); try contradiction;
    repeat (destruct Hr as [<-|Hr]; [|]); try contradiction;
    do 2 eexists; repeat split; reflexivity.
Qed.

Lemma chart_reflexive (t : string) :
  In t bloodTypes -> isBloodTypeCompatible (VString t) (VString t) = Normal true.
Proof.
  unfold bloodTypes. simpl. intros H.
  repeat (destruct H as [<-|H]; [reflexivity|]). contradiction.
Qed.

(** An absent (falsy) blood type on either side is incompatible. *)
Lemma isBloodTypeCompatible_absent (d r : value) :
  truthy d = false \/ truthy r = false ->
  isBloodTypeCompatible d r = Normal false.
Proof.
  unfold isBloodTypeCompatible. intros [-> | ->]; simpl; [reflexivity|].
  now rewrite orb_true_r.
Qed.

Lemma includes_not_text (l : list string) (v : value) :
  is_text v = false -> includes l v = false.
Proof.
  intros Hv. unfold includes. induction l as [|t l IH]; [reflexivity|].
  cbn [existsb]. rewrite IH. now destruct v.
Qed.

Section ChartLookup.
Local Arguments String.eqb : simpl never.

Lemma blood_type_of_none (s : string) :
  blood_type_of s = None ->
  forallb (fun t => negb (String.eqb t s)) bloodTypes = true.
Proof.
  unfold blood_type_of, bloodTypes. simpl.
  rewrite !(String.eqb_sym s).
  repeat match goal with
         | |- context [String.eqb ?t s] => destruct (String.eqb t s)
         end; simpl; intros H; try discriminate; reflexivity.
Qed.

(** A blood type that is neither of the eight nor a member of
    [Object.prototype] is incompatible, as donor and as recipient. *)
Lemma isBloodTypeCompatible_unknown (d r : value) :
  unknown_or_absent d \/ unknown_or_absent r ->
  get bloodTypeCompatibility r <> Inherited ->
  isBloodTypeCompatible d r = Normal false.
Proof.
  intros Hu Hr. unfold isBloodTypeCompatible.
  destruct (negb (truthy d) || negb (truthy r)); [reflexivity|].
  destruct (get bloodTypeCompatibility r) as [donors| |] eqn:Hg;
    [|contradiction|reflexivity].
  f_equal. rewrite orb_false_r.
  destruct r as [| |[]| |s]; try discriminate.
  unfold get in Hg. simpl property_key in Hg.
  destruct Hu as [Hd|Hs].
  - destruct d as [| |b|n|t]; try (now apply includes_not_text).
    simpl in Hd. apply blood_type_of_none in Hd.
      unfold bloodTypes in Hd. simpl in Hd.
      repeat (apply andb_true_iff in Hd as [?%negb_true_iff Hd]).
      unfold bloodTypeCompatibility in Hg. simpl in Hg.
      repeat match type of Hg with
             | context [String.eqb ?k s] => destruct (String.eqb k s)
             end;
        try (injection Hg as <-; unfold includes; simpl;
             repeat match goal with H : String.eqb _ t = false |- _ =>
                      rewrite H; clear H end; reflexivity).
    match type of Hg with
    | (if ?c then _ else _) = _ => destruct c; discriminate
    end.
  - simpl in Hs. apply blood_type_of_none in Hs.
    unfold bloodTypes in Hs. simpl in Hs.
    repeat (apply andb_true_iff in Hs as [?%negb_true_iff Hs]).
    unfold bloodTypeCompatibility in Hg. simpl in Hg.
    repeat match goal with H : String.eqb _ s = false |- _ =>
             rewrite H in Hg; clear H end.
    match type of Hg with
    | (if ?c then _ else _) = _ => destruct c; discriminate
    end.
Qed.
End ChartLookup.

Lemma isBloodTypeCompatible_throw_inv (d r : value) (e : error) :
  isBloodTypeCompatible d r = Throw e ->
  get bloodTypeCompatibility r = Inherited.
Proof.
  unfold isBloodTypeCompatible.
  destruct (negb (truthy d) || negb (truthy r)); [discriminate|].
  now destruct (get bloodTypeCompatibility r).
Qed.

(** C5: the lookup in the chart reaches [Object.prototype].  A recipient
    blood type that names one of its members -- 'constructor', say, which is
    no blood type -- makes [isBloodTypeCompatible] throw a TypeError where
    the specification has it return false; this holds for every present donor type
    and every such name. *)
Theorem isBloodTypeCompatible_inherited_key_throws :
  unknown_or_absent (VString "constructor") /\
  isBloodTypeCompatible (VString "O-") (VString "constructor")
  = Throw TypeError /\
  (forall (d : value) (k : string),
     truthy d = true -> In k Object_prototype ->
     unknown_or_absent (VString k) /\
     isBloodTypeCompatible d (VString k) = Throw TypeError).
Proof.
  split; [reflexivity|]. split; [reflexivity|].
  intros d k Hd Hk. unfold isBloodTypeCompatible. rewrite Hd.
  unfold Object_prototype in Hk. simpl in Hk.
  repeat (destruct Hk as [<-|Hk]; [split; reflexivity|]). contradiction.
Qed.

(** * The match builder *)

Section Builder.
Variable Math_pow : float -> float -> float.
Variable parseFloat : value -> float.

Lemma mapM_throw {A B : Type} (f : A -> completion B) (l : list A) (x : A) :
  In x l -> (exists e, f x = Throw e) -> mapM f l = Throw TypeError.
Proof.
  intros Hx [e He]. induction l as [|a l IH]; [contradiction|].
  simpl. destruct Hx as [->|Hx].
  - rewrite He. now destruct e.
  - destruct (f a) as [y|e']; simpl.
    + now rewrite (IH Hx).
    + now destruct e'.
Qed.

Lemma mapM_normal {A B : Type} (f : A -> completion B) (g : B -> A)
      (l : list A) :
  (forall x, In x l -> exists y, f x = Normal y /\ g y = x) ->
  exists ys, mapM f l = Normal ys /\ map g ys = l.
Proof.
  induction l as [|a l IH]; intros H.
  - now exists [].
  - destruct (H a (or_introl eq_refl)) as (y & Hy & Hg).
    destruct IH as (ys & Hys & Hm); [intros x Hx; apply H; now right|].
    exists (y :: ys). simpl. rewrite Hy, Hys. simpl. now rewrite Hg, Hm.
Qed.

Lemma matchRecipient_throw (d : Donor.t) (donorPHM : float) (r : Recipient.t) :
  is_text (Recipient.gender r) = false ->
  matchRecipient Math_pow parseFloat d donorPHM r = Throw TypeError.
Proof.
  intros H. unfold matchRecipient.
  now rewrite calculatePHM_not_text.
Qed.

Lemma matchRecipient_normal (d : Donor.t) (donorPHM : float) (r : Recipient.t) :
  is_text (Recipient.gender r) = true ->
  bloodType_resolves r = true ->
  exists m, matchRecipient Math_pow parseFloat d donorPHM r = Normal m /\
            recipient m = r.
Proof.
  intros Hg Hb. unfold matchRecipient.
  destruct (Recipient.gender r) as [| | | |s]; try discriminate.
  rewrite calculatePHM_text. simpl bind.
  destruct (isBloodTypeCompatible (VString (Donor.bloodType d))
              (Recipient.bloodType r)) as [b|e] eqn:Hc.
  - simpl. eexists. split; reflexivity.
  - apply isBloodTypeCompatible_throw_inv in Hc.
    unfold bloodType_resolves in Hb. rewrite Hc in Hb. discriminate.
Qed.

(** With a valid donor form and a loaded list the handler reaches the
    [try] block. *)
Lemma handleCalculateMatches_valid (st : State) :
  donor_valid parseFloat (donor st) = true ->
  recipients st <> [] ->
  handleCalculateMatches Math_pow parseFloat st =
  setIsLoading false
    match calculateMatches Math_pow parseFloat (donor st) (recipients st) with
    | Normal sortedResults =>
        setMatchResults sortedResults
          (setError NoMessage (setIsLoading true st))
    | Throw e =>
        setError (CalculationError e)
          (setError NoMessage (setIsLoading true st))
    end.
Proof.
  unfold donor_valid, handleCalculateMatches, donorFields, numericFields.
  cbn [forallb filter find snd fst]. intros Hv Hr.
  apply andb_true_iff in Hv as [Ht Hn].
  repeat (apply andb_true_iff in Ht as [-> Ht]).
  repeat (apply andb_true_iff in Hn as [->%negb_true_iff Hn]).
  cbn [negb]. destruct (recipients st); [contradiction|]. reflexivity.
Qed.

Lemma calculateMatches_donor (d : Donor.t) (rs : list Recipient.t) :
  exists donorPHM,
    calculateMatches Math_pow parseFloat d rs =
    (results <- mapM (matchRecipient Math_pow parseFloat d donorPHM) rs ;;
     Normal (sort compareMatches results)).
Proof.
  unfold calculateMatches. rewrite calculatePHM_text. eexists. reflexivity.
Qed.

(** C7, as the code has it: no recipient record is skipped or reported on
    its own.  With a valid donor form and a loaded list, a recipient whose
    gender cell is not text stops the whole run -- one run-level error, the
    shown results left as they were -- and when every gender cell is text
    (and no blood-type cell names a member of [Object.prototype]) every
    recipient gets exactly one match record, whatever its age, height and
    weight cells hold. *)
Theorem handleCalculateMatches_batch (st : State) :
  donor_valid parseFloat (donor st) = true ->
  recipients st <> [] ->
  ((exists r, In r (recipients st) /\ is_text (Recipient.gender r) = false) ->
   matchResults (handleCalculateMatches Math_pow parseFloat st)
   = matchResults st /\
   errorMessage (handleCalculateMatches Math_pow parseFloat st)
   = CalculationError TypeError) /\
  (forallb (fun r => is_text (Recipient.gender r)) (recipients st) = true ->
   forallb bloodType_resolves (recipients st) = true ->
   errorMessage (handleCalculateMatches Math_pow parseFloat st) = NoMessage /\
   Permutation (map recipient
                    (matchResults (handleCalculateMatches Math_pow parseFloat st)))
               (recipients st)).
Proof.
  intros Hv Hr. rewrite (handleCalculateMatches_valid st Hv Hr).
  destruct (calculateMatches_donor (donor st) (recipients st)) as [p ->].
  split.
  - intros (r & Hin & Hg).
    rewrite (mapM_throw _ _ r Hin)
      by (eexists; now apply matchRecipient_throw).
    split; reflexivity.
  - intros Hg Hb. rewrite forallb_forall in Hg, Hb.
    destruct (mapM_normal (matchRecipient Math_pow parseFloat (donor st) p)
                recipient (recipients st)) as (ms & -> & Hm).
    { intros r Hin. apply matchRecipient_normal; auto. }
    simpl. split; [reflexivity|].
    rewrite <- Hm. apply Permutation_map. symmetry. apply sort_perm.
Qed.
End Builder.

Lemma handleCalculateMatches_batch_witness :
  donor_valid example_parseFloat example_donor = true /\
  Permutation
    (map recipient
       (matchResults
          (handleCalculateMatches example_pow example_parseFloat
             (initial_state [recipient_ok; recipient_bad_weight;
                             recipient_same_type]))))
    [recipient_ok; recipient_bad_weight; recipient_same_type].
Proof.
  split; [reflexivity|].
  apply (handleCalculateMatches_batch example_pow example_parseFloat
           (initial_state [recipient_ok; recipient_bad_weight;
                           recipient_same_type]));
    [reflexivity | discriminate | reflexivity | reflexivity].
Defined.

(** C7 as stated does not hold.  A row without a gender stops the
    run: the well-formed row next to it gets no match record and the only
    report is the run-level error.  A row whose weight is not a number is
    not skipped either: it is ranked like the others. *)
Lemma malformed_recipient_aborts_run :
  (donor_valid example_parseFloat example_donor = true /\
   well_formed recipient_ok = true /\
   well_formed recipient_no_gender = false /\
   well_formed recipient_bad_weight = false) /\
  (matchResults
     (handleCalculateMatches example_pow example_parseFloat
        (initial_state [recipient_no_gender; recipient_ok])) = [] /\
   errorMessage
     (handleCalculateMatches example_pow example_parseFloat
        (initial_state [recipient_no_gender; recipient_ok]))
   = CalculationError TypeError) /\
  (In recipient_bad_weight
      (map recipient
         (matchResults
            (handleCalculateMatches example_pow example_parseFloat
               (initial_state [recipient_bad_weight; recipient_ok])))) /\
   errorMessage
     (handleCalculateMatches example_pow example_parseFloat
        (initial_state [recipient_bad_weight; recipient_ok]))
   = NoMessage).
Proof.
  split; [repeat split; reflexivity|]. split.
  - split; vm_compute; reflexivity.
  - split; [|vm_compute; reflexivity].
    vm_compute. left. reflexivity.
Qed.

(** * Exact matches *)

(** With a donor type from the form's list, a record built as an exact
    match is built as a compatible one. *)
Lemma matchRecipient_exact_compatible
      (pow : float -> float -> float) (parseFloat : value -> float)
      (d : Donor.t) (donorPHM : float) (r : Recipient.t) (m : MatchRecord) :
  In (Donor.bloodType d) bloodTypes ->
  matchRecipient pow parseFloat d donorPHM r = Normal m ->
  exactBloodTypeMatch m = true -> bloodTypeMatch m = true.
Proof.
  intros Hd. unfold matchRecipient.
  destruct (calculatePHM _ _ _ _ _) as [p|e]; simpl; [|discriminate].
  destruct (isBloodTypeCompatible _ _) as [c|e] eqn:Hc; simpl; [|discriminate].
  intros [= <-]. simpl. intros Hex.
  destruct (Recipient.bloodType r) as [| | | |t]; try discriminate.
  simpl in Hex. apply String.eqb_eq in Hex. subst t.
  rewrite (chart_reflexive _ Hd) in Hc. now injection Hc.
Qed.

Lemma mapM_in {A B : Type} (f : A -> completion B) (l : list A) :
  forall ys y, mapM f l = Normal ys -> In y ys ->
  exists x, In x l /\ f x = Normal y.
Proof.
  induction l as [|a l IH]; simpl; intros ys y Hm Hy.
  - injection Hm as <-. contradiction.
  - destruct (f a) as [b|e] eqn:Hfa; simpl in Hm; [|discriminate].
    destruct (mapM f l) as [bs|e]; simpl in Hm; [|discriminate].
    injection Hm as <-. destruct Hy as [<-|Hy].
    + exists a. split; [now left|assumption].
    + destruct (IH bs y eq_refl Hy) as (x & Hx & Hfx).
      exists x. split; [now right|assumption].
Qed.

(** Every record of a run is built by the map callback. *)
Lemma calculateMatches_in
      (pow : float -> float -> float) (parseFloat : value -> float)
      (d : Donor.t) (rs : list Recipient.t) (ms : list MatchRecord)
      (m : MatchRecord) :
  calculateMatches pow parseFloat d rs = Normal ms -> In m ms ->
  exists donorPHM r,
    In r rs /\ matchRecipient pow parseFloat d donorPHM r = Normal m.
Proof.
  destruct (calculateMatches_donor pow parseFloat d rs) as [p ->].
  destruct (mapM _ rs) as [results|e] eqn:Hm; simpl; [|discriminate].
  intros [= <-] Hin.
  apply (Permutation_in _ (Permutation_sym (sort_perm compareMatches results)))
    in Hin.
  destruct (mapM_in _ _ _ _ Hm Hin) as (r & Hr & Hf). now exists p, r.
Qed.

(** C10: the chart is reflexive on the eight blood types, so every match
    record of a run (for a donor type of the form's list) that has
    exactBloodTypeMatch true has bloodTypeMatch true; and the ranker never
    lets an incompatible record pass a compatible one, whatever their
    exact-match flags: the comparator answers 1 for such a pair, and in the
    ranked list of records with numeric ratios no incompatible record stands
    before a compatible one. *)
Theorem exact_match_is_compatible :
  (forall t, In t bloodTypes ->
     isBloodTypeCompatible (VString t) (VString t) = Normal true) /\
  (forall (pow : float -> float -> float) (parseFloat : value -> float)
          (d : Donor.t) (rs : list Recipient.t) (ms : list MatchRecord)
          (m : MatchRecord),
     In (Donor.bloodType d) bloodTypes ->
     calculateMatches pow parseFloat d rs = Normal ms -> In m ms ->
     exactBloodTypeMatch m = true -> bloodTypeMatch m = true) /\
  (forall a b, bloodTypeMatch a = false -> bloodTypeMatch b = true ->
     compareMatches a b = 1 /\ ranks_before a b = false) /\
  (forall l a b, Forall numeric_ratio l ->
     bloodTypeMatch a = false -> bloodTypeMatch b = true ->
     ~ precedes a b (rank l)).
Proof.
  split; [exact chart_reflexive|].
  split.
  { intros pow parseFloat d rs ms m Hd Hc Hm.
    destruct (calculateMatches_in pow parseFloat d rs ms m Hc Hm)
      as (p & r & _ & Hr).
    exact (matchRecipient_exact_compatible pow parseFloat d p r m Hd Hr). }
  split.
  - intros a b Ha Hb. unfold compareMatches, ranks_before.
    rewrite Ha, Hb. split; reflexivity.
  - intros l a b Hl Ha Hb. apply rank_never_inverts; [assumption|].
    unfold ranks_before. now rewrite Ha, Hb.
Qed.

Lemma exact_match_is_compatible_witness :
  In (Donor.bloodType example_donor) bloodTypes /\
  exists ms m,
    calculateMatches example_pow example_parseFloat example_donor
                     [recipient_ok; recipient_same_type] = Normal ms /\
    In m ms /\ recipient m = recipient_same_type /\
    exactBloodTypeMatch m = true /\ bloodTypeMatch m = true.
Proof.
  assert (Hd : In (Donor.bloodType example_donor) bloodTypes)
    by (simpl; tauto).
  split; [exact Hd|].
  destruct (calculateMatches example_pow example_parseFloat example_donor
              [recipient_ok; recipient_same_type]) as [ms|e] eqn:Hc;
    [|vm_compute in Hc; discriminate].
  assert (Hms : exists m, In m ms /\ recipient m = recipient_same_type /\
                          exactBloodTypeMatch m = true).
  { vm_compute in Hc. injection Hc as <-.
    eexists. split; [left; reflexivity|]. split; reflexivity. }
  destruct Hms as (m & Hm & Hr & Hex).
  exists ms, m. repeat split; try assumption.
  destruct exact_match_is_compatible as (_ & H & _).
  exact (H example_pow example_parseFloat example_donor
           [recipient_ok; recipient_same_type] ms m Hd Hc Hm Hex).
Defined.

(** * Further properties of the engine *)

(** X1: the two classifiers agree: a ratio classed High Risk is always in
    the Severely Undersized band, so every other band is Acceptable. *)
Theorem high_risk_is_severely_undersized (r : float) :
  determineRiskLevel r = HighRisk -> determineMatchCategory r = CatU3.
Proof.
  unfold determineRiskLevel, determineMatchCategory.
  destruct (r <? 0.86) eqn:Hr; [|discriminate]. intros _.
  now rewrite (float_ltb_trans r 0.86 0.863 Hr eq_refl).
Qed.

Lemma high_risk_is_severely_undersized_witness :
  determineRiskLevel 0.8 = HighRisk /\ determineMatchCategory 0.8 = CatU3.
Proof.
  split; [reflexivity|].
  exact (high_risk_is_severely_undersized 0.8 eq_refl).
Defined.

(** X2: ranking is idempotent: ranking a ranked list of records with
    numeric ratios changes nothing. *)
Theorem rank_idempotent (l : list MatchRecord) :
  Forall numeric_ratio l -> rank (rank l) = rank l.
Proof.
  intros Hl. symmetry. apply rank_unique.
  - apply (Permutation_Forall (rank_perm l) Hl).
  - reflexivity.
  - now apply rank_sorted.
  - reflexivity.
Qed.

Lemma rank_idempotent_witness :
  Forall numeric_ratio sample_records /\
  rank (rank sample_records) = rank sample_records.
Proof.
  assert (Hl : Forall numeric_ratio sample_records) by (repeat constructor).
  split; [exact Hl|]. exact (rank_idempotent sample_records Hl).
Defined.

(** X3: the first row of a ranking is a best match: no record of the list
    ranks before it. *)
Theorem rank_head_is_best (l rest : list MatchRecord) (m : MatchRecord) :
  Forall numeric_ratio l -> rank l = m :: rest ->
  In m l /\ forall b, In b l -> ranks_before b m = false.
Proof.
  intros Hl E. split.
  - apply (Permutation_in _ (Permutation_sym (rank_perm l))).
    rewrite E. now left.
  - intros b Hb. rewrite <- compareMatches_negative.
    pose proof (rank_sorted l Hl) as Hs. rewrite E in Hs.
    apply (Permutation_in _ (rank_perm l)) in Hb. rewrite E in Hb.
    destruct Hb as [<-|Hb].
    + rewrite compareMatches_negative. apply ranks_before_irrefl.
    + inversion Hs as [|? ? _ Hm]; subst.
      rewrite Forall_forall in Hm. now apply Hm.
Qed.

Lemma rank_head_is_best_witness :
  Forall numeric_ratio sample_records /\
  forall b, In b sample_records ->
    ranks_before b (sample_record recipient_ok true true 0.95) = false.
Proof.
  assert (Hl : Forall numeric_ratio sample_records) by (repeat constructor).
  split; [exact Hl|].
  apply (rank_head_is_best sample_records
           [ sample_record recipient_ok true true 1.3;
             sample_record recipient_ok true false 1.05;
             sample_record recipient_same_type true false 1.05;
             sample_record recipient_ok true false 0.8;
             sample_record recipient_ok false false 1.0 ]
           (sample_record recipient_ok true true 0.95) Hl).
  reflexivity.
Defined.

Section RunFacts.
Variable Math_pow : float -> float -> float.
Variable parseFloat : value -> float.

Lemma mapM_length {A B : Type} (f : A -> completion B) (l : list A) :
  forall ys, mapM f l = Normal ys -> List.length ys = List.length l.
Proof.
  induction l as [|a l IH]; simpl; intros ys H.
  - now injection H as <-.
  - destruct (f a); simpl in H; [|discriminate].
    destruct (mapM f l) as [bs|]; simpl in H; [|discriminate].
    injection H as <-. simpl. now rewrite (IH bs eq_refl).
Qed.

Lemma mapM_Forall2 {A B : Type} (f : A -> completion B) (l : list A) :
  forall ys, mapM f l = Normal ys -> Forall2 (fun a b => f a = Normal b) l ys.
Proof.
  induction l as [|a l IH]; simpl; intros ys H.
  - injection H as <-. constructor.
  - destruct (f a) as [b|e] eqn:Hf; simpl in H; [|discriminate].
    destruct (mapM f l) as [bs|]; simpl in H; [|discriminate].
    injection H as <-. constructor; [exact Hf|now apply IH].
Qed.

(** A record the callback builds carries what the engine computed for it. *)
Lemma matchRecipient_fields (d : Donor.t) (p : float) (r : Recipient.t)
      (m : MatchRecord) :
  matchRecipient Math_pow parseFloat d p r = Normal m ->
  recipient m = r /\ donorPHM m = p /\
  calculatePHM Math_pow (Recipient.gender r) (parseFloat (Recipient.age r))
    (parseFloat (Recipient.height r)) (parseFloat (Recipient.weight r))
  = Normal (recipientPHM m) /\
  phmRatio m = p / recipientPHM m /\
  matchCategory m = determineMatchCategory (phmRatio m) /\
  riskLevel m = determineRiskLevel (phmRatio m) /\
  isBloodTypeCompatible (VString (Donor.bloodType d)) (Recipient.bloodType r)
  = Normal (bloodTypeMatch m) /\
  exactBloodTypeMatch m
  = strict_equal (VString (Donor.bloodType d)) (Recipient.bloodType r).
Proof.
  unfold matchRecipient.
  destruct (calculatePHM _ _ _ _ _) as [q|e]; simpl; [|discriminate].
  destruct (isBloodTypeCompatible _ _) as [c|e]; simpl; [|discriminate].
  intros [= <-]. simpl. repeat split; reflexivity.
Qed.

(** X4: the records of a completed run are coherent.  The callback builds
    exactly one record for each recipient, in the order of the list, and the
    result is a reordering of those records: none is dropped, doubled or
    altered by the sort.  The record of a recipient carries that recipient,
    the one donor PHM computed for the run, the PHM of the recipient, their
    quotient as ratio, and the category, risk level and blood-type flags of
    exactly that ratio and that pair of blood types. *)
Theorem calculateMatches_records (d : Donor.t) (rs : list Recipient.t)
        (ms : list MatchRecord) :
  calculateMatches Math_pow parseFloat d rs = Normal ms ->
  exists p results,
    calculatePHM Math_pow (VString (Donor.gender d))
      (parseFloat (VString (Donor.age d)))
      (parseFloat (VString (Donor.height d)))
      (parseFloat (VString (Donor.weight d))) = Normal p /\
    Permutation results ms /\
    Permutation (map recipient ms) rs /\
    List.length ms = List.length rs /\
    Forall2 (fun r m =>
      recipient m = r /\ donorPHM m = p /\
      calculatePHM Math_pow (Recipient.gender r)
        (parseFloat (Recipient.age r))
        (parseFloat (Recipient.height r))
        (parseFloat (Recipient.weight r))
      = Normal (recipientPHM m) /\
      phmRatio m = p / recipientPHM m /\
      matchCategory m = determineMatchCategory (phmRatio m) /\
      riskLevel m = determineRiskLevel (phmRatio m) /\
      isBloodTypeCompatible (VString (Donor.bloodType d))
        (Recipient.bloodType r) = Normal (bloodTypeMatch m) /\
      exactBloodTypeMatch m
      = strict_equal (VString (Donor.bloodType d)) (Recipient.bloodType r))
      rs results.
Proof.
  unfold calculateMatches.
  destruct (calculatePHM _ _ _ _ _) as [p|e]; simpl; [|discriminate].
  destruct (mapM _ rs) as [results|e] eqn:Hm; simpl; [|discriminate].
  intros [= <-]. exists p, results.
  pose proof (sort_perm compareMatches results) as Hp.
  pose proof (mapM_Forall2 _ _ _ Hm) as HF.
  assert (Hrec : map recipient results = rs).
  { clear Hm Hp. induction HF as [|r m rs' ms' Hf _ IH]; [reflexivity|].
    simpl. rewrite IH.
    now destruct (matchRecipient_fields d p r m Hf) as (-> & _). }
  split; [reflexivity|]. split; [exact Hp|]. split; [|split].
  - rewrite <- Hrec. apply Permutation_map. now symmetry.
  - rewrite <- (mapM_length _ _ _ Hm). apply Permutation_length.
    now symmetry.
  - clear Hm Hp Hrec. induction HF as [|r m rs' ms' Hf _ IH]; constructor.
    + destruct (matchRecipient_fields d p r m Hf) as (E & H).
      split; [exact E|exact H].
    + exact IH.
Qed.

(** X5: input that fails validation never reaches the calculation.  When a
    donor field is empty or not a number, or no recipient list is loaded,
    the handler shows a validation message and leaves the results and the
    loading flag as they were. *)
Theorem handleCalculateMatches_rejects (st : State) :
  donor_valid parseFloat (donor st) = false \/ recipients st = [] ->
  matchResults (handleCalculateMatches Math_pow parseFloat st)
  = matchResults st /\
  isLoading (handleCalculateMatches Math_pow parseFloat st) = isLoading st /\
  ((exists fields, fields <> [] /\
      errorMessage (handleCalculateMatches Math_pow parseFloat st)
      = MissingDonorFields fields) \/
   (exists field,
      errorMessage (handleCalculateMatches Math_pow parseFloat st)
      = DonorNotNumber field) \/
   errorMessage (handleCalculateMatches Math_pow parseFloat st) = NoRecipients).
Proof.
  intros H. unfold handleCalculateMatches. cbv zeta.
  destruct (filter (fun f => negb (truthy (VString (snd f (donor st)))))
              donorFields) as [|f fs] eqn:Hmiss; cbn [List.length Nat.eqb negb].
  - destruct (find (fun f => is_nan (parseFloat (VString (snd f (donor st)))))
                numericFields) as [f|] eqn:Hnum.
    + repeat split; try reflexivity. right. left. now eexists.
    + destruct (recipients st) as [|r rs] eqn:Hrs; cbn [List.length Nat.eqb negb].
      * repeat split; try reflexivity. right. now right.
      * exfalso. destruct H as [H|H]; [|discriminate].
        unfold donor_valid in H. apply andb_false_iff in H as [H|H].
        -- assert (Hall : forallb (fun f => truthy (VString (snd f (donor st))))
                            donorFields = true).
           { apply forallb_forall. intros f Hf.
             destruct (truthy (VString (snd f (donor st)))) eqn:Ht;
               [reflexivity|].
             assert (Hin : In f (filter
                       (fun f => negb (truthy (VString (snd f (donor st)))))
                       donorFields))
               by (apply filter_In; split; [assumption|now rewrite Ht]).
             rewrite Hmiss in Hin. contradiction. }
           congruence.
        -- assert (Hall : forallb
                     (fun f => negb (is_nan (parseFloat (VString (snd f (donor st))))))
                     numericFields = true).
           { apply forallb_forall. intros f Hf.
             destruct (is_nan (parseFloat (VString (snd f (donor st))))) eqn:Hn;
               [|reflexivity].
             pose proof (find_none _ _ Hnum f Hf) as Hc. simpl in Hc.
             congruence. }
           congruence.
  - repeat split; try reflexivity. left. eexists. split; [|reflexivity].
    discriminate.
Qed.
End RunFacts.

Lemma calculateMatches_records_witness :
  exists ms,
    calculateMatches example_pow example_parseFloat example_donor
      [recipient_ok; recipient_same_type] = Normal ms /\
    Permutation (map recipient ms) [recipient_ok; recipient_same_type].
Proof.
  destruct (calculateMatches example_pow example_parseFloat example_donor
              [recipient_ok; recipient_same_type]) as [ms|e] eqn:H;
    [|vm_compute in H; discriminate].
  exists ms. split; [reflexivity|].
  destruct (calculateMatches_records example_pow example_parseFloat
              example_donor [recipient_ok; recipient_same_type] ms H)
    as (p & results & _ & _ & Hperm & _).
  exact Hperm.
Defined.

Lemma handleCalculateMatches_rejects_witness :
  errorMessage
    (handleCalculateMatches example_pow example_parseFloat
       {| recipients := [recipient_ok];
          donor := Donor.mk "Donor" "male" "" "180" "" "O-";
          matchResults := sample_records; isLoading := false;
          errorMessage := NoMessage |})
  = MissingDonorFields ["age"; "weight"] /\
  matchResults
    (handleCalculateMatches example_pow example_parseFloat
       {| recipients := [recipient_ok];
          donor := Donor.mk "Donor" "male" "" "180" "" "O-";
          matchResults := sample_records; isLoading := false;
          errorMessage := NoMessage |})
  = sample_records.
Proof.
  split; [reflexivity|].
  apply (handleCalculateMatches_rejects example_pow example_parseFloat).
  left. reflexivity.
Defined.

(** X6: pressing Calculate twice is pressing it once: the handler reads only
    the donor form and the recipient list, which it never writes, so a
    second run on the state the first one left reproduces that state. *)
Theorem handleCalculateMatches_idempotent
        (pow : float -> float -> float) (parseFloat : value -> float)
        (st : State) :
  recipients (handleCalculateMatches pow parseFloat st) = recipients st /\
  donor (handleCalculateMatches pow parseFloat st) = donor st /\
  handleCalculateMatches pow parseFloat (handleCalculateMatches pow parseFloat st)
  = handleCalculateMatches pow parseFloat st.
Proof.
  unfold handleCalculateMatches. cbv zeta.
  destruct (filter (fun f => negb (truthy (VString (snd f (donor st)))))
              donorFields) as [|f fs] eqn:Hmiss; cbn [List.length Nat.eqb negb].
  - destruct (find (fun f => is_nan (parseFloat (VString (snd f (donor st)))))
                numericFields) as [f|] eqn:Hnum.
    + cbn [recipients donor matchResults isLoading errorMessage setError setMatchResults setIsLoading].
      rewrite Hmiss, Hnum. repeat split.
    + destruct (recipients st) as [|r rs] eqn:Hrs; cbn [List.length Nat.eqb negb].
      * cbn [recipients donor matchResults isLoading errorMessage setError setMatchResults setIsLoading].
        rewrite Hmiss, Hnum, Hrs. repeat split.
      * destruct (calculateMatches pow parseFloat (donor st) (r :: rs))
          as [sorted|e] eqn:Hc;
          cbn [recipients donor matchResults isLoading errorMessage setError setMatchResults setIsLoading];
          rewrite Hmiss, Hnum, Hrs; cbn [List.length Nat.eqb negb]; rewrite Hc;
          repeat split.
  - cbn [recipients donor matchResults isLoading errorMessage setError setMatchResults setIsLoading].
    rewrite Hmiss. repeat split.
Qed.

(** * The ABO-only policy *)

Section AboLookup.
Local Arguments String.eqb : simpl never.

Lemma abo_of_name_cases (s : string) :
  match abo_of_name s with
  | Some GroupA => s = "A"
  | Some GroupB => s = "B"
  | Some GroupAB => s = "AB"
  | Some GroupO => s = "O"
  | None => includes ["A"; "B"; "AB"; "O"] (VString s) = false
  end.
Proof.
  unfold abo_of_name, includes. cbn [existsb strict_equal].
  rewrite !(String.eqb_sym _ s).
  destruct (String.eqb s "A") eqn:EA; [now apply String.eqb_eq|].
  destruct (String.eqb s "B") eqn:EB; [now apply String.eqb_eq|].
  destruct (String.eqb s "AB") eqn:EAB; [now apply String.eqb_eq|].
  destruct (String.eqb s "O") eqn:EO; [now apply String.eqb_eq|].
  reflexivity.
Qed.

Lemma abo_of_name_truthy (s : string) (a : ABO) :
  abo_of_name (remove_first_sign s) = Some a -> truthy (VString s) = true.
Proof.
  destruct s; [|reflexivity]. intros H. vm_compute in H. discriminate.
Qed.

(** On text [getABOType] returns, and what it returns is the bare group
    name left after the first sign is removed. *)
Lemma getABOType_text (s : string) :
  getABOType (VString s) =
  Normal (match abo_of_name (remove_first_sign s) with
          | Some _ => Some (remove_first_sign s)
          | None => None
          end).
Proof.
  unfold getABOType.
  pose proof (abo_of_name_cases (remove_first_sign s)) as H.
  destruct (abo_of_name (remove_first_sign s)) as [a|] eqn:Ea.
  - rewrite (abo_of_name_truthy s a Ea). cbn [negb].
    destruct a; rewrite H; reflexivity.
  - destruct (truthy (VString s)); cbn [negb]; [|reflexivity].
    now rewrite H.
Qed.

(** X8: on text the ABO-only verdict is the subset rule on the two group
    names that remain once the first sign of each text is removed: it is
    true exactly when both are group names and the donor's group goes into
    the recipient's, whatever the Rhesus signs.  In particular it returns,
    and returns false, on every text that is no blood type, the names of the
    members of [Object.prototype] included. *)
Theorem isABOCompatible_text (d r : string) :
  isABOCompatible (VString d) (VString r) =
  Normal (match abo_of_name (remove_first_sign d),
                abo_of_name (remove_first_sign r) with
          | Some a, Some b => abo_transfusable a b
          | _, _ => false
          end).
Proof.
  unfold isABOCompatible. rewrite !getABOType_text. cbn [bind].
  pose proof (abo_of_name_cases (remove_first_sign d)) as Hd.
  pose proof (abo_of_name_cases (remove_first_sign r)) as Hr.
  destruct (abo_of_name (remove_first_sign d)) as [[]|];
    destruct (abo_of_name (remove_first_sign r)) as [[]|];
    try reflexivity; rewrite Hd, Hr; reflexivity.
Qed.
End AboLookup.

Lemma getABOType_cases (v : value) :
  (truthy v = true /\ is_text v = false /\ getABOType v = Throw TypeError) \/
  ((truthy v = false \/ is_text v = true) /\
   exists o, getABOType v = Normal o /\
     forall y, o = Some y ->
       exists l, get aboCompatibility (VString y) = OwnArray l).
Proof.
  destruct v as [| |b|n|s].
  - right. split; [now left|]. exists None. split; [reflexivity|discriminate].
  - right. split; [now left|]. exists None. split; [reflexivity|discriminate].
  - destruct b.
    + left. repeat split.
    + right. split; [now left|]. exists None.
      split; [reflexivity|discriminate].
  - destruct (truthy (VNumber n)) eqn:Tn.
    + left. repeat split. unfold getABOType. now rewrite Tn.
    + right. split; [now left|]. exists None. split; [|discriminate].
      unfold getABOType. now rewrite Tn.
  - right. split; [now right|]. rewrite getABOType_text.
    pose proof (abo_of_name_cases (remove_first_sign s)) as H.
    eexists. split; [reflexivity|]. intros y Hy.
    destruct (abo_of_name (remove_first_sign s)) as [[]|];
      try discriminate; injection Hy as <-; rewrite H; eexists; reflexivity.
Qed.

(** X7: [isABOCompatible] throws exactly when one of its arguments is
    present and is not text -- a numeric or boolean cell -- because such a
    value has no [replace]; on text and on absent values it always
    returns. *)
Theorem isABOCompatible_throws_iff (d r : value) :
  (exists e, isABOCompatible d r = Throw e) <->
  (truthy d = true /\ is_text d = false) \/
  (truthy r = true /\ is_text r = false).
Proof.
  unfold isABOCompatible.
  destruct (getABOType_cases d) as [(Td & Xd & ->)|(Hd & od & -> & Hod)];
    cbn [bind].
  { split; [intros _; left; now split|intros _; now eexists]. }
  destruct (getABOType_cases r) as [(Tr & Xr & ->)|(Hr & or & -> & Hor)];
    cbn [bind].
  { split; [intros _; right; now split|intros _; now eexists]. }
  split.
  - intros [e He]. exfalso. destruct od as [x|]; [|discriminate].
    destruct or as [y|]; [|discriminate].
    destruct (Hor y eq_refl) as [l Hl]. rewrite Hl in He. discriminate.
  - intros [[T X]|[T X]]; exfalso.
    + destruct Hd; congruence.
    + destruct Hr; congruence.
Qed.

(** X9: on the eight blood types the full chart of the current version is
    the ABO-only verdict of the waiting-list version with its Rhesus
    warning as a veto: a pair is compatible in the chart exactly when it is
    ABO compatible and raises no Rhesus warning. *)
Theorem chart_is_abo_without_rhesus_mismatch (d r : string) :
  In d bloodTypes -> In r bloodTypes ->
  exists abo warning,
    isABOCompatible (VString d) (VString r) = Normal abo /\
    hasRhesusMismatch (VString d) (VString r) = Normal warning /\
    isBloodTypeCompatible (VString d) (VString r)
    = Normal (abo && negb warning).
Proof.
  unfold bloodTypes. simpl. intros Hd Hr.
  repeat (destruct Hd as [<-|Hd]; [|]); try contradiction;
    repeat (destruct Hr as [<-|Hr]; [|]); try contradiction;
    do 2 eexists; repeat split; reflexivity.
Qed.

Lemma chart_is_abo_without_rhesus_mismatch_witness :
  isABOCompatible (VString "A+") (VString "A-") = Normal true /\
  hasRhesusMismatch (VString "A+") (VString "A-") = Normal true /\
  isBloodTypeCompatible (VString "A+") (VString "A-") = Normal false.
Proof.
  destruct (chart_is_abo_without_rhesus_mismatch "A+" "A-")
    as (abo & warning & Ha & Hw & Hc); [simpl; tauto | simpl; tauto |].
  vm_compute in Ha, Hw. injection Ha as <-. injection Hw as <-.
  split; [reflexivity|]. split; [reflexivity|]. exact Hc.
Defined.

(** * The waiting-list ranking *)

Lemma float_trichotomy (x y : float) :
  is_nan x = false -> is_nan y = false ->
  (x <? y) = true \/ (x =? y) = true \/ (y <? x) = true.
Proof.
  intros Hx Hy. rewrite !FloatAxioms.ltb_spec, FloatAxioms.eqb_spec.
  unfold SFltb, SFeqb.
  rewrite (SFcompare_antisym (Prim2SF x) (Prim2SF y)).
  destruct (float_compare_some x y Hx Hy) as [c ->]. destruct c; auto.
Qed.

Lemma float_eqb_ltb_l (x y z : float) :
  (x =? y) = true -> (x <? z) = (y <? z).
Proof.
  rewrite FloatAxioms.eqb_spec, !FloatAxioms.ltb_spec. unfold SFeqb, SFltb.
  destruct (SFcompare (Prim2SF x) (Prim2SF y)) as [[]|] eqn:E; try discriminate.
  intros _. now rewrite (SFcompare_eq_cong _ _ _ E).
Qed.

Lemma float_eqb_ltb_r (x y z : float) :
  (x =? y) = true -> (z <? x) = (z <? y).
Proof.
  rewrite FloatAxioms.eqb_spec, !FloatAxioms.ltb_spec. unfold SFeqb, SFltb.
  destruct (SFcompare (Prim2SF x) (Prim2SF y)) as [[]|] eqn:E; try discriminate.
  intros _. rewrite (SFcompare_antisym (Prim2SF x) (Prim2SF z)),
              (SFcompare_antisym (Prim2SF y) (Prim2SF z)).
  now rewrite (SFcompare_eq_cong _ _ _ E).
Qed.

Lemma float_ltb_neq (x y : float) : (x <? y) = true -> (x =? y) = false.
Proof.
  rewrite FloatAxioms.eqb_spec, FloatAxioms.ltb_spec. unfold SFeqb, SFltb.
  now destruct (SFcompare (Prim2SF x) (Prim2SF y)) as [[]|].
Qed.

Lemma float_eqb_not_nan (x y : float) :
  (x =? y) = true -> is_nan x = false /\ is_nan y = false.
Proof.
  rewrite FloatAxioms.eqb_spec. unfold SFeqb. intros H.
  split; apply float_is_nan_spec; intros E; rewrite E in H;
    [|rewrite SFcompare_nan_r in H]; discriminate.
Qed.

Lemma waiting_compare_negative (a b : Waiting.Match) :
  (Waiting.compare a b <? 0) = Waiting.ranks_before a b.
Proof.
  unfold Waiting.compare, Waiting.ranks_before.
  destruct (Waiting.riskLevel a), (Waiting.riskLevel b); simpl;
    try reflexivity;
    destruct (Waiting.aboMatch a), (Waiting.aboMatch b); simpl;
    try reflexivity;
    destruct (Waiting.status a =? Waiting.status b); simpl;
    apply float_ltb_sub_zero.
Qed.

Lemma waiting_compare_positive (a b : Waiting.Match) :
  (0 <? Waiting.compare a b) = Waiting.ranks_before b a.
Proof.
  unfold Waiting.compare, Waiting.ranks_before.
  rewrite (float_eqb_sym (Waiting.status b)).
  destruct (Waiting.riskLevel a), (Waiting.riskLevel b); simpl;
    try reflexivity;
    destruct (Waiting.aboMatch a), (Waiting.aboMatch b); simpl;
    try reflexivity;
    destruct (Waiting.status a =? Waiting.status b); simpl;
    apply float_gtb_sub_zero.
Qed.

Lemma waiting_compare_flip (a b : Waiting.Match) :
  (0 <? Waiting.compare a b) = (Waiting.compare b a <? 0).
Proof. now rewrite waiting_compare_positive, waiting_compare_negative. Qed.

(** The order on the pair (status, date): status first, date on equal
    status. *)
Lemma status_date_cotrans (sa sb sc da db dc : float) :
  is_nan sb = false -> is_nan db = false ->
  (if sa =? sc then da <? dc else sa <? sc) = true ->
  (if sa =? sb then da <? db else sa <? sb) = true \/
  (if sb =? sc then db <? dc else sb <? sc) = true.
Proof.
  intros Hsb Hdb.
  destruct (sa =? sc) eqn:Eac.
  - intros Hd. destruct (float_eqb_not_nan _ _ Eac) as [Hsa Hsc].
    destruct (float_trichotomy sa sb Hsa Hsb) as [H|[H|H]].
    + left. now rewrite (float_ltb_neq _ _ H).
    + rewrite H. rewrite float_eqb_sym in H.
      rewrite (float_eqb_trans _ _ _ H Eac).
      now apply float_ltb_cotrans.
    + right. rewrite (float_eqb_ltb_r _ _ sb Eac) in H.
      now rewrite (float_ltb_neq _ _ H).
  - intros Hlt. destruct (float_ltb_cotrans sa sb sc Hlt Hsb) as [H|H].
    + left. now rewrite (float_ltb_neq _ _ H).
    + right. now rewrite (float_ltb_neq _ _ H).
Qed.

Lemma waiting_ranks_before_cotrans (a b c : Waiting.Match) :
  Waiting.numeric_keys b ->
  Waiting.ranks_before a c = true ->
  Waiting.ranks_before a b = true \/ Waiting.ranks_before b c = true.
Proof.
  intros [Hs Hd]. unfold Waiting.ranks_before.
  destruct (Waiting.riskLevel a), (Waiting.riskLevel b), (Waiting.riskLevel c);
    simpl; try discriminate; auto;
    destruct (Waiting.aboMatch a), (Waiting.aboMatch b), (Waiting.aboMatch c);
    simpl; try discriminate; auto;
    now apply status_date_cotrans.
Qed.

Lemma waiting_compare_cotrans (a b c : Waiting.Match) :
  Waiting.numeric_keys b ->
  (Waiting.compare a c <? 0) = true ->
  (Waiting.compare a b <? 0) = true \/ (Waiting.compare b c <? 0) = true.
Proof. rewrite !waiting_compare_negative. apply waiting_ranks_before_cotrans. Qed.

Lemma waiting_same_keys_not_after (z x y : Waiting.Match) :
  Waiting.same_keys z x = true -> Waiting.same_keys z y = true ->
  (0 <? Waiting.compare x y) = false.
Proof.
  rewrite waiting_compare_positive.
  unfold Waiting.same_keys, Waiting.ranks_before. intros Hx Hy.
  apply andb_true_iff in Hx as [Hx Hdx]. apply andb_true_iff in Hx as [Hx Hsx].
  apply andb_true_iff in Hx as [Hrx Hax].
  apply andb_true_iff in Hy as [Hy Hdy]. apply andb_true_iff in Hy as [Hy Hsy].
  apply andb_true_iff in Hy as [Hry Hay].
  apply Bool.eqb_prop in Hax, Hay. rewrite <- Hax, <- Hay, Bool.eqb_reflx.
  rewrite float_eqb_sym in Hsy, Hdy.
  rewrite (float_eqb_trans _ _ _ Hsy Hsx).
  destruct (Waiting.riskLevel z), (Waiting.riskLevel x), (Waiting.riskLevel y);
    try discriminate; simpl;
    apply (float_eqb_ltb_false _ _ (float_eqb_trans _ _ _ Hdy Hdx)).
Qed.

Lemma waiting_ranks_before_irrefl (a : Waiting.Match) :
  Waiting.ranks_before a a = false.
Proof.
  rewrite <- waiting_compare_negative.
  destruct (Waiting.compare a a <? 0) eqn:E; [|reflexivity].
  pose proof (float_ltb_asym _ _ E) as H.
  rewrite waiting_compare_flip in H. congruence.
Qed.

Lemma waiting_rank_sorted (l : list Waiting.Match) :
  Forall Waiting.numeric_keys l ->
  StronglySorted (fun y x => (Waiting.compare x y <? 0) = false)
                 (Waiting.rank l).
Proof.
  apply (sort_sorted Waiting.compare Waiting.numeric_keys waiting_compare_flip
           waiting_compare_cotrans).
Qed.

(** X10: the waiting-list comparator puts [a] before [b] exactly when [a]
    is Acceptable and [b] High Risk; on equal risk, when [a] is ABO
    compatible and [b] is not; on a further tie, when [a] has the lower
    status number; and on equal status, when [a] was added earlier.  So risk
    outranks blood group here.  In the ranked list of records whose status
    and date are numbers, a record that ranks before another stands before
    it, never behind it. *)
Theorem waiting_rank_follows_policy (l : list Waiting.Match) :
  Forall Waiting.numeric_keys l ->
  (forall a b, (Waiting.compare a b <? 0) = Waiting.ranks_before a b) /\
  Permutation l (Waiting.rank l) /\
  (forall a b, In a l -> In b l -> Waiting.ranks_before a b = true ->
     precedes a b (Waiting.rank l) /\ ~ precedes b a (Waiting.rank l)).
Proof.
  intros Hl. split; [exact waiting_compare_negative|].
  split; [apply sort_perm|].
  intros a b Ha Hb Hab.
  assert (Hno : ~ precedes b a (Waiting.rank l)).
  { intros (l1 & l2 & l3 & E).
    pose proof (waiting_rank_sorted l Hl) as Hs. rewrite E in Hs.
    assert (H : (Waiting.compare a b <? 0) = false).
    { apply (sorted_split Waiting.compare l1 (l2 ++ a :: l3) b Hs).
      apply in_or_app. right. now left. }
    rewrite waiting_compare_negative, Hab in H. discriminate. }
  split; [|assumption].
  assert (Hne : a <> b).
  { intros ->. rewrite waiting_ranks_before_irrefl in Hab. discriminate. }
  destruct (precedes_total a b (Waiting.rank l)) as [H|H]; auto.
  - apply (Permutation_in _ (sort_perm Waiting.compare l)). assumption.
  - apply (Permutation_in _ (sort_perm Waiting.compare l)). assumption.
  - contradiction.
Qed.

Lemma waiting_rank_follows_policy_witness :
  Forall Waiting.numeric_keys waiting_samples /\
  precedes (waiting_sample 1.0 false 3 50) (waiting_sample 0.8 true 1 100)
           (Waiting.rank waiting_samples) /\
  precedes (waiting_sample 1.0 true 2 30) (waiting_sample 1.0 true 2 70)
           (Waiting.rank waiting_samples).
Proof.
  assert (Hl : Forall Waiting.numeric_keys waiting_samples)
    by (repeat constructor).
  destruct (waiting_rank_follows_policy waiting_samples Hl) as (_ & _ & H).
  split; [exact Hl|]. split.
  - apply H; [simpl; tauto | simpl; tauto | reflexivity].
  - apply H; [simpl; tauto | simpl; tauto | reflexivity].
Defined.

Lemma waiting_same_keys_refl_l (a b : Waiting.Match) :
  Waiting.same_keys a b = true -> Waiting.same_keys a a = true.
Proof.
  unfold Waiting.same_keys. intros H.
  apply andb_true_iff in H as [H Hd]. apply andb_true_iff in H as [H Hs].
  rewrite Bool.eqb_reflx.
  assert (Hs' : (Waiting.status a =? Waiting.status a) = true)
    by (apply (float_eqb_trans _ _ _ Hs); now rewrite float_eqb_sym).
  assert (Hd' : (Waiting.dateAdded a =? Waiting.dateAdded a) = true)
    by (apply (float_eqb_trans _ _ _ Hd); now rewrite float_eqb_sym).
  rewrite Hs', Hd'. now destruct (Waiting.riskLevel a).
Qed.

(** X11: the waiting-list ranking is stable: records that tie on risk, ABO
    compatibility, status and date keep the order of the sheet. *)
Theorem waiting_rank_stable (l : list Waiting.Match) :
  Forall Waiting.numeric_keys l ->
  (forall k, filter (Waiting.same_keys k) (Waiting.rank l)
             = filter (Waiting.same_keys k) l) /\
  (forall a b, Waiting.same_keys a b = true ->
     precedes a b l -> precedes a b (Waiting.rank l)).
Proof.
  intros _.
  assert (Hf : forall k, filter (Waiting.same_keys k) (Waiting.rank l)
                         = filter (Waiting.same_keys k) l).
  { intros k. apply sort_filter. apply waiting_same_keys_not_after. }
  split; [exact Hf|].
  intros a b Hab Hpre.
  pose proof (waiting_same_keys_refl_l a b Hab) as Haa.
  apply (precedes_filter (Waiting.same_keys a) a b (Waiting.rank l) Haa Hab).
  rewrite Hf.
  now apply (precedes_filter (Waiting.same_keys a) a b l Haa Hab).
Qed.

Lemma waiting_rank_stable_witness :
  Forall Waiting.numeric_keys waiting_samples /\
  precedes (waiting_sample 1.0 true 2 70) (waiting_sample 1.1 true 2 70)
           (Waiting.rank waiting_samples).
Proof.
  assert (Hl : Forall Waiting.numeric_keys waiting_samples)
    by (repeat constructor).
  split; [exact Hl|].
  apply (waiting_rank_stable waiting_samples Hl); [reflexivity|].
  exists [ waiting_sample 0.8 true 1 100; waiting_sample 1.0 false 3 50;
           waiting_sample 1.0 true 5 10 ],
         [ waiting_sample 1.0 true 2 30 ], [].
  reflexivity.
Defined.

Lemma Permutation_filter_length {A : Type} (p : A -> bool) (l l' : list A) :
  Permutation l l' ->
  List.length (filter p l) = List.length (filter p l').
Proof.
  induction 1 as [|x l l' _ IH|x y l|l l' l'' _ IH1 _ IH2]; simpl.
  - reflexivity.
  - destruct (p x); simpl; now rewrite IH.
  - destruct (p x), (p y); reflexivity.
  - now rewrite IH1.
Qed.

Section WaitingRun.
Variable Math_pow : float -> float -> float.
Variable parseFloat : value -> float.
Variable parseInt : value -> float.

(** The status of a record is a number other than zero: what [parseInt]
    read, or 7 when it read nothing usable. *)
Lemma status_of_numeric (cell : value) :
  is_nan (Waiting.status_of parseInt cell) = false /\
  is_zero (Waiting.status_of parseInt cell) = false /\
  (Waiting.status_of parseInt cell = parseInt cell \/
   (truthy (VNumber (parseInt cell)) = false /\
    Waiting.status_of parseInt cell = 7)).
Proof.
  unfold Waiting.status_of. cbv zeta.
  destruct (truthy (VNumber (parseInt cell))) eqn:T.
  - simpl in T. apply negb_true_iff, orb_false_iff in T as [Hn Hz].
    repeat split; auto.
  - repeat split; auto.
Qed.

Lemma waiting_matchRecipient_fields (d : Donor.t) (p : float)
      (r : Waiting.Recipient) (m : Waiting.Match) :
  Waiting.matchRecipient Math_pow parseFloat parseInt d p r = Normal m ->
  Waiting.recipient m = r /\
  Waiting.status m = Waiting.status_of parseInt (Waiting.status_cell r) /\
  Waiting.dateAdded m = Waiting.dateAdded_of (Waiting.dateadded r) /\
  isABOCompatible (VString (Donor.bloodType d))
    (Recipient.bloodType (Waiting.base r)) = Normal (Waiting.aboMatch m) /\
  hasRhesusMismatch (VString (Donor.bloodType d))
    (Recipient.bloodType (Waiting.base r)) = Normal (Waiting.rhesusWarning m).
Proof.
  unfold Waiting.matchRecipient.
  destruct (calculatePHM _ _ _ _ _) as [q|e]; simpl; [|discriminate].
  destruct (isABOCompatible _ _) as [c|e]; simpl; [|discriminate].
  destruct (hasRhesusMismatch _ _) as [w|e]; simpl; [|discriminate].
  intros [= <-]. simpl. repeat split; reflexivity.
Qed.

(** X12: what a completed waiting-list run guarantees.  The callback
    builds exactly one record for each recipient, in the order of the list,
    and the result is a reordering of those records: none is dropped or
    doubled.  The record of a recipient has as status the number [parseInt]
    read in the status cell, and 7 when that is [NaN] or zero, so never
    [NaN] and never zero; its date is the one of the row, and its ABO flag
    and Rhesus warning are the verdicts on the donor's and the recipient's
    blood types.  The warning counter is the number of records flagged with
    a Rhesus warning; and when every recipient has a valid date, every
    record has numeric sort keys, so the ranking is ordered by the
    policy. *)
Theorem waiting_run_keys (d : Donor.t) (rs : list Waiting.Recipient)
        (ms : list Waiting.Match) (warnings : nat) :
  Waiting.calculateMatches Math_pow parseFloat parseInt d rs
  = Normal (ms, warnings) ->
  exists results,
    Permutation results ms /\
    Permutation (map Waiting.recipient ms) rs /\
    List.length ms = List.length rs /\
    warnings = List.length (filter Waiting.rhesusWarning ms) /\
    Forall2 (fun r m =>
      Waiting.recipient m = r /\
      Waiting.status m
      = (if truthy (VNumber (parseInt (Waiting.status_cell r)))
         then parseInt (Waiting.status_cell r) else 7) /\
      is_nan (Waiting.status m) = false /\
      is_zero (Waiting.status m) = false /\
      Waiting.dateAdded m = Waiting.dateAdded_of (Waiting.dateadded r) /\
      isABOCompatible (VString (Donor.bloodType d))
        (Recipient.bloodType (Waiting.base r))
      = Normal (Waiting.aboMatch m) /\
      hasRhesusMismatch (VString (Donor.bloodType d))
        (Recipient.bloodType (Waiting.base r))
      = Normal (Waiting.rhesusWarning m))
      rs results /\
    ((forall r, In r rs ->
        exists t, Waiting.dateadded r = Some t /\ is_nan t = false) ->
     Forall Waiting.numeric_keys ms).
Proof.
  unfold Waiting.calculateMatches.
  destruct (calculatePHM _ _ _ _ _) as [p|e]; simpl; [|discriminate].
  destruct (mapM _ rs) as [results|e] eqn:Hm; simpl; [|discriminate].
  intros [= <- <-]. exists results.
  pose proof (sort_perm Waiting.compare results) as Hp.
  pose proof (mapM_Forall2 _ _ _ Hm) as HF.
  assert (Hrec : map Waiting.recipient results = rs).
  { clear Hm Hp. induction HF as [|r m rs' ms' Hf _ IH]; [reflexivity|].
    simpl. rewrite IH.
    now destruct (waiting_matchRecipient_fields d p r m Hf) as (-> & _). }
  split; [exact Hp|]. split; [|split; [|split; [|split]]].
  - rewrite <- Hrec. apply Permutation_map. now symmetry.
  - rewrite <- (mapM_length _ _ _ Hm). apply Permutation_length.
    now symmetry.
  - now apply Permutation_filter_length.
  - clear Hm Hp Hrec. induction HF as [|r m rs' ms' Hf _ IH]; constructor.
    + destruct (waiting_matchRecipient_fields d p r m Hf)
        as (E & Hs & Hd & Ha & Hw).
      destruct (status_of_numeric (Waiting.status_cell r)) as (H1 & H2 & _).
      rewrite Hs. repeat split; assumption || reflexivity.
    + exact IH.
  - intros Hdates. apply Forall_forall. intros m Hin.
    apply (Permutation_in _ (Permutation_sym Hp)) in Hin.
    destruct (mapM_in _ _ _ _ Hm Hin) as (r & Hr & Hf).
    destruct (waiting_matchRecipient_fields d p r m Hf) as (_ & Hs & Hd & _).
    destruct (Hdates r Hr) as (t & Ht & Hn).
    split.
    + rewrite Hs. apply status_of_numeric.
    + rewrite Hd, Ht. exact Hn.
Qed.
End WaitingRun.

Lemma waiting_run_keys_witness :
  exists ms,
    Waiting.calculateMatches example_pow example_parseFloat example_parseInt
      example_donor waiting_rows = Normal (ms, 0%nat) /\
    map Waiting.status ms = [2; 7] /\
    Permutation (map Waiting.recipient ms) waiting_rows /\
    Forall Waiting.numeric_keys ms.
Proof.
  destruct (Waiting.calculateMatches example_pow example_parseFloat
              example_parseInt example_donor waiting_rows)
    as [[ms n]|e] eqn:Hc; [|vm_compute in Hc; discriminate].
  pose proof (waiting_run_keys example_pow example_parseFloat
                example_parseInt example_donor waiting_rows ms n Hc)
    as (results & _ & Hperm & _ & _ & _ & Hk).
  assert (Hn : n = 0%nat /\ map Waiting.status ms = [2; 7]).
  { vm_compute in Hc. injection Hc as <- <-. split; reflexivity. }
  destruct Hn as [-> Hs].
  exists ms. split; [reflexivity|]. split; [exact Hs|].
  split; [exact Hperm|].
  apply Hk. intros r Hr. simpl in Hr.
  destruct Hr as [<-|[<-|[]]]; eexists; split; reflexivity.
Defined.

(** X13: the priority colour of the result table.  Statuses up to 2 show
    as high priority, above 2 and up to 4 as medium, above 4 as low; and a
    recipient whose status cell gave no usable number, whose status is
    therefore 7, shows as low priority. *)
Theorem priority_bands (parseInt : value -> float) (s : float) :
  is_nan s = false ->
  (Waiting.priority s = Waiting.PriorityHigh <-> (s <=? 2) = true) /\
  (Waiting.priority s = Waiting.PriorityMedium <->
     (2 <? s) = true /\ (s <=? 4) = true) /\
  (Waiting.priority s = Waiting.PriorityLow <-> (4 <? s) = true) /\
  (forall cell, truthy (VNumber (parseInt cell)) = false ->
     Waiting.priority (Waiting.status_of parseInt cell) = Waiting.PriorityLow).
Proof.
  intros Hs.
  rewrite !(fun c H => float_leb_negb_ltb s c Hs H) by reflexivity.
  pose proof (float_ltb_below 2 s) as H24.
  unfold Waiting.priority.
  rewrite !(fun c H => float_leb_negb_ltb s c Hs H) by reflexivity.
  assert (H : (4 <? s) = true -> (2 <? s) = true)
    by (intros H4; exact (float_ltb_trans 2 4 s eq_refl H4)).
  split; [|split; [|split]].
  - destruct (2 <? s); simpl; split; intros; try reflexivity; try discriminate.
    destruct (4 <? s); discriminate.
  - destruct (2 <? s), (4 <? s); simpl; split; intros;
      try reflexivity; try discriminate; try tauto;
      try (now split); try (destruct H0; discriminate).
  - destruct (2 <? s), (4 <? s); simpl; split; intros;
      try reflexivity; try discriminate. discriminate (H eq_refl).
  - intros cell Hc. unfold Waiting.status_of. cbv zeta. now rewrite Hc.
Qed.

Lemma priority_bands_witness :
  is_nan 3 = false /\ Waiting.priority 3 = Waiting.PriorityMedium.
Proof.
  split; [reflexivity|].
  destruct (priority_bands example_parseInt 3 eq_refl) as (_ & H & _).
  apply H. split; reflexivity.
Defined.

(** * The upload of the recipient sheet *)

Lemma row_get_set (k k' : string) (v : value) (o : row_object) :
  k <> "__proto__" ->
  row_get (row_set k v o) k' = if String.eqb k k' then v else row_get o k'.
Proof.
  intros Hk. unfold row_set.
  destruct (String.eqb k "__proto__") eqn:E; [|reflexivity].
  apply String.eqb_eq in E. contradiction.
Qed.

Lemma row_get_delete (k k' : string) (o : row_object) :
  row_get (row_delete k o) k'
  = if String.eqb k k' then VUndefined else row_get o k'.
Proof.
  induction o as [|[k0 v] o IH]; simpl.
  - now destruct (String.eqb k k').
  - destruct (String.eqb k0 k) eqn:E0; simpl.
    + apply String.eqb_eq in E0. subst k0. rewrite IH.
      now destruct (String.eqb k k').
    + rewrite IH. destruct (String.eqb k0 k') eqn:E1; [|reflexivity].
      apply String.eqb_eq in E1. subst k'.
      now rewrite String.eqb_sym, E0.
Qed.

Lemma lower_ascii_not_T (c : ascii) : lower_ascii c <> "T"%char.
Proof.
  destruct c as [[] [] [] [] [] [] [] []]; intros H; vm_compute in H;
    discriminate.
Qed.

(** No lowercased text is the camel-case key. *)
Lemma lower_not_bloodType (s : string) : lower s <> "bloodType".
Proof.
  intros H.
  do 5 (destruct s as [|? s]; [discriminate|]; simpl in H;
        injection H as _ H).
  destruct s as [|c s]; [discriminate|]. simpl in H. injection H as H _.
  exact (lower_ascii_not_T c H).
Qed.

(** The normalisation touches the two blood type keys only. *)
Lemma normalize_bloodType_other (raw : row_object) (k : string) :
  k <> "bloodtype" -> k <> "bloodType" ->
  row_get (normalize_bloodType raw) k = row_get raw k.
Proof.
  intros Hk1 Hk2. unfold normalize_bloodType.
  destruct (truthy (row_get raw "bloodtype")
            && negb (truthy (row_get raw "bloodType"))); [|reflexivity].
  rewrite row_get_delete, row_get_set by discriminate.
  destruct (String.eqb "bloodtype" k) eqn:E1;
    [apply String.eqb_eq in E1; congruence|].
  destruct (String.eqb "bloodType" k) eqn:E2;
    [apply String.eqb_eq in E2; congruence|].
  reflexivity.
Qed.

Section UploadFacts.
Variable numberToString : float -> string.

(** The key a cell of column [col] is stored under. *)
Local Abbreviation header_key headers col :=
  (match header_of headers col with
   | Some h => h
   | None => "undefined"
   end).

(** A key that every cell of the row maps to the same value reads as that
    value. *)
Lemma read_cells_get (headers : list (nat * string)) (k : string) (v0 : value)
      (cells : list (nat * value)) : forall o : row_object,
  k <> "__proto__" ->
  (forall col v, In (col, v) cells -> header_key headers col = k -> v = v0) ->
  (exists col, In (col, v0) cells /\ header_key headers col = k)
  \/ row_get o k = v0 ->
  row_get (read_cells headers cells o) k = v0.
Proof.
  induction cells as [|[c v] cells IH]; intros o Hk Hall Hex.
  - destruct Hex as [(col & [] & _)|H]. exact H.
  - simpl. apply IH; [assumption| |].
    + intros col v' Hin. apply Hall. now right.
    + destruct (String.eqb (header_key headers c) k) eqn:Ec.
      * right. apply String.eqb_eq in Ec.
        rewrite row_get_set by congruence.
        rewrite Ec, String.eqb_refl. apply (Hall c v); [now left|assumption].
      * destruct Hex as [(col & [Hin|Hin] & Hkey)|H].
        -- injection Hin as -> ->. rewrite Hkey, String.eqb_refl in Ec.
           discriminate.
        -- left. now exists col.
        -- right. unfold row_set.
           destruct (String.eqb (header_key headers c) "__proto__");
             [assumption|]. simpl. now rewrite Ec.
Qed.

(** A key that no cell of the row maps to keeps what it held. *)
Lemma read_cells_get_absent (headers : list (nat * string)) (k : string)
      (cells : list (nat * value)) : forall o : row_object,
  (forall col v, In (col, v) cells -> header_key headers col <> k) ->
  row_get (read_cells headers cells o) k = row_get o k.
Proof.
  induction cells as [|[c v] cells IH]; intros o Hall; [reflexivity|].
  simpl. rewrite IH by (intros col v' Hin; apply (Hall col v'); now right).
  unfold row_set.
  destruct (String.eqb (header_key headers c) "__proto__"); [reflexivity|].
  simpl. destruct (String.eqb (header_key headers c) k) eqn:E; [|reflexivity].
  apply String.eqb_eq in E. exfalso. apply (Hall c v); [now left|assumption].
Qed.

(** Every header text comes from a cell of row 1, lowercased. *)
Lemma read_headers_from_cell (cells : list (nat * value)) :
  forall (acc headers : list (nat * string)) (col : nat) (h : string),
  read_headers numberToString cells acc = Normal headers ->
  header_of headers col = Some h ->
  (exists v s, In (col, v) cells /\
               value_toString numberToString v = Normal s /\ h = lower s)
  \/ header_of acc col = Some h.
Proof.
  induction cells as [|[c v] cells IH]; simpl; intros acc headers col h Hr Hh.
  - injection Hr as <-. now right.
  - destruct (value_toString numberToString v) as [s|e] eqn:Hs; simpl in Hr;
      [|discriminate].
    destruct (IH _ _ _ _ Hr Hh) as [(v' & s' & Hin & Hv & ->)|Hacc].
    + left. exists v', s'. repeat split; auto.
    + simpl in Hacc. destruct (Nat.eqb c col) eqn:Ec; [|now right].
      apply Nat.eqb_eq in Ec. subst c. injection Hacc as <-.
      left. exists v, s. repeat split; auto.
Qed.

Lemma read_headers_keeps (cells : list (nat * value)) :
  forall (acc headers : list (nat * string)) (col : nat),
  read_headers numberToString cells acc = Normal headers ->
  ~ In col (map fst cells) ->
  header_of headers col = header_of acc col.
Proof.
  induction cells as [|[c v] cells IH]; simpl; intros acc headers col Hr Hn.
  - now injection Hr as <-.
  - destruct (value_toString numberToString v) as [s|e]; simpl in Hr;
      [|discriminate].
    rewrite (IH _ _ _ Hr) by tauto. simpl.
    destruct (Nat.eqb c col) eqn:Ec; [|reflexivity].
    apply Nat.eqb_eq in Ec. tauto.
Qed.

(** With distinct columns, the header of a column is the lowercased text of
    its cell in row 1. *)
Lemma read_headers_of_cell (cells : list (nat * value)) :
  forall (acc headers : list (nat * string)) (col : nat) (v : value)
         (s : string),
  NoDup (map fst cells) ->
  read_headers numberToString cells acc = Normal headers ->
  In (col, v) cells -> value_toString numberToString v = Normal s ->
  header_of headers col = Some (lower s).
Proof.
  induction cells as [|[c v0] cells IH]; simpl;
    intros acc headers col v s Hnd Hr Hin Hs; [contradiction|].
  inversion Hnd as [|? ? Hc Hnd']; subst.
  destruct (value_toString numberToString v0) as [s0|e] eqn:Hs0; simpl in Hr;
    [|discriminate].
  destruct Hin as [Hin|Hin].
  - injection Hin as -> ->. rewrite (read_headers_keeps _ _ _ _ Hr Hc).
    simpl. rewrite Nat.eqb_refl. congruence.
  - exact (IH _ _ _ _ _ Hnd' Hr Hin Hs).
Qed.

Lemma header_of_in (headers : list (nat * string)) (col : nat) (h : string) :
  header_of headers col = Some h -> exists h', In (col, h') headers.
Proof.
  induction headers as [|[c h0] headers IH]; simpl; [discriminate|].
  destruct (Nat.eqb c col) eqn:Ec.
  - apply Nat.eqb_eq in Ec. subst c. intros _. exists h0. now left.
  - intros H. destruct (IH H) as [h' Hin]. exists h'. now right.
Qed.

Lemma headers_include_iff (headers : list (nat * string)) (name : string) :
  headers_include headers name = true <->
  exists col, header_of headers col = Some name.
Proof.
  unfold headers_include. rewrite existsb_exists. split.
  - intros ([c h] & _ & H). simpl in H. exists c.
    destruct (header_of headers c) as [h'|]; [|discriminate].
    apply String.eqb_eq in H. now subst.
  - intros (col & H). destruct (header_of_in _ _ _ H) as [h' Hin].
    exists (col, h'). split; [assumption|]. simpl.
    now rewrite H, String.eqb_refl.
Qed.

(** A column name is found among the headers exactly when some cell of
    row 1 reads as it in some letter case. *)
Lemma headers_include_cell (cells : list (nat * value))
      (headers : list (nat * string)) (name : string) :
  NoDup (map fst cells) ->
  read_headers numberToString cells [] = Normal headers ->
  headers_include headers name = true <->
  exists col v s, In (col, v) cells /\
                  value_toString numberToString v = Normal s /\
                  lower s = name.
Proof.
  intros Hnd Hr. rewrite headers_include_iff. split.
  - intros (col & H).
    destruct (read_headers_from_cell _ _ _ _ _ Hr H)
      as [(v & s & Hin & Hv & ->)|Hacc]; [|discriminate].
    now exists col, v, s.
  - intros (col & v & s & Hin & Hv & <-). exists col.
    exact (read_headers_of_cell _ _ _ _ _ _ Hnd Hr Hin Hv).
Qed.

(** X14: the required-columns check is exact and case-insensitive.  When
    the upload stops with the missing-columns message, the columns it names
    are exactly the required ones that no cell of the header row spells, in
    any letter case; there is at least one; and the rows loaded before stay
    in place. *)
Theorem upload_missing_columns (ws : worksheet) (st : UploadState)
        (cols : list string) :
  NoDup (map fst (getRow1 ws)) ->
  upload_error (handleFileUpload numberToString (Loaded (Some ws)) st)
  = MissingColumns cols ->
  loaded_rows (handleFileUpload numberToString (Loaded (Some ws)) st)
  = loaded_rows st /\
  cols <> [] /\
  forall c, In c cols <->
    In c requiredColumns /\
    forall col v s, In (col, v) (getRow1 ws) ->
      value_toString numberToString v = Normal s -> lower s <> c.
Proof.
  intros Hnd. unfold handleFileUpload. cbv zeta.
  destruct (read_headers numberToString (getRow1 ws) []) as [headers|e] eqn:Hr;
    [|discriminate].
  destruct (filter (fun col => negb (headers_include headers col))
              requiredColumns) as [|c0 cs] eqn:Hf; cbn [List.length Nat.eqb negb].
  - destruct (Nat.eqb (List.length (read_rows headers ws)) 0);
      [discriminate|].
    simpl. destruct (negb (headers_include headers "bloodtype")); discriminate.
  - simpl. intros [= <-]. split; [reflexivity|]. split; [discriminate|].
    intros c. rewrite <- Hf, filter_In, negb_true_iff.
    split; intros [Hc Hn]; (split; [assumption|]).
    + intros col v s Hin Hv Hl.
      assert (H : headers_include headers c = true)
        by (apply (headers_include_cell _ _ _ Hnd Hr); now exists col, v, s).
      congruence.
    + destruct (headers_include headers c) eqn:Hi; [|reflexivity].
      apply (headers_include_cell _ _ _ Hnd Hr) in Hi
        as (col & v & s & Hin & Hv & Hl).
      exfalso. exact (Hn col v s Hin Hv Hl).
Qed.

Lemma read_rows_length (headers : list (nat * string)) (ws : worksheet) :
  List.length (read_rows headers ws)
  = List.length (filter (fun r => negb (Nat.eqb (fst r) 1)) ws).
Proof.
  induction ws as [|[n cells] ws IH]; [reflexivity|]. simpl.
  destruct (Nat.eqb n 1); simpl; now rewrite IH.
Qed.

(** X15: the loaded rows change only when an upload goes through.  If the
    handler leaves other rows than it found, a worksheet was read whose
    header row has every required column, the new list has one row object
    for each sheet row other than row 1 and is not empty, the loading flag
    is off, and the only message that can stand is the warning that there
    is no blood type column -- shown exactly when no header spells
    'bloodtype'. *)
Theorem upload_replaces_rows (u : upload) (st : UploadState) :
  loaded_rows (handleFileUpload numberToString u st) <> loaded_rows st ->
  exists ws headers,
    u = Loaded (Some ws) /\
    read_headers numberToString (getRow1 ws) [] = Normal headers /\
    (forall c, In c requiredColumns -> headers_include headers c = true) /\
    List.length (loaded_rows (handleFileUpload numberToString u st))
    = List.length (filter (fun r => negb (Nat.eqb (fst r) 1)) ws) /\
    loaded_rows (handleFileUpload numberToString u st) <> [] /\
    upload_isLoading (handleFileUpload numberToString u st) = false /\
    upload_error (handleFileUpload numberToString u st)
    = (if headers_include headers "bloodtype"
       then UploadNoMessage else NoBloodTypeColumn).
Proof.
  unfold handleFileUpload. cbv zeta.
  destruct u as [| |[ws|]]; try (simpl; congruence).
  destruct (read_headers numberToString (getRow1 ws) []) as [headers|e] eqn:Hr;
    [|simpl; congruence].
  destruct (filter (fun col => negb (headers_include headers col))
              requiredColumns) as [|c0 cs] eqn:Hf; cbn [List.length Nat.eqb negb];
    [|simpl; congruence].
  destruct (read_rows headers ws) as [|o os] eqn:Hrows; cbn [List.length Nat.eqb];
    [simpl; congruence|].
  cbn [loaded_rows upload_error upload_isLoading]. intros _.
  exists ws, headers. split; [reflexivity|]. split; [exact Hr|].
  split.
  { intros c Hc. destruct (headers_include headers c) eqn:Hi; [reflexivity|].
    assert (Hin : In c (filter (fun col => negb (headers_include headers col))
                          requiredColumns))
      by (apply filter_In; split; [assumption|now rewrite Hi]).
    rewrite Hf in Hin. contradiction. }
  split; [rewrite <- Hrows; apply read_rows_length|].
  split; [discriminate|]. split; [reflexivity|].
  now destruct (headers_include headers "bloodtype").
Qed.

Lemma read_headers_not_bloodType (cells : list (nat * value)) :
  forall (acc headers : list (nat * string)),
  read_headers numberToString cells acc = Normal headers ->
  (forall col, header_of acc col <> Some "bloodType") ->
  forall col, header_of headers col <> Some "bloodType".
Proof.
  intros acc headers Hr Hacc col H.
  destruct (read_headers_from_cell _ _ _ _ _ Hr H)
    as [(v & s & _ & _ & E)|E].
  - symmetry in E. exact (lower_not_bloodType s E).
  - exact (Hacc col E).
Qed.

(** X16: the blood type ends under one key.  For a row read with the
    headers of the sheet, no cell is stored under 'bloodType' itself (header
    texts are lowercased); after the normalisation the row's bloodType is
    the value of its 'bloodtype' cell when that value is truthy and is
    undefined otherwise, no truthy value stays under 'bloodtype', and every
    other field is as the cells gave it. *)
Theorem upload_bloodType_normalised (row1 cells : list (nat * value))
        (headers : list (nat * string)) :
  read_headers numberToString row1 [] = Normal headers ->
  row_get (read_cells headers cells []) "bloodType" = VUndefined /\
  row_get (normalize_bloodType (read_cells headers cells [])) "bloodType"
  = (if truthy (row_get (read_cells headers cells []) "bloodtype")
     then row_get (read_cells headers cells []) "bloodtype"
     else VUndefined) /\
  truthy (row_get (normalize_bloodType (read_cells headers cells []))
                  "bloodtype") = false /\
  (forall k, k <> "bloodtype" -> k <> "bloodType" ->
     row_get (normalize_bloodType (read_cells headers cells [])) k
     = row_get (read_cells headers cells []) k).
Proof.
  intros Hr.
  assert (Hraw : row_get (read_cells headers cells []) "bloodType" = VUndefined).
  { rewrite read_cells_get_absent; [reflexivity|].
    intros col v _ Hk.
    destruct (header_of headers col) as [h|] eqn:Hh; [|discriminate].
    subst h.
    apply (read_headers_not_bloodType _ _ _ Hr (fun _ => ltac:(discriminate))
             col Hh). }
  set (raw := read_cells headers cells []) in *.
  split; [exact Hraw|].
  split; [|split; [|intros k; apply normalize_bloodType_other]].
  - unfold normalize_bloodType. rewrite Hraw. cbn [truthy negb].
    rewrite andb_true_r.
    destruct (truthy (row_get raw "bloodtype")) eqn:T; [|exact Hraw].
    rewrite row_get_delete, row_get_set by discriminate. reflexivity.
  - unfold normalize_bloodType. rewrite Hraw. cbn [truthy negb].
    rewrite andb_true_r.
    destruct (truthy (row_get raw "bloodtype")) eqn:T; [|exact T].
    rewrite row_get_delete. reflexivity.
Qed.

(** X17: a cell lands under the lowercased text of its column's header.
    Take a header row of ASCII texts (columns distinct; on ASCII text
    [lower] is the program's [toLowerCase]) that has at column [col] a cell
    reading [h], where [lower h] names no member of [Object.prototype].  If
    a data row holds [v] at [col] and at every other column whose header
    spells the same name, then the row object -- and so the recipient the
    engine reads -- has [v] under [lower h]; and a field whose columns are
    all empty in the row reads as undefined. *)
Theorem upload_cell_lookup (row1 cells : list (nat * value))
        (headers : list (nat * string)) (col : nat) (hv v : value)
        (h : string) :
  NoDup (map fst row1) ->
  (forall c' v' s', In (c', v') row1 ->
     value_toString numberToString v' = Normal s' -> ascii_text s' = true) ->
  read_headers numberToString row1 [] = Normal headers ->
  In (col, hv) row1 -> value_toString numberToString hv = Normal h ->
  ~ In (lower h) Object_prototype -> lower h <> "bloodtype" ->
  (In (col, v) cells /\
   (forall col' v', In (col', v') cells ->
      header_key headers col' = lower h -> v' = v) ->
   row_get (normalize_bloodType (read_cells headers cells [])) (lower h) = v)
  /\
  ((forall col' v', In (col', v') cells ->
      header_key headers col' <> lower h) ->
   row_get (normalize_bloodType (read_cells headers cells [])) (lower h)
   = VUndefined).
Proof.
  intros Hnd _ Hr Hin Hh Hproto Hb.
  assert (Hp : lower h <> "__proto__")
    by (intros E; apply Hproto; rewrite E; simpl; tauto).
  pose proof (read_headers_of_cell _ _ _ _ _ _ Hnd Hr Hin Hh) as Hcol.
  rewrite (normalize_bloodType_other _ (lower h) Hb (lower_not_bloodType h)).
  split.
  - intros [Hc Hall]. apply read_cells_get; [assumption|assumption|].
    left. exists col. split; [assumption|]. now rewrite Hcol.
  - intros Hnone. now rewrite read_cells_get_absent.
Qed.
End UploadFacts.

Lemma upload_missing_columns_witness :
  NoDup (map fst (getRow1 sheet_short_header)) /\
  upload_error (handleFileUpload example_numberToString
                  (Loaded (Some sheet_short_header)) empty_upload_state)
  = MissingColumns ["gender"; "weight"] /\
  (In "weight" ["gender"; "weight"] <->
   In "weight" requiredColumns /\
   forall col v s, In (col, v) (getRow1 sheet_short_header) ->
     value_toString example_numberToString v = Normal s ->
     lower s <> "weight").
Proof.
  assert (Hnd : NoDup (map fst (getRow1 sheet_short_header)))
    by (repeat constructor; simpl; intuition discriminate).
  split; [exact Hnd|]. split; [reflexivity|].
  apply (upload_missing_columns example_numberToString sheet_short_header
           empty_upload_state ["gender"; "weight"] Hnd eq_refl).
Defined.

Lemma upload_replaces_rows_witness :
  exists ws headers,
    Loaded (Some example_sheet) = Loaded (Some ws) /\
    read_headers example_numberToString (getRow1 ws) [] = Normal headers /\
    (forall c, In c requiredColumns -> headers_include headers c = true) /\
    List.length (loaded_rows (handleFileUpload example_numberToString
                                (Loaded (Some example_sheet))
                                empty_upload_state))
    = List.length (filter (fun r => negb (Nat.eqb (fst r) 1)) ws) /\
    loaded_rows (handleFileUpload example_numberToString
                   (Loaded (Some example_sheet)) empty_upload_state) <> [] /\
    upload_isLoading (handleFileUpload example_numberToString
                        (Loaded (Some example_sheet)) empty_upload_state)
    = false /\
    upload_error (handleFileUpload example_numberToString
                    (Loaded (Some example_sheet)) empty_upload_state)
    = (if headers_include headers "bloodtype"
       then UploadNoMessage else NoBloodTypeColumn).
Proof.
  apply (upload_replaces_rows example_numberToString
           (Loaded (Some example_sheet)) empty_upload_state).
  vm_compute. discriminate.
Defined.

Lemma upload_bloodType_normalised_witness :
  exists headers,
    read_headers example_numberToString (getRow1 example_sheet) []
    = Normal headers /\
    row_get (normalize_bloodType
               (read_cells headers
                  [ (3%nat, VString "Female"); (7%nat, VString "AB+") ] []))
            "bloodType" = VString "AB+" /\
    truthy (row_get (normalize_bloodType
                       (read_cells headers
                          [ (3%nat, VString "Female");
                            (7%nat, VString "AB+") ] []))
                    "bloodtype") = false.
Proof.
  destruct (read_headers example_numberToString (getRow1 example_sheet) [])
    as [headers|e] eqn:Hr; [|vm_compute in Hr; discriminate].
  exists headers. split; [reflexivity|].
  destruct (upload_bloodType_normalised example_numberToString
              (getRow1 example_sheet)
              [ (3%nat, VString "Female"); (7%nat, VString "AB+") ]
              headers Hr) as (_ & Hb & Ht & _).
  split; [|exact Ht].
  rewrite Hb. vm_compute in Hr. injection Hr as <-. reflexivity.
Defined.

Lemma upload_cell_lookup_witness :
  exists headers,
    read_headers example_numberToString (getRow1 example_sheet) []
    = Normal headers /\
    row_get (normalize_bloodType
               (read_cells headers
                  [ (2%nat, VString "Second"); (3%nat, VString "male") ] []))
            "gender" = VString "male" /\
    row_get (normalize_bloodType
               (read_cells headers
                  [ (2%nat, VString "Second"); (3%nat, VString "male") ] []))
            "weight" = VUndefined.
Proof.
  destruct (read_headers example_numberToString (getRow1 example_sheet) [])
    as [headers|e] eqn:Hr; [|vm_compute in Hr; discriminate].
  assert (Hnd : NoDup (map fst (getRow1 example_sheet)))
    by (repeat constructor; simpl; intuition discriminate).
  assert (Hascii : forall c' v' s', In (c', v') (getRow1 example_sheet) ->
            value_toString example_numberToString v' = Normal s' ->
            ascii_text s' = true).
  { intros c' v' s' Hin Hs. simpl in Hin.
    repeat (destruct Hin as [Hin|Hin];
            [injection Hin as <- <-; injection Hs as <-; reflexivity|]).
    contradiction. }
  exists headers. split; [reflexivity|]. split.
  - apply (upload_cell_lookup example_numberToString (getRow1 example_sheet)
             [ (2%nat, VString "Second"); (3%nat, VString "male") ]
             headers 3 (VString "Gender") (VString "male") "Gender"
             Hnd Hascii Hr);
      try (simpl; tauto); try reflexivity; try discriminate;
      try (simpl; intuition discriminate).
    split; [simpl; tauto|].
    vm_compute in Hr. injection Hr as <-.
    intros col' v' [Hin|[Hin|[]]] Hk; injection Hin as <- <-;
      [vm_compute in Hk; discriminate|reflexivity].
  - apply (upload_cell_lookup example_numberToString (getRow1 example_sheet)
             [ (2%nat, VString "Second"); (3%nat, VString "male") ]
             headers 6 (VString "Weight") VUndefined "Weight"
             Hnd Hascii Hr);
      try (simpl; tauto); try reflexivity; try discriminate;
      try (simpl; intuition discriminate).
    vm_compute in Hr. injection Hr as <-.
    intros col' v' [Hin|[Hin|[]]] Hk; injection Hin as <- <-;
      vm_compute in Hk; discriminate.
Defined.
